(** * go-cqhttp WebSocket gateway: forward server and reverse client

A shallow embedding of [server/websocket.go]: the connection wrapper
[wsConn], the forward server [webSocketServer], the reverse client
[websocketClient], and the properties of broadcast, dispatch,
registration, handshake and reconnection.

Sockets, the network, the HTTP layer and the wall clock are the
environment.  Every operation on them is recorded as an [Effect] in the
[trace] of a [World]; what the environment answers (does this write
succeed, does this dial succeed, which frames arrive) is an oracle [Env]
that may inspect the whole world so far.  The packages the file imports
but that are not part of it (gjson's parser, the API caller, the filter
registry, [checkAuth]) are the fields of [Extern]. *)

From Stdlib Require Import ZArith String Ascii DecimalString Floats Lia.
From Stdlib Require DecimalPos DecimalZ Uint63.
From stdpp Require Import base list gmap strings.

Set Warnings "-register-all".
Local Open Scope string_scope.
Local Open Scope list_scope.
Local Open Scope nat_scope.

(** ** Go values and gjson results *)

(** A Go [interface{}] as [encoding/json] sees it. *)
Inductive any : Type :=
| ANil
| ABool (b : bool)
| AFloat (f : PrimFloat.float)
| AString (s : string)
| AMap (m : gmap string any)
| ASlice (l : list any).

(** [global.MSG] is [map[string]interface{}]. *)
Abbreviation MSG := (gmap string any).

(** A parsed JSON document, as a [gjson.Result] exposes it: a number
    keeps its text ([Result.Raw]) beside the float64 gjson has parsed from
    it ([Result.Num]), a string is held unescaped ([Result.Str]), an object
    as its members in document order. *)
Inductive json : Type :=
| JNull
| JTrue
| JFalse
| JNumber (raw : string) (num : PrimFloat.float)
| JString (s : string)
| JObject (kvs : list (string * json))
| JArray (l : list json).

(** [Result.Get(key)] for a plain key: the first member of that name;
    [None] is the result that does not exist. *)
Fixpoint member (key : string) (kvs : list (string * json)) : option json :=
  match kvs with
  | [] => None
  | (k, v) :: kvs' => if decide (k = key) then Some v else member key kvs'
  end.

Definition Get (key : string) (j : json) : option json :=
  match j with
  | JObject kvs => member key kvs
  | _ => None
  end.

(** [Result.Str]: the string of a String result, empty otherwise. *)
Definition Str (r : option json) : string :=
  match r with
  | Some (JString s) => s
  | _ => ""
  end.

(** [Result.Exists()] *)
Definition Exists (r : option json) : bool :=
  match r with Some _ => true | None => false end.

(** [Result.Value()]: a number becomes its float64, an array a slice, an
    object a Go map filled member by member, where a member whose key is
    already in the map is skipped (a repeated key keeps its first value). *)
Definition fill (V : json -> any)
  : list (string * json) -> gmap string any -> gmap string any :=
  fix go l m :=
    match l with
    | [] => m
    | (k, v) :: l' =>
        go l' (match m !! k with
               | Some _ => m
               | None => <[k := V v]> m
               end)
    end.

Fixpoint Value (j : json) : any :=
  match j with
  | JNull => ANil
  | JTrue => ABool true
  | JFalse => ABool false
  | JNumber _ num => AFloat num
  | JString s => AString s
  | JObject kvs => AMap (fill Value kvs ∅)
  | JArray l => ASlice (map Value l)
  end.

Definition ValueR (r : option json) : any :=
  match r with Some j => Value j | None => ANil end.

(** ** strings and fmt *)

(** [strings.HasSuffix] and [strings.TrimSuffix]. *)
Definition HasSuffix (s suffix : string) : bool :=
  (String.length suffix <=? String.length s)%nat &&
  bool_decide (substring (String.length s - String.length suffix)
                         (String.length suffix) s = suffix).

Definition TrimSuffix (s suffix : string) : string :=
  if HasSuffix s suffix
  then substring 0 (String.length s - String.length suffix) s
  else s.

(** The verb [%d] of [fmt.Sprintf] on an integer. *)
Definition fmt_d (z : Z) : string := NilZero.string_of_int (Z.to_int z).

(** The double quote character, and a quoted key or string. *)
Definition dq : string :=
  String (Ascii false true false false false true false false) EmptyString.

Definition quoted (s : string) : string := dq +:+ s +:+ dq.

(** int64 arithmetic wraps. *)
Definition wrap64 (z : Z) : Z := ((z + 2 ^ 63) mod 2 ^ 64 - 2 ^ 63)%Z.

(** [time.Millisecond] and [time.Second], in nanoseconds. *)
Definition Millisecond : Z := 1000000.
Definition Second : Z := 1000000000.

(** ** Connections, callers, and the world *)

(** [api.Handler]: the only middleware built here is [rateLimit]. *)
Inductive Handler := rateLimit (frequency : Z) (bucket : Z).

(** [api.Caller]: the middleware installed by [Use], in order. *)
Record Caller := { handlers : list Handler }.

Definition NewCaller : Caller := {| handlers := [] |}.
Definition Use (h : Handler) (c : Caller) : Caller :=
  {| handlers := handlers c ++ [h] |}.

(** [wsConn]: [conn] names the underlying socket.  The mutex [mu] has no
    state of its own in a sequential run; its discipline is the subject of
    [Mutex] below. *)
Record wsConn := { conn : nat; apiCaller : Caller }.

(** The two role slots of the reverse client a [**wsConn] can point to. *)
Inductive slot := SlotUniversal | SlotEvent.

(** What is written in a text frame: bytes given as such, or a response map
    handed to [json.NewEncoder(writer).Encode]. *)
Inductive Frame :=
| FText (b : string)
| FEncoded (ret : MSG).

(** A [go] statement. *)
Inductive Task :=
| GoHandleRequest (c : wsConn) (payload : string)
| GoListenAPI (typ url : string) (c : wsConn)
| GoConnect (typ url : string) (conptr : option slot).

(** The callbacks handed to [bot.OnEventPush]. *)
Inductive PushHandler :=
| ServerPush
| ClientPush (typ url : string) (conptr : slot).

Inductive Level := Debug | Info | Warn | Print.

Inductive Effect :=
| ELog (lvl : Level)
| EWrite (sock : nat) (f : Frame) (ok : bool)
| EClose (sock : nat)
| EDial (url : string) (header : gmap string (list string)) (res : option nat)
| ESleep (d : Z)
| EGo (t : Task)
| EWriteHeader (status : Z)
| EUpgrade (res : option nat)
| ECall (caller : Caller) (action : string) (params : option json)
| EOnEventPush (h : PushHandler)
| EFilterAdd (name : string).

(** [now] is the wall clock in nanoseconds since the epoch. *)
Record World := { now : Z; trace : list Effect }.

Definition emit (e : Effect) (w : World) : World :=
  {| now := now w; trace := trace w ++ [e] |}.

(** [time.Now().Unix()] *)
Definition Unix (w : World) : Z := (now w / Second)%Z.

(** [time.Sleep(d)]: returns at once when [d <= 0]. *)
Definition Sleep (d : Z) (w : World) : World :=
  {| now := (now w + Z.max 0 d)%Z; trace := trace w ++ [ESleep d] |}.

(** [http.Request], as far as the handlers look at it. *)
Record Request := { RemoteAddr : string; Authorization : string; Query : string }.

(** [websocket.TextMessage], [websocket.BinaryMessage], [http.StatusOK]. *)
Definition TextMessage : Z := 1.
Definition BinaryMessage : Z := 2.
Definition StatusOK : Z := 200.

(** What [NextReader] followed by [buffer.ReadFrom] yields for one frame:
    a frame of type [t] read in full, or one whose body could not be read. *)
Inductive Incoming :=
| InFrame (t : Z) (data : string)
| InTruncated (t : Z).

(** The environment.  [net_writer w sock] says whether [NextWriter] hands
    out a writer on the socket (it does not once the connection has a
    write error).  [net_incoming sock] are the frames that arrive on the
    socket before [NextReader] reports an error. *)
Record Env := {
  net_write : World -> nat -> bool;
  net_writer : World -> nat -> bool;
  net_dial : World -> string -> gmap string (list string) -> option nat;
  net_upgrade : World -> Request -> option nat;
  net_incoming : nat -> list Incoming;
}.

(** The collaborating packages.  [Call] answers [None] when the handler
    panics; [Find] answers the predicate [Eval] of the named filter. *)
Record Extern := {
  Parse : string -> json;
  Call : World -> Caller -> string -> option json -> option MSG;
  checkAuth : Request -> string -> Z;
  Find : string -> option (json -> bool);
}.

(** The bot package, as far as the gateway reads it: an event's JSON form
    ([JSONBytes] are the bytes of [JSONString]) and [b.Client.Uin]. *)
Module coolq.
Record Event := { JSONString : string }.
Definition JSONBytes (e : Event) : string := JSONString e.
Record CQBot := { Uin : Z }.
End coolq.
Import coolq.

(** A run ends normally, panics, or is cut by the fuel of the model; the
    world reached is kept in each case. *)
Inductive result (A : Type) :=
| Ok (a : A) (w : World)
| Panic (w : World)
| OutOfFuel (w : World).
Arguments Ok {A} a w.
Arguments Panic {A} w.
Arguments OutOfFuel {A} w.

Definition world_of {A} (r : result A) : World :=
  match r with Ok _ w | Panic w | OutOfFuel w => w end.

(** [flt != nil && !flt.Eval(gjson.Parse(e.JSONString()))] *)
Definition rejected (X : Extern) (name : string) (e : coolq.Event) : bool :=
  match Find X name with
  | Some Eval => negb (Eval (Parse X (JSONString e)))
  | None => false
  end.

(** Raw socket operations of [websocket.Conn]. *)
Definition WriteMessage (env : Env) (sock : nat) (f : Frame) (w : World)
  : bool * World :=
  let ok := net_write env w sock in (ok, emit (EWrite sock f ok) w).

Definition sockClose (sock : nat) (w : World) : World := emit (EClose sock) w.

(** ** wsConn *)

Module wsConn.
Section Methods.
Context (X : Extern) (env : Env).

Definition WriteText (c : wsConn) (b : string) (w : World) : bool * World :=
  WriteMessage env (conn c) (FText b) w.

Definition Close (c : wsConn) (w : World) : World := sockClose (conn c) w.

(** The deferred [recover] logs and closes the connection when something
    panics: [Call], or [Encode] on the nil writer that [NextWriter] returns
    with its error, which is discarded; no frame is written then.  With a
    writer, the errors of [Encode] and [writer.Close] are discarded too:
    the frame is sent or lost, and nothing else happens. *)
Definition handleRequest (c : wsConn) (payload : string) (w : World) : World :=
  let j := Parse X payload in
  let t := TrimSuffix (Str (Get "action" j)) "_async" in
  let w1 := emit (ELog Debug) w in
  let w2 := emit (ECall (apiCaller c) t (Get "params" j)) w1 in
  match Call X w1 (apiCaller c) t (Get "params" j) with
  | None => Close c (emit (ELog Print) w2)
  | Some ret =>
      let ret' :=
        if Exists (Get "echo" j)
        then <["echo" := ValueR (Get "echo" j)]> ret
        else ret in
      if net_writer env w2 (conn c)
      then snd (WriteMessage env (conn c) (FEncoded ret') w2)
      else Close c (emit (ELog Print) w2)
  end.
End Methods.
End wsConn.

(** [fmt.Sprintf] for formats whose only verb is [%d]. *)
Fixpoint Sprintf (format : string) (args : list Z) : string :=
  match format with
  | EmptyString => EmptyString
  | String "%"%char (String "d"%char rest) =>
      match args with
      | a :: args' => fmt_d a +:+ Sprintf rest args'
      | [] => "%!d(MISSING)" +:+ Sprintf rest []
      end
  | String ch rest => String ch (Sprintf rest args)
  end.

Arguments Sprintf : simpl never.

(** ** Configuration *)

Module config.
Record RateLimit := { Enabled : bool; Frequency : Z; Bucket : Z }.

Module WebsocketServer.
Record t := {
  Disabled : bool;
  Host : string;
  Port : Z;
  AccessToken : string;
  Filter : string;
  RateLimit : config.RateLimit;
}.
End WebsocketServer.

Module WebsocketReverse.
Record t := {
  Disabled : bool;
  Universal : string;
  API : string;
  Event : string;
  ReconnectInterval : Z;
  AccessToken : string;
  Filter : string;
  RateLimit : config.RateLimit;
}.
End WebsocketReverse.
End config.

(** ** The forward server *)

Module webSocketServer.
Import config config.WebsocketServer.

Record t := {
  bot : coolq.CQBot;
  conf : config.WebsocketServer.t;
  eventConn : list wsConn;
  token : string;
  handshake : string;
  filter : string;
}.

Definition set_eventConn (l : list wsConn) (s : t) : t :=
  {| bot := bot s; conf := conf s; eventConn := l; token := token s;
     handshake := handshake s; filter := filter s |}.

Definition handshake_format : string :=
  "{" +:+ quoted "_post_method" +:+ ":2," +:+
  quoted "meta_event_type" +:+ ":" +:+ quoted "lifecycle" +:+ "," +:+
  quoted "post_type" +:+ ":" +:+ quoted "meta_event" +:+ "," +:+
  quoted "self_id" +:+ ":%d," +:+
  quoted "sub_type" +:+ ":" +:+ quoted "connect" +:+ "," +:+
  quoted "time" +:+ ":%d}".

Section Methods.
Context (X : Extern) (env : Env).

(** [node] is [None] when the YAML node does not decode.  The server
    value is what the HTTP handlers below then run on; [ListenAndServe]
    itself is the environment invoking them. *)
Definition runWSServer (b : coolq.CQBot) (node : option config.WebsocketServer.t)
    (w : World) : option t * World :=
  match node with
  | None => (None, emit (ELog Warn) w)
  | Some cf =>
      if Disabled cf then (None, w)
      else
        let w1 := emit (EFilterAdd (Filter cf)) w in
        let s := {| bot := b; conf := cf; eventConn := [];
                    token := AccessToken cf;
                    handshake := Sprintf handshake_format [Uin b; Unix w1];
                    filter := Filter cf |} in
        let w2 := emit (EOnEventPush ServerPush) w1 in
        (Some s, emit (ELog Info) w2)
  end.

(** The reader loop over the frames that arrive; a [go] statement per
    text frame. *)
Fixpoint readLoop (c : wsConn) (frames : list Incoming) (w : World) : World :=
  match frames with
  | [] => w
  | InTruncated _ :: _ => w
  | InFrame ty data :: rest =>
      if decide (ty = TextMessage)
      then readLoop c rest (emit (EGo (GoHandleRequest c data)) w)
      else readLoop c rest w
  end.

Definition listenAPI (c : wsConn) (w : World) : World :=
  wsConn.Close c (readLoop c (net_incoming env (conn c)) w).

Definition limited (s : t) (cl : Caller) : Caller :=
  if Enabled (RateLimit (conf s))
  then Use (rateLimit (Frequency (RateLimit (conf s)))
                      (Bucket (RateLimit (conf s)))) cl
  else cl.

Definition event (s : t) (r : Request) (w : World) : t * World :=
  let status := checkAuth X r (token s) in
  if decide (status ≠ StatusOK)
  then (s, emit (EWriteHeader status) (emit (ELog Warn) w))
  else
    let res := net_upgrade env w r in
    let w1 := emit (EUpgrade res) w in
    match res with
    | None => (s, emit (ELog Warn) w1)
    | Some c =>
        let '(ok, w2) := WriteMessage env c (FText (handshake s)) w1 in
        if ok then
          let w3 := emit (ELog Info) w2 in
          let cn := {| conn := c; apiCaller := NewCaller |} in
          (set_eventConn (eventConn s ++ [cn]) s, w3)
        else (s, sockClose c (emit (ELog Warn) w2))
    end.

Definition api (s : t) (r : Request) (w : World) : t * World :=
  let status := checkAuth X r (token s) in
  if decide (status ≠ StatusOK)
  then (s, emit (EWriteHeader status) (emit (ELog Warn) w))
  else
    let res := net_upgrade env w r in
    let w1 := emit (EUpgrade res) w in
    match res with
    | None => (s, emit (ELog Warn) w1)
    | Some c =>
        let w2 := emit (ELog Info) w1 in
        let cn := {| conn := c; apiCaller := limited s NewCaller |} in
        (s, listenAPI cn w2)
    end.

Definition any (s : t) (r : Request) (w : World) : t * World :=
  let status := checkAuth X r (token s) in
  if decide (status ≠ StatusOK)
  then (s, emit (EWriteHeader status) (emit (ELog Warn) w))
  else
    let res := net_upgrade env w r in
    let w1 := emit (EUpgrade res) w in
    match res with
    | None => (s, emit (ELog Warn) w1)
    | Some c =>
        let '(ok, w2) := WriteMessage env c (FText (handshake s)) w1 in
        if ok then
          let w3 := emit (ELog Info) w2 in
          let cn := {| conn := c; apiCaller := limited s NewCaller |} in
          (set_eventConn (eventConn s ++ [cn]) s, listenAPI cn w3)
        else (s, sockClose c (emit (ELog Warn) w2))
    end.

(** The loop of [onBotPushEvent]: [n] iterations remain, [i] and [j] are
    the two indices, [arr] the slice.  [arr !! i] is always in range. *)
Fixpoint pushLoop (n i j : nat) (b : string) (arr : list wsConn) (w : World)
  : list wsConn * nat * World :=
  match n with
  | O => (arr, j, w)
  | S n' =>
      match arr !! i with
      | None => (arr, j, w)
      | Some cn =>
          let w1 := emit (ELog Debug) w in
          let '(ok, w2) := wsConn.WriteText env cn b w1 in
          if ok then
            let arr' := if decide (i ≠ j) then <[j := cn]> arr else arr in
            pushLoop n' (S i) (S j) b arr' w2
          else pushLoop n' (S i) j b arr (wsConn.Close cn w2)
      end
  end.

Definition onBotPushEvent (s : t) (e : coolq.Event) (w : World) : t * World :=
  if rejected X (filter s) e then (s, emit (ELog Debug) w)
  else
    let '(arr, j, w') :=
      pushLoop (length (eventConn s)) 0 0 (JSONBytes e) (eventConn s) w in
    (set_eventConn (take j arr) s, w').
End Methods.
End webSocketServer.

(** ** The reverse client *)

Module websocketClient.
Import config config.WebsocketReverse.

Record t := {
  bot : coolq.CQBot;
  universal : option wsConn;
  event : option wsConn;
  token : string;
  filter : string;
  reconnectInterval : Z;
  limiter : option Handler;
}.

(** Reading and writing through a [**wsConn]. *)
Definition load (p : slot) (c : t) : option wsConn :=
  match p with SlotUniversal => universal c | SlotEvent => event c end.

Definition store (p : slot) (v : wsConn) (c : t) : t :=
  match p with
  | SlotUniversal =>
      {| bot := bot c; universal := Some v; event := event c;
         token := token c; filter := filter c;
         reconnectInterval := reconnectInterval c; limiter := limiter c |}
  | SlotEvent =>
      {| bot := bot c; universal := universal c; event := Some v;
         token := token c; filter := filter c;
         reconnectInterval := reconnectInterval c; limiter := limiter c |}
  end.

Definition handshake_format : string :=
  "{" +:+
  quoted "meta_event_type" +:+ ":" +:+ quoted "lifecycle" +:+ "," +:+
  quoted "post_type" +:+ ":" +:+ quoted "meta_event" +:+ "," +:+
  quoted "self_id" +:+ ":%d," +:+
  quoted "sub_type" +:+ ":" +:+ quoted "connect" +:+ "," +:+
  quoted "time" +:+ ":%d}".

Definition dial_header (c : t) (typ : string) : gmap string (list string) :=
  let header : gmap string (list string) :=
    <["X-Client-Role" := [typ]]>
      (<["X-Self-ID" := [fmt_d (Uin (bot c))]]>
         (<["User-Agent" := ["CQHttp/4.15.0"]]> ∅)) in
  if decide (token c ≠ "")
  then <["Authorization" := ["Token " +:+ token c]]> header
  else header.

(** The client value [runWSClient] builds from the configuration: the
    struct literal, then the two conditional assignments (they have no
    effect on the world, so they are taken together here, ahead of
    [filter.Add]).  The product with [time.Millisecond] is taken in int64. *)
Definition newClient (b : coolq.CQBot) (cf : config.WebsocketReverse.t) : t :=
  {| bot := b; universal := None; event := None;
     token := AccessToken cf; filter := Filter cf;
     reconnectInterval :=
       if decide (ReconnectInterval cf ≠ 0%Z)
       then wrap64 (ReconnectInterval cf * Millisecond)
       else 0%Z;
     limiter :=
       if Enabled (RateLimit cf)
       then Some (rateLimit (Frequency (RateLimit cf)) (Bucket (RateLimit cf)))
       else None |}.

Section Methods.
Context (X : Extern) (env : Env).

(** [fuel] bounds the depth of the recursion of [connect] on itself. *)
Fixpoint connect (fuel : nat) (typ url : string) (conptr : option slot)
    (c : t) (w : World) : result t :=
  match fuel with
  | O => OutOfFuel w
  | S fuel' =>
      let w0 := emit (ELog Info) w in
      let header := dial_header c typ in
      let res := net_dial env w0 url header in
      let w1 := emit (EDial url header res) w0 in
      match res with
      | None =>
          let w2 := emit (ELog Warn) w1 in
          if decide (reconnectInterval c ≠ 0%Z)
          then connect fuel' typ url conptr c (Sleep (reconnectInterval c) w2)
          else Ok c w2
      | Some sock =>
          let w2 :=
            if decide (typ = "Event" ∨ typ = "Universal") then
              let hs := Sprintf handshake_format [Uin (bot c); Unix w1] in
              let '(ok, w') := WriteMessage env sock (FText hs) w1 in
              if ok then w' else emit (ELog Warn) w'
            else w1 in
          let w3 := emit (ELog Info) w2 in
          let wrappedConn :=
            {| conn := sock;
               apiCaller := match limiter c with
                            | Some h => Use h NewCaller
                            | None => NewCaller
                            end |} in
          let c' := match conptr with
                    | Some p => store p wrappedConn c
                    | None => c
                    end in
          let w4 := if decide (typ ≠ "Event")
                    then emit (EGo (GoListenAPI typ url wrappedConn)) w3
                    else w3 in
          Ok c' w4
      end
  end.

Fixpoint readLoop (cn : wsConn) (frames : list Incoming) (w : World) : World :=
  match frames with
  | [] => emit (ELog Warn) w
  | InTruncated _ :: _ => emit (ELog Warn) w
  | InFrame ty data :: rest =>
      if decide (ty = TextMessage)
      then readLoop cn rest (emit (EGo (GoHandleRequest cn data)) w)
      else readLoop cn rest w
  end.

Definition listenAPI (c : t) (typ url : string) (cn : wsConn) (w : World)
  : World :=
  let w1 := readLoop cn (net_incoming env (conn cn)) w in
  let w2 :=
    if decide (reconnectInterval c ≠ 0%Z) then
      let w' := Sleep (reconnectInterval c) w1 in
      if decide (typ = "API")
      then emit (EGo (GoConnect typ url None)) w'
      else w'
    else w1 in
  wsConn.Close cn w2.

(** The closure returned by [onBotPushEvent typ url conn], applied to [e].
    [*conn] is nil when the role never connected: the method call on it
    panics. *)
Definition onBotPushEvent (fuel : nat) (typ url : string) (cp : slot)
    (c : t) (e : coolq.Event) (w : World) : result t :=
  if rejected X (filter c) e then Ok c (emit (ELog Debug) w)
  else
    let w1 := emit (ELog Debug) w in
    match load cp c with
    | None => Panic w1
    | Some cn =>
        let '(ok, w2) := wsConn.WriteText env cn (JSONBytes e) w1 in
        if ok then Ok c w2
        else
          let w3 := wsConn.Close cn (emit (ELog Warn) w2) in
          if decide (reconnectInterval c ≠ 0%Z)
          then connect fuel typ url (Some cp) c (Sleep (reconnectInterval c) w3)
          else Ok c w3
    end.

Definition runWSClient (fuel : nat) (b : coolq.CQBot)
    (node : option config.WebsocketReverse.t) (w : World) : result (option t) :=
  match node with
  | None => Ok None (emit (ELog Warn) w)
  | Some cf =>
      if Disabled cf then Ok None w
      else
        let c := newClient b cf in
        let w1 := emit (EFilterAdd (filter c)) w in
        if decide (Universal cf ≠ "") then
          match connect fuel "Universal" (Universal cf) (Some SlotUniversal) c w1 with
          | Ok c1 w2 =>
              Ok (Some c1)
                 (emit (EOnEventPush
                          (ClientPush "Universal" (Universal cf) SlotUniversal)) w2)
          | Panic w2 => Panic w2
          | OutOfFuel w2 => OutOfFuel w2
          end
        else
          let r1 := if decide (API cf ≠ "")
                    then connect fuel "API" (API cf) None c w1
                    else Ok c w1 in
          match r1 with
          | Ok c1 w2 =>
              if decide (Event cf ≠ "") then
                match connect fuel "Event" (Event cf) (Some SlotEvent) c1 w2 with
                | Ok c2 w3 =>
                    Ok (Some c2)
                       (emit (EOnEventPush
                                (ClientPush "Event" (Event cf) SlotEvent)) w3)
                | Panic w3 => Panic w3
                | OutOfFuel w3 => OutOfFuel w3
                end
              else Ok (Some c1) w2
          | Panic w2 => Panic w2
          | OutOfFuel w2 => OutOfFuel w2
          end
  end.
End Methods.
End websocketClient.

(** ** Two writers on one connection

The sequential model above runs one task at a time.  Here two tasks that
write to the same [wsConn] run interleaved.  A task is the sequence of
its atomic actions on the connection: [c.mu.Lock()], the bytes it hands
to the socket one by one, and the deferred [c.mu.Unlock()].  [wire f]
are the bytes that make up the text frame of [f] on the socket. *)

Module Mutex.
Inductive instr :=
| ILock
| IEmit (b : Byte.byte)
| IUnlock.

(** [held] is the task that holds [c.mu], [out] the bytes on the socket
    so far, [pcs] what is left to run of each task. *)
Record state := { held : option nat; out : list Byte.byte; pcs : list (list instr) }.

(** One atomic action of task [i].  [Lock] is enabled only while the
    mutex is free; a socket write is not guarded by anything. *)
Inductive step : state -> state -> Prop :=
| step_lock i rest st :
    pcs st !! i = Some (ILock :: rest) ->
    held st = None ->
    step st {| held := Some i; out := out st; pcs := <[i := rest]> (pcs st) |}
| step_emit i b rest st :
    pcs st !! i = Some (IEmit b :: rest) ->
    step st {| held := held st; out := out st ++ [b]; pcs := <[i := rest]> (pcs st) |}
| step_unlock i rest st :
    pcs st !! i = Some (IUnlock :: rest) ->
    step st {| held := None; out := out st; pcs := <[i := rest]> (pcs st) |}.

Definition final (st : state) : Prop := Forall (λ p, p = []) (pcs st).

(** The number of actions still to run. *)
Definition size (st : state) : nat := length (concat (pcs st)).

(** A caller of the connection's write: an event broadcast through
    [WriteText], or the response written at the end of [handleRequest]. *)
Inductive caller :=
| Broadcast (b : string)
| Response (ret : MSG).

Definition frame_of (c : caller) : Frame :=
  match c with Broadcast b => FText b | Response ret => FEncoded ret end.

Section Programs.
Context (wire : Frame -> list Byte.byte).

(** [c.mu.Lock(); defer c.mu.Unlock(); c.conn.WriteMessage(TextMessage, b)] *)
Definition WriteText (b : string) : list instr :=
  ILock :: map IEmit (wire (FText b)) ++ [IUnlock].

(** [c.mu.Lock(); defer c.mu.Unlock(); NextWriter; Encode(ret); writer.Close()] *)
Definition handleRequest_write (ret : MSG) : list instr :=
  ILock :: map IEmit (wire (FEncoded ret)) ++ [IUnlock].

Definition prog_of (c : caller) : list instr :=
  match c with
  | Broadcast b => WriteText b
  | Response ret => handleRequest_write ret
  end.

Definition init (c1 c2 : caller) : state :=
  {| held := None; out := []; pcs := [prog_of c1; prog_of c2] |}.

(** Where a writer is: before its [Lock], inside with [k] bytes handed
    to the socket, or past its [Unlock]. *)
Inductive phase := Waiting | Writing (k : nat) | Finished.

Definition remaining (f : Frame) (ph : phase) : list instr :=
  match ph with
  | Waiting => ILock :: map IEmit (wire f) ++ [IUnlock]
  | Writing k => map IEmit (drop k (wire f)) ++ [IUnlock]
  | Finished => []
  end.

Definition emitted (f : Frame) (ph : phase) : list Byte.byte :=
  match ph with
  | Waiting => []
  | Writing k => take k (wire f)
  | Finished => wire f
  end.

Definition writing (ph : phase) : bool :=
  match ph with Writing _ => true | _ => false end.

Definition wf (f : Frame) (ph : phase) : Prop :=
  match ph with Writing k => k ≤ length (wire f) | _ => True end.

(** The states two writers of frames [f1] and [f2] can be in. *)
Definition inv (f1 f2 : Frame) (st : state) : Prop :=
  ∃ ph1 ph2,
    pcs st = [remaining f1 ph1; remaining f2 ph2] ∧
    wf f1 ph1 ∧ wf f2 ph2 ∧
    held st = (if writing ph1 then Some 0
               else if writing ph2 then Some 1 else None) ∧
    ((writing ph2 = false ∧ out st = emitted f2 ph2 ++ emitted f1 ph1) ∨
     (writing ph1 = false ∧ out st = emitted f1 ph1 ++ emitted f2 ph2)).
End Programs.
End Mutex.

(** ** Observations on traces *)

Definition is_write (e : Effect) : bool :=
  match e with EWrite _ _ _ => true | _ => false end.

Definition is_write_to (k : nat) (e : Effect) : bool :=
  match e with EWrite s _ _ => bool_decide (s = k) | _ => false end.

(** The text frame [b] reached the peer of socket [k]. *)
Definition is_delivery (k : nat) (b : string) (e : Effect) : bool :=
  match e with
  | EWrite s (FText b') true => bool_decide (s = k) && bool_decide (b' = b)
  | _ => false
  end.

Definition is_close (e : Effect) : bool :=
  match e with EClose _ => true | _ => false end.

Definition is_close_of (k : nat) (e : Effect) : bool :=
  match e with EClose s => bool_decide (s = k) | _ => false end.

Definition is_dial (e : Effect) : bool :=
  match e with EDial _ _ _ => true | _ => false end.

Definition is_sleep (e : Effect) : bool :=
  match e with ESleep _ => true | _ => false end.

Definition is_go (e : Effect) : bool :=
  match e with EGo _ => true | _ => false end.

Definition is_call (e : Effect) : bool :=
  match e with ECall _ _ _ => true | _ => false end.

Definition count (f : Effect -> bool) (l : list Effect) : nat :=
  length (List.filter f l).

(** The broadcast pass seen as a pass over the subscribers in order: the
    survivors and the world after it. *)
Fixpoint fanout (env : Env) (b : string) (cs : list wsConn) (w : World)
  : list wsConn * World :=
  match cs with
  | [] => ([], w)
  | cn :: cs' =>
      let '(ok, w2) := wsConn.WriteText env cn b (emit (ELog Debug) w) in
      if ok then
        let '(kept, w3) := fanout env b cs' w2 in (cn :: kept, w3)
      else fanout env b cs' (wsConn.Close cn w2)
  end.

Definition occ (k : nat) (cs : list wsConn) : nat :=
  length (List.filter (λ c, bool_decide (conn c = k)) cs).

(** A subscriber received [b] once and stays open; or its one write failed
    and it was closed. *)
Definition delivered_once (evs : list Effect) (c : wsConn) (b : string) : Prop :=
  count (is_write_to (conn c)) evs = 1 ∧
  count (is_delivery (conn c) b) evs = 1 ∧
  count (is_close_of (conn c)) evs = 0.

Definition pruned (evs : list Effect) (c : wsConn) (b : string) : Prop :=
  count (is_write_to (conn c)) evs = 1 ∧
  count (is_delivery (conn c) b) evs = 0 ∧
  count (is_close_of (conn c)) evs = 1.

(** Socket operations, dials and sleeps: everything but logging. *)
Definition is_io (e : Effect) : bool :=
  is_write e || is_close e || is_dial e || is_sleep e || is_go e.

(** ** Sample collaborators and environments *)

Module Sample.
(** A filter registry with one filter, ["drop"], that rejects every
    event; an API that answers an empty result. *)
Definition extern : Extern :=
  {| Parse := λ _, JNull;
     Call := λ _ _ _ _, Some ∅;
     checkAuth := λ r tok,
       if decide (Authorization r = "Bearer " +:+ tok) then 200%Z else 401%Z;
     Find := λ name, if decide (name = "drop") then Some (λ _, false) else None |}.

(** Socket 2 is broken; every dial and upgrade fails; nothing arrives. *)
Definition env : Env :=
  {| net_write := λ _ k, negb (bool_decide (k = 2));
     net_writer := λ _ _, true;
     net_dial := λ _ _ _, None;
     net_upgrade := λ _ _, None;
     net_incoming := λ _, [] |}.

Definition world0 : World := {| now := 0; trace := [] |}.

Definition rate0 : config.RateLimit :=
  {| config.Enabled := false; config.Frequency := 0; config.Bucket := 0 |}.

Definition server_conf (flt : string) : config.WebsocketServer.t :=
  {| config.WebsocketServer.Disabled := false;
     config.WebsocketServer.Host := "127.0.0.1";
     config.WebsocketServer.Port := 6700;
     config.WebsocketServer.AccessToken := "";
     config.WebsocketServer.Filter := flt;
     config.WebsocketServer.RateLimit := rate0 |}.

Definition sub (k : nat) : wsConn := {| conn := k; apiCaller := NewCaller |}.

Definition server (flt : string) (subs : list wsConn) : webSocketServer.t :=
  {| webSocketServer.bot := {| Uin := 10001 |};
     webSocketServer.conf := server_conf flt;
     webSocketServer.eventConn := subs;
     webSocketServer.token := "";
     webSocketServer.handshake := "";
     webSocketServer.filter := flt |}.

Definition client (flt : string) (interval : Z) (u : option wsConn)
  : websocketClient.t :=
  {| websocketClient.bot := {| Uin := 10001 |};
     websocketClient.universal := u;
     websocketClient.event := None;
     websocketClient.token := "";
     websocketClient.filter := flt;
     websocketClient.reconnectInterval := interval;
     websocketClient.limiter := None |}.

Definition ev : coolq.Event := {| JSONString := "{}" |}.
End Sample.

Module SampleCmd.
(** Collaborators for one command: the parser yields [j], the API answers
    [{status: ok, retcode: 0}] to every action. *)
Definition api_ok : MSG :=
  <["status" := AString "ok"]> (<["retcode" := AFloat 0%float]> ∅).

Definition extern (j : json) : Extern :=
  {| Parse := λ _, j;
     Call := λ _ _ _ _, Some api_ok;
     checkAuth := λ _ _, 200%Z;
     Find := λ _, None |}.

Definition send_msg_async : json :=
  JObject [("action", JString "send_msg_async");
           ("params", JObject [("message", JString "hi")]);
           ("echo", JString "x1")].
End SampleCmd.

Module SampleEcho.
(** Commands with a numeric echo.  [status n] is the payload
    [{"action":"get_status","echo":n}] for the number text [n]; [parsed]
    is what gjson makes of it.  [odd] is the number 2^53 + 1 and [even]
    the number 2^53, each with the float64 nearest to it. *)
Definition status (n : string) : string :=
  "{" +:+ quoted "action" +:+ ":" +:+ quoted "get_status" +:+ "," +:+
  quoted "echo" +:+ ":" +:+ n +:+ "}".

Definition parsed (echo : json) : json :=
  JObject [("action", JString "get_status"); ("echo", echo)].

Definition odd : json :=
  JNumber "9007199254740993"
          (PrimFloat.of_uint63 (Uint63.of_Z 9007199254740993)).

Definition even : json :=
  JNumber "9007199254740992"
          (PrimFloat.of_uint63 (Uint63.of_Z 9007199254740992)).

Definition extern : Extern :=
  {| Parse := λ p,
       if decide (p = status "9007199254740993") then parsed odd
       else if decide (p = status "9007199254740992") then parsed even
       else JNull;
     Call := λ _ _ _ _, Some SampleCmd.api_ok;
     checkAuth := λ _ _, 200%Z;
     Find := λ _, None |}.


(** Sockets whose peer is gone: every write fails, and once a write on a
    socket has failed [NextWriter] hands out no writer on it any more. *)
Definition failed_write_on (sock : nat) (e : Effect) : bool :=
  match e with
  | EWrite s _ false => bool_decide (s = sock)
  | _ => false
  end.

Definition env_broken : Env :=
  {| net_write := λ _ _, false;
     net_writer := λ w k, negb (existsb (failed_write_on k) (trace w));
     net_dial := λ _ _ _, None;
     net_upgrade := λ _ _, None;
     net_incoming := λ _, [] |}.
End SampleEcho.

(** What the reader loop of connection [c] may add to the trace while it
    reads [frames]: a task that handles the payload of one of the text
    frames, or a log line. *)
Definition reader_effect (c : wsConn) (frames : list Incoming) (e : Effect) : Prop :=
  match e with
  | EGo (GoHandleRequest c' data) => c' = c ∧ InFrame TextMessage data ∈ frames
  | ELog _ => True
  | _ => False
  end.

(** All three steps of an accept went through, giving socket [k]. *)
Definition accepted (X : Extern) (env : Env) (s : webSocketServer.t)
    (r : Request) (w : World) (k : nat) : Prop :=
  checkAuth X r (webSocketServer.token s) = StatusOK ∧
  net_upgrade env w r = Some k ∧
  net_write env (emit (EUpgrade (Some k)) w) k = true.

(** What establishing the role [typ] at [url] may add to the trace: dials
    of [url] that announce the role [typ], the handshake write, the reader
    task and the push handler of that role, sleeps and log lines. *)
Definition role_effect (typ url : string) (e : Effect) : Prop :=
  match e with
  | EDial u header _ => u = url ∧ header !! "X-Client-Role" = Some [typ]
  | EGo (GoListenAPI t u _) => t = typ ∧ u = url
  | EOnEventPush (ClientPush t u _) => t = typ ∧ u = url
  | EWrite _ (FText _) _ => True
  | ELog _ | ESleep _ | EFilterAdd _ => True
  | _ => False
  end.

(** One failed attempt of [connect]: the dial, the warning, the sleep. *)
Definition failed_attempt (c : websocketClient.t) (typ url : string) (w : World)
  : World :=
  Sleep (websocketClient.reconnectInterval c)
    (emit (ELog Warn)
       (emit (EDial url (websocketClient.dial_header c typ) None)
          (emit (ELog Info) w))).

Fixpoint after_failures (n : nat) (c : websocketClient.t) (typ url : string)
    (w : World) : World :=
  match n with
  | O => w
  | S n' => after_failures n' c typ url (failed_attempt c typ url w)
  end.

(** Whether the dial of the attempt made in world [w] succeeds. *)
Definition attempt (env : Env) (c : websocketClient.t) (typ url : string)
    (w : World) : option nat :=
  net_dial env (emit (ELog Info) w) url (websocketClient.dial_header c typ).

Module SampleDial.
(** The peer at any URL is down until the clock reaches six seconds;
    from then on a dial yields socket 9.  Writes succeed. *)
Definition env : Env :=
  {| net_write := λ _ _, true;
     net_writer := λ _ _, true;
     net_dial := λ w _ _, if (now w <? 6 * Second)%Z then None else Some 9;
     net_upgrade := λ _ _, None;
     net_incoming := λ _, [] |}.

(** Nothing is ever reachable. *)
Definition env_down : Env :=
  {| net_write := λ _ _, true;
     net_writer := λ _ _, true;
     net_dial := λ _ _ _, None;
     net_upgrade := λ _ _, None;
     net_incoming := λ _, [] |}.

Definition reverse_conf (u a e : string) (interval : Z)
  : config.WebsocketReverse.t :=
  {| config.WebsocketReverse.Disabled := false;
     config.WebsocketReverse.Universal := u;
     config.WebsocketReverse.API := a;
     config.WebsocketReverse.Event := e;
     config.WebsocketReverse.ReconnectInterval := interval;
     config.WebsocketReverse.AccessToken := "";
     config.WebsocketReverse.Filter := "";
     config.WebsocketReverse.RateLimit := Sample.rate0 |}.
End SampleDial.

(** ** The handshake objects of the interface description *)

Definition lifecycle_fields (self_id time : Z) : string :=
  quoted "meta_event_type" +:+ ":" +:+ quoted "lifecycle" +:+ "," +:+
  quoted "post_type" +:+ ":" +:+ quoted "meta_event" +:+ "," +:+
  quoted "self_id" +:+ ":" +:+ fmt_d self_id +:+ "," +:+
  quoted "sub_type" +:+ ":" +:+ quoted "connect" +:+ "," +:+
  quoted "time" +:+ ":" +:+ fmt_d time +:+ "}".

Definition server_handshake_json (self_id time : Z) : string :=
  "{" +:+ quoted "_post_method" +:+ ":2," +:+ lifecycle_fields self_id time.

Definition client_handshake_json (self_id time : Z) : string :=
  "{" +:+ lifecycle_fields self_id time.

Module SampleAccept.
(** Every upgrade yields socket 5 and every write succeeds. *)
Definition env : Env :=
  {| net_write := λ _ _, true;
     net_writer := λ _ _, true;
     net_dial := λ _ _ _, Some 9;
     net_upgrade := λ _ _, Some 5;
     net_incoming := λ _, [] |}.

Definition request : Request :=
  {| RemoteAddr := "10.0.0.7:40312"; Authorization := ""; Query := "" |}.

(** The server is set up at second 100; a peer connects at second 200. *)
Definition started : World := {| now := 100 * Second; trace := [] |}.
Definition connected : World := {| now := 200 * Second; trace := [] |}.

Definition wire (f : Frame) : list Byte.byte :=
  match f with
  | FText b => list_byte_of_string b
  | FEncoded _ => list_byte_of_string "{}"
  end.
End SampleAccept.

(** ** Observations on reader runs and broadcasts *)

(** The payload of a text frame that was read in full. *)
Definition text_payload (f : Incoming) : option string :=
  match f with
  | InFrame ty data => if decide (ty = TextMessage) then Some data else None
  | InTruncated _ => None
  end.

Definition is_intact (f : Incoming) : bool :=
  match f with InFrame _ _ => true | InTruncated _ => false end.

(** The frames that arrive before the first one whose body cannot be read. *)
Fixpoint intact_prefix (frames : list Incoming) : list Incoming :=
  match frames with
  | [] => []
  | f :: rest => if is_intact f then f :: intact_prefix rest else []
  end.

(** One handler task of connection [c] per text frame, in arrival order. *)
Definition handler_tasks (c : wsConn) (frames : list Incoming) : list Effect :=
  (λ data, EGo (GoHandleRequest c data)) <$> omap text_payload (intact_prefix frames).

(** A write attempt of the text frame [b] on socket [k], whatever came of it. *)
Definition is_attempt (k : nat) (b : string) (e : Effect) : bool :=
  match e with
  | EWrite s (FText b') _ => bool_decide (s = k) && bool_decide (b' = b)
  | _ => false
  end.

(** What a broadcast of [b] adds for one subscriber whose write succeeds,
    and for one whose write fails. *)
Definition delivery (b : string) (c : wsConn) : list Effect :=
  [ELog Debug; EWrite (conn c) (FText b) true].

Definition failure (b : string) (c : wsConn) : list Effect :=
  [ELog Debug; EWrite (conn c) (FText b) false; EClose (conn c)].

(** No effect of [evs] satisfies [f]. *)
Definition none_of (f : Effect -> bool) (evs : list Effect) : Prop :=
  Forall (λ e, f e = false) evs.

Module SampleOutage.
(** No write succeeds, nothing can be dialed or upgraded. *)
Definition env : Env :=
  {| net_write := λ _ _, false;
     net_writer := λ _ _, true;
     net_dial := λ _ _ _, None;
     net_upgrade := λ _ _, None;
     net_incoming := λ _, [] |}.
End SampleOutage.

(** ** Observations on the reverse client *)

(** The wrapped connection [connect] builds on socket [k]: a new caller,
    with the limiter of the client when it has one. *)
Definition wrapped (c : websocketClient.t) (k : nat) : wsConn :=
  {| conn := k;
     apiCaller := {| handlers := match websocketClient.limiter c with
                                 | Some h => [h]
                                 | None => []
                                 end |} |}.

(** A dial of [url] that presents the role, the bot's Uin and the user
    agent, and the token exactly when one is configured. *)
Definition presents_identity (c : websocketClient.t) (typ url : string)
    (e : Effect) : Prop :=
  match e with
  | EDial u header _ =>
      u = url ∧
      header !! "X-Client-Role" = Some [typ] ∧
      header !! "X-Self-ID" = Some [fmt_d (Uin (websocketClient.bot c))] ∧
      header !! "User-Agent" = Some ["CQHttp/4.15.0"] ∧
      header !! "Authorization"
        = (if decide (websocketClient.token c = "") then None
           else Some ["Token " +:+ websocketClient.token c])
  | _ => True
  end.

(** A write is the frame [f] on socket [k]; other effects are free. *)
Definition writes_only (k : nat) (f : Frame) (e : Effect) : Prop :=
  match e with
  | EWrite s f' _ => s = k ∧ f' = f
  | _ => True
  end.

(** ** Global message ids ([db.ToGlobalID]) *)

(** [hash/crc32] with the IEEE polynomial: the table of [simplePopulateTable]
    and the byte-wise update of [simpleUpdate], on 32-bit values held in [Z]. *)
Module crc32.
Definition IEEE : Z := 0xedb88320.

(** [if crc&1 == 1 { crc = (crc >> 1) ^ poly } else { crc >>= 1 }] *)
Definition shift (crc : Z) : Z :=
  if Z.testbit crc 0 then Z.lxor (Z.shiftr crc 1) IEEE else Z.shiftr crc 1.

(** Entry [i] of the table: eight shifts of [i]. *)
Definition table (i : Z) : Z := Nat.iter 8 shift i.

(** [^crc] on a uint32. *)
Definition not32 (crc : Z) : Z := Z.lxor crc 0xffffffff.

Definition byte (v : Byte.byte) : Z := Z.of_N (Byte.to_N v).

(** [crc = tab[byte(crc)^v] ^ (crc >> 8)] *)
Definition next (crc : Z) (v : Byte.byte) : Z :=
  Z.lxor (table (Z.lxor (Z.land crc 255) (byte v))) (Z.shiftr crc 8).

Definition update (crc : Z) (p : list Byte.byte) : Z :=
  not32 (fold_left next p (not32 crc)).

Definition ChecksumIEEE (data : list Byte.byte) : Z := update 0 data.
End crc32.

Module db.
(** The conversion of a uint32 to int32. *)
Definition int32 (z : Z) : Z := ((z + 2 ^ 31) mod 2 ^ 32 - 2 ^ 31)%Z.

(** [fmt.Sprintf("%d-%d", code, msgID)] *)
Definition key (code msgID : Z) : string := Sprintf "%d-%d" [code; msgID].

Definition ToGlobalID (code msgID : Z) : Z :=
  int32 (crc32.ChecksumIEEE (list_byte_of_string (key code msgID))).
End db.

(** ** The profiling server ([runPprof]) *)

Module pprof.
(** [config.PprofServer] *)
Record PprofServer := { Disabled : bool; Host : string; Port : Z }.

Inductive Level := Info | Warn | Error.

(** The handlers of [net/http/pprof] that are mounted. *)
Inductive Handler := Index | Cmdline | Profile | Symbol | Trace.

(** What [ListenAndServe] returns: [http.ErrServerClosed] or another error. *)
Inductive ServeError := ErrServerClosed | ErrOther (msg : string).

Inductive Effect :=
| Log (lvl : Level)
| HandleFunc (pattern : string) (h : Handler)
| Go (addr : string)
| ListenAndServe (addr : string) (err : option ServeError)
| Sleep (d : Z)
| Exit (code : Z).

(** [fmt.Sprintf("%s:%d", conf.Host, conf.Port)] *)
Definition addr_of (conf : PprofServer) : string :=
  Host conf +:+ ":" +:+ fmt_d (Port conf).

(** [node] is [None] when the YAML node does not decode.  The function
    returns after starting the server task. *)
Definition runPprof (node : option PprofServer) (tr : list Effect) : list Effect :=
  match node with
  | None => tr ++ [Log Warn]
  | Some conf =>
      if Disabled conf then tr
      else
        tr ++ [HandleFunc "/debug/pprof/" Index;
               HandleFunc "/debug/pprof/cmdline" Cmdline;
               HandleFunc "/debug/pprof/profile" Profile;
               HandleFunc "/debug/pprof/symbol" Symbol;
               HandleFunc "/debug/pprof/trace" Trace;
               Go (addr_of conf)]
  end.

(** The server task; [err] is what [ListenAndServe] returns when it does.
    The second component tells whether the process has exited. *)
Definition serve (addr : string) (err : option ServeError) (tr : list Effect)
  : list Effect * bool :=
  let tr1 := tr ++ [Log Info; Log Warn; ListenAndServe addr err] in
  match err with
  | Some (ErrOther _) =>
      (tr1 ++ [Log Error; Log Info; Log Warn; Sleep (Second * 5); Exit 1], true)
  | Some ErrServerClosed | None => (tr1, false)
  end.

Definition is_exit (e : Effect) : bool :=
  match e with Exit _ => true | _ => false end.

Definition is_route (e : Effect) : bool :=
  match e with HandleFunc _ _ => true | _ => false end.

Definition is_go (e : Effect) : bool :=
  match e with Go _ => true | _ => false end.
End pprof.

(** A string without a minus sign, as the digits of a decimal number are. *)
Fixpoint no_dash (s : string) : Prop :=
  match s with
  | EmptyString => True
  | String ch s' => ch ≠ "-"%char ∧ no_dash s'
  end.

(** * Properties *)

Lemma count_app f l1 l2 : count f (l1 ++ l2) = count f l1 + count f l2.
Proof. unfold count. by rewrite List.filter_app, length_app. Qed.

Lemma count_cons f e l :
  count f (e :: l) = (if f e then 1 else 0) + count f l.
Proof. unfold count. simpl. by destruct (f e). Qed.

Lemma trace_emit e w : trace (emit e w) = trace w ++ [e].
Proof. done. Qed.

Lemma count_none f evs : none_of f evs → count f evs = 0.
Proof.
  unfold none_of, count. induction 1 as [|e evs He _ IH]; simpl; [done|].
  by rewrite He.
Qed.

(** ** The broadcast loop *)

Section Broadcast.
Context (X : Extern) (env : Env).

(** The two-index loop over the slice computes the in-order pass: the
    first [j] slots hold the survivors so far, the slots from [i] on are
    untouched. *)
Lemma pushLoop_fanout b todo : ∀ (i j : nat) arr w,
  drop i arr = todo → (j ≤ i)%nat →
  ∃ arr' j',
    webSocketServer.pushLoop env (length todo) i j b arr w
      = (arr', j', (fanout env b todo w).2) ∧
    length arr' = length arr ∧
    take j' arr' = take j arr ++ (fanout env b todo w).1.
Proof.
  induction todo as [|cn todo IH]; intros i j arr w Hdrop Hji; simpl.
  - exists arr, j. by rewrite app_nil_r.
  - assert (Hi : arr !! i = Some cn).
    { pose proof (lookup_drop arr i 0) as H. rewrite Hdrop in H.
      simpl in H. by rewrite Nat.add_0_r in H. }
    assert (Htl : drop (S i) arr = todo).
    { rewrite (drop_S _ _ _ Hi) in Hdrop. by inversion Hdrop. }
    rewrite Hi. unfold wsConn.WriteText, WriteMessage.
    set (w1 := emit (ELog Debug) w).
    destruct (net_write env w1 (conn cn)) eqn:Hok.
    + set (w2 := emit _ w1).
      set (arr2 := if decide (i ≠ j) then <[j:=cn]> arr else arr).
      assert (Hlen2 : length arr2 = length arr).
      { unfold arr2. case_decide; [apply length_insert | done]. }
      assert (Hd2 : drop (S i) arr2 = todo).
      { unfold arr2. case_decide; [|done].
        rewrite drop_insert_lt by lia. done. }
      assert (Ht2 : take (S j) arr2 = take j arr ++ [cn]).
      { unfold arr2. case_decide as Hne.
        - rewrite (take_S_r _ _ cn).
          + by rewrite take_insert_ge by lia.
          + apply list_lookup_insert_eq.
            apply lookup_lt_Some in Hi. lia.
        - assert (i = j) by lia. subst j. by apply take_S_r. }
      destruct (IH (S i) (S j) arr2 w2 Hd2 ltac:(lia)) as (arr' & j' & He & Hl & Ht).
      exists arr', j'. rewrite He.
      destruct (fanout env b todo w2) as [kept w3] eqn:Hf. simpl in *.
      split; [done|]. split; [congruence|].
      rewrite Ht, Ht2, <- app_assoc. done.
    + set (w2 := wsConn.Close cn _).
      destruct (IH (S i) j arr w2 Htl ltac:(lia)) as (arr' & j' & He & Hl & Ht).
      exists arr', j'. by rewrite He.
Qed.

Lemma fanout_sublist b cs : ∀ w, (fanout env b cs w).1 `sublist_of` cs.
Proof.
  induction cs as [|cn cs IH]; intros w; simpl; [done|].
  unfold wsConn.WriteText, WriteMessage.
  destruct (net_write env _ _).
  - specialize (IH (emit (EWrite (conn cn) (FText b) true) (emit (ELog Debug) w))).
    destruct (fanout env b cs _) as [kept w3]. simpl in *.
    by apply sublist_skip.
  - by apply sublist_cons.
Qed.

(** What the pass adds to the trace: one write attempt per subscriber
    occurrence, a delivery per survivor, a close per pruned one. *)
Lemma fanout_trace b cs : ∀ w,
  ∃ evs, trace (fanout env b cs w).2 = trace w ++ evs ∧
    ∀ k, count (is_write_to k) evs = occ k cs ∧
         count (is_delivery k b) evs = occ k (fanout env b cs w).1 ∧
         count (is_close_of k) evs + occ k (fanout env b cs w).1 = occ k cs.
Proof.
  induction cs as [|cn cs IH]; intros w; simpl.
  - exists []. by rewrite app_nil_r.
  - unfold wsConn.WriteText, WriteMessage.
    set (w1 := emit (ELog Debug) w).
    destruct (net_write env w1 (conn cn)) eqn:Hok.
    + destruct (IH (emit (EWrite (conn cn) (FText b) true) w1)) as (evs & Htr & Hc).
      destruct (fanout env b cs _) as [kept w3]. simpl in *.
      exists (ELog Debug :: EWrite (conn cn) (FText b) true :: evs).
      split. { rewrite Htr. by rewrite <- !app_assoc. }
      intros k. destruct (Hc k) as (H1 & H2 & H3).
      unfold occ in *. rewrite !count_cons. simpl.
      destruct (bool_decide (conn cn = k)); simpl;
        rewrite ?bool_decide_eq_true_2 by done; simpl; lia.
    + destruct (IH (wsConn.Close cn (emit (EWrite (conn cn) (FText b) false) w1)))
        as (evs & Htr & Hc).
      destruct (fanout env b cs _) as [kept w3]. simpl in *.
      exists (ELog Debug :: EWrite (conn cn) (FText b) false :: EClose (conn cn) :: evs).
      split. { rewrite Htr. by rewrite <- !app_assoc. }
      intros k. destruct (Hc k) as (H1 & H2 & H3).
      unfold occ in *. rewrite !count_cons. simpl.
      destruct (bool_decide (conn cn = k)); simpl; lia.
Qed.
End Broadcast.

Lemma occ_notin k cs : k ∉ conn <$> cs → occ k cs = 0.
Proof.
  induction cs as [|c cs IH]; [done|]. intros Hk.
  rewrite fmap_cons, not_elem_of_cons in Hk. destruct Hk as [Hne Hk].
  unfold occ in *. simpl. rewrite bool_decide_eq_false_2 by done. auto.
Qed.

Lemma occ_elem c cs : c ∈ cs → 1 ≤ occ (conn c) cs.
Proof.
  induction 1 as [c cs|c c' cs _ IH]; unfold occ in *; simpl.
  - rewrite bool_decide_eq_true_2 by done. simpl. lia.
  - destruct (bool_decide _); simpl; lia.
Qed.

Lemma occ_NoDup k cs : NoDup (conn <$> cs) → occ k cs ≤ 1.
Proof.
  induction cs as [|c cs IH]; intros Hnd; [unfold occ; simpl; lia|].
  rewrite fmap_cons in Hnd. apply NoDup_cons in Hnd as [Hnotin Hnd].
  specialize (IH Hnd). unfold occ in *. simpl.
  destruct (bool_decide (conn c = k)) eqn:Hk; [|done].
  apply bool_decide_eq_true in Hk. subst k.
  pose proof (occ_notin _ _ Hnotin) as H0. unfold occ in H0.
  simpl. lia.
Qed.

Lemma occ_witness k cs : 1 ≤ occ k cs → ∃ c, c ∈ cs ∧ conn c = k.
Proof.
  induction cs as [|c cs IH]; unfold occ in *; simpl; [lia|].
  destruct (bool_decide (conn c = k)) eqn:Hk.
  - apply bool_decide_eq_true in Hk. intros _. exists c. split; [left|done].
  - intros H. destruct (IH H) as (c' & Hin & Hc). exists c'. split; [by right|done].
Qed.

Lemma NoDup_conn_inj cs c c' :
  NoDup (conn <$> cs) → c ∈ cs → c' ∈ cs → conn c = conn c' → c = c'.
Proof.
  induction cs as [|x cs IH]; intros Hnd Hc Hc' Heq; [by apply elem_of_nil in Hc|].
  rewrite fmap_cons in Hnd. apply NoDup_cons in Hnd as [Hnotin Hnd].
  apply elem_of_cons in Hc as [->|Hc]; apply elem_of_cons in Hc' as [->|Hc'].
  - done.
  - exfalso. apply Hnotin. rewrite Heq. by apply list_elem_of_fmap_2.
  - exfalso. apply Hnotin. rewrite <- Heq. by apply list_elem_of_fmap_2.
  - by apply IH.
Qed.

(** C1. One publish on the forward server, for an event the filter lets
    through and a subscriber set of distinct connections: the trace grows by
    [evs], in which every subscriber has exactly one write attempt; a
    subscriber whose write succeeded received the serialized event exactly
    once, was not closed, and is still subscribed; one whose write failed
    received nothing, was closed, and is no longer subscribed; the new
    subscriber sequence is the old one with the failed ones taken out, in
    the same order. *)
Theorem publish_delivers_once_and_prunes (X : Extern) (env : Env)
    (s : webSocketServer.t) (e : coolq.Event) (w : World) :
  rejected X (webSocketServer.filter s) e = false →
  NoDup (conn <$> webSocketServer.eventConn s) →
  let s' := (webSocketServer.onBotPushEvent X env s e w).1 in
  let w' := (webSocketServer.onBotPushEvent X env s e w).2 in
  ∃ evs,
    trace w' = trace w ++ evs ∧
    webSocketServer.eventConn s' `sublist_of` webSocketServer.eventConn s ∧
    ∀ c, c ∈ webSocketServer.eventConn s →
      (delivered_once evs c (JSONBytes e) ∧ c ∈ webSocketServer.eventConn s') ∨
      (pruned evs c (JSONBytes e) ∧ c ∉ webSocketServer.eventConn s').
Proof.
  intros Hpass Hnd s' w'. subst s' w'.
  unfold webSocketServer.onBotPushEvent. rewrite Hpass.
  set (cs := webSocketServer.eventConn s) in *.
  destruct (pushLoop_fanout env (JSONBytes e) cs 0 0 cs w eq_refl (le_n 0))
    as (arr' & j' & He & _ & Ht).
  rewrite He. simpl. rewrite take_0 in Ht. simpl in Ht. rewrite Ht.
  pose proof (fanout_sublist env (JSONBytes e) cs w) as Hsub.
  destruct (fanout_trace env (JSONBytes e) cs w) as (evs & Htr & Hc).
  set (kept := (fanout env (JSONBytes e) cs w).1) in *.
  exists evs. split; [done|]. split; [done|].
  intros c Hin. destruct (Hc (conn c)) as (H1 & H2 & H3).
  pose proof (occ_elem _ _ Hin) as Hge.
  pose proof (occ_NoDup (conn c) _ Hnd) as Hle.
  assert (Hocc : occ (conn c) cs = 1) by lia.
  destruct (decide (occ (conn c) kept = 0)) as [Hz|Hnz].
  - right. split; [unfold pruned; lia|].
    intros Hk. apply occ_elem in Hk. lia.
  - left. split; [unfold delivered_once; lia|].
    destruct (occ_witness (conn c) kept ltac:(lia)) as (c' & Hc' & Heq).
    assert (c' ∈ cs) by (eapply elem_of_sublist; eauto).
    by rewrite (NoDup_conn_inj cs c c' Hnd Hin ltac:(done) (eq_sym Heq)).
Qed.

Lemma publish_delivers_once_and_prunes_witness :
  let s := Sample.server "" [Sample.sub 1; Sample.sub 2; Sample.sub 3] in
  let r := webSocketServer.onBotPushEvent Sample.extern Sample.env s
             Sample.ev Sample.world0 in
  rejected Sample.extern (webSocketServer.filter s) Sample.ev = false ∧
  NoDup (conn <$> webSocketServer.eventConn s) ∧
  ∃ evs,
    trace r.2 = trace Sample.world0 ++ evs ∧
    webSocketServer.eventConn r.1 `sublist_of` webSocketServer.eventConn s ∧
    ∀ c, c ∈ webSocketServer.eventConn s →
      (delivered_once evs c (JSONBytes Sample.ev) ∧ c ∈ webSocketServer.eventConn r.1) ∨
      (pruned evs c (JSONBytes Sample.ev) ∧ c ∉ webSocketServer.eventConn r.1).
Proof.
  intros s r.
  assert (Hpass : rejected Sample.extern (webSocketServer.filter s) Sample.ev = false)
    by reflexivity.
  assert (Hnd : NoDup (conn <$> webSocketServer.eventConn s))
    by (apply (bool_decide_unpack _); vm_compute; exact I).
  split; [exact Hpass|]. split; [exact Hnd|].
  exact (publish_delivers_once_and_prunes Sample.extern Sample.env s
           Sample.ev Sample.world0 Hpass Hnd).
Defined.

(** The sample broadcast: the broken middle subscriber is closed and
    compacted away, the two others receive the event and keep their order. *)
Example publish_sample :
  webSocketServer.onBotPushEvent Sample.extern Sample.env
    (Sample.server "" [Sample.sub 1; Sample.sub 2; Sample.sub 3])
    Sample.ev Sample.world0
  = (Sample.server "" [Sample.sub 1; Sample.sub 3],
     {| now := 0;
        trace := [ELog Debug; EWrite 1 (FText "{}") true;
                  ELog Debug; EWrite 2 (FText "{}") false; EClose 2;
                  ELog Debug; EWrite 3 (FText "{}") true] |}).
Proof. reflexivity. Qed.

(** ** Filtered events *)

(** C9. An event that the configured filter rejects: the forward server
    and the reverse client both return with their state unchanged, having
    done nothing but write one debug log line; no write, close, dial, sleep
    or task start is added to the trace. *)
Theorem filtered_event_has_no_effect (X : Extern) (env : Env)
    (s : webSocketServer.t) (c : websocketClient.t)
    (fuel : nat) (typ url : string) (cp : slot) (e : coolq.Event) (w : World) :
  rejected X (webSocketServer.filter s) e = true →
  rejected X (websocketClient.filter c) e = true →
  webSocketServer.onBotPushEvent X env s e w = (s, emit (ELog Debug) w) ∧
  websocketClient.onBotPushEvent X env fuel typ url cp c e w
    = Ok c (emit (ELog Debug) w) ∧
  count is_io (trace (emit (ELog Debug) w)) = count is_io (trace w).
Proof.
  intros Hs Hc.
  unfold webSocketServer.onBotPushEvent, websocketClient.onBotPushEvent.
  rewrite Hs, Hc. repeat split.
  rewrite trace_emit, count_app. simpl. unfold count. simpl. lia.
Qed.

Lemma filtered_event_has_no_effect_witness :
  let s := Sample.server "drop" [Sample.sub 1; Sample.sub 2] in
  let c := Sample.client "drop" 3000000000 (Some (Sample.sub 7)) in
  rejected Sample.extern (webSocketServer.filter s) Sample.ev = true ∧
  rejected Sample.extern (websocketClient.filter c) Sample.ev = true ∧
  webSocketServer.onBotPushEvent Sample.extern Sample.env s Sample.ev Sample.world0
    = (s, emit (ELog Debug) Sample.world0) ∧
  websocketClient.onBotPushEvent Sample.extern Sample.env 5 "Universal"
      "ws://h/ws" SlotUniversal c Sample.ev Sample.world0
    = Ok c (emit (ELog Debug) Sample.world0) ∧
  count is_io (trace (emit (ELog Debug) Sample.world0))
    = count is_io (trace Sample.world0).
Proof.
  intros s c.
  split; [reflexivity|]. split; [reflexivity|].
  exact (filtered_event_has_no_effect Sample.extern Sample.env s c 5
           "Universal" "ws://h/ws" SlotUniversal Sample.ev Sample.world0
           eq_refl eq_refl).
Defined.

(** ** Command dispatch *)



Lemma substring_whole (s : string) : substring 0 (String.length s) s = s.
Proof. induction s as [|ch s IH]; simpl; [done|]. by rewrite IH. Qed.









(** ** Accepting connections on the forward server *)

Section Accept.
Context (X : Extern) (env : Env).
Implicit Types (s : webSocketServer.t) (r : Request) (w : World).

Lemma app_singleton_ne {A} (l : list A) (x : A) : l ++ [x] ≠ l.
Proof.
  intros H. apply (f_equal length) in H. rewrite length_app in H.
  simpl in H. lia.
Qed.

(** The outcome of [event], case by case. *)
Lemma event_cases s r w :
  let status := checkAuth X r (webSocketServer.token s) in
  let w1 := emit (EUpgrade (net_upgrade env w r)) w in
  webSocketServer.event X env s r w =
    if decide (status ≠ StatusOK)
    then (s, emit (EWriteHeader status) (emit (ELog Warn) w))
    else match net_upgrade env w r with
         | None => (s, emit (ELog Warn) w1)
         | Some k =>
             if net_write env w1 k
             then (webSocketServer.set_eventConn
                     (webSocketServer.eventConn s
                        ++ [{| conn := k; apiCaller := NewCaller |}]) s,
                   emit (ELog Info)
                     (emit (EWrite k (FText (webSocketServer.handshake s)) true) w1))
             else (s, sockClose k (emit (ELog Warn)
                     (emit (EWrite k (FText (webSocketServer.handshake s)) false) w1)))
         end.
Proof.
  intros status w1. unfold webSocketServer.event. fold status.
  case_decide; [done|]. subst w1.
  destruct (net_upgrade env w r) as [k|]; [|done].
  unfold WriteMessage. by destruct (net_write env _ k).
Qed.

Lemma any_cases s r w :
  let status := checkAuth X r (webSocketServer.token s) in
  let w1 := emit (EUpgrade (net_upgrade env w r)) w in
  webSocketServer.any X env s r w =
    if decide (status ≠ StatusOK)
    then (s, emit (EWriteHeader status) (emit (ELog Warn) w))
    else match net_upgrade env w r with
         | None => (s, emit (ELog Warn) w1)
         | Some k =>
             let cn := {| conn := k;
                          apiCaller := webSocketServer.limited s NewCaller |} in
             if net_write env w1 k
             then (webSocketServer.set_eventConn
                     (webSocketServer.eventConn s ++ [cn]) s,
                   webSocketServer.listenAPI env cn
                     (emit (ELog Info)
                        (emit (EWrite k (FText (webSocketServer.handshake s)) true) w1)))
             else (s, sockClose k (emit (ELog Warn)
                     (emit (EWrite k (FText (webSocketServer.handshake s)) false) w1)))
         end.
Proof.
  intros status w1. unfold webSocketServer.any. fold status.
  case_decide; [done|]. subst w1.
  destruct (net_upgrade env w r) as [k|]; [|done].
  unfold WriteMessage. by destruct (net_write env _ k).
Qed.
End Accept.

(** C4. On the event and the combined endpoint a connection enters the
    subscriber set exactly when the token check answers 200, the upgrade
    yields a socket and the handshake write on it succeeds; it is then
    appended at the end.  When the token check fails the handler only logs
    and writes the status: no upgrade is attempted and the server is
    unchanged.  When the handshake write fails the socket is closed and the
    server is unchanged. *)
Theorem registered_iff_auth_upgrade_handshake (X : Extern) (env : Env)
    (s : webSocketServer.t) (r : Request) (w : World) :
  let status := checkAuth X r (webSocketServer.token s) in
  let se := (webSocketServer.event X env s r w).1 in
  let sa := (webSocketServer.any X env s r w).1 in
  (webSocketServer.eventConn se ≠ webSocketServer.eventConn s
     ↔ ∃ k, accepted X env s r w k) ∧
  (webSocketServer.eventConn sa ≠ webSocketServer.eventConn s
     ↔ ∃ k, accepted X env s r w k) ∧
  (∀ k, accepted X env s r w k →
     webSocketServer.eventConn se
       = webSocketServer.eventConn s ++ [{| conn := k; apiCaller := NewCaller |}] ∧
     webSocketServer.eventConn sa
       = webSocketServer.eventConn s
           ++ [{| conn := k; apiCaller := webSocketServer.limited s NewCaller |}]) ∧
  ((¬ ∃ k, accepted X env s r w k) → se = s ∧ sa = s) ∧
  (status ≠ StatusOK →
     webSocketServer.event X env s r w
       = (s, emit (EWriteHeader status) (emit (ELog Warn) w)) ∧
     webSocketServer.any X env s r w
       = (s, emit (EWriteHeader status) (emit (ELog Warn) w))) ∧
  (∀ k, status = StatusOK → net_upgrade env w r = Some k →
     net_write env (emit (EUpgrade (Some k)) w) k = false →
     let w' := sockClose k (emit (ELog Warn)
                 (emit (EWrite k (FText (webSocketServer.handshake s)) false)
                    (emit (EUpgrade (Some k)) w))) in
     webSocketServer.event X env s r w = (s, w') ∧
     webSocketServer.any X env s r w = (s, w')).
Proof.
  intros status se sa. subst se sa.
  rewrite event_cases, any_cases. fold status. unfold accepted. fold status.
  destruct (decide (status ≠ StatusOK)) as [Hne|Heq%dec_stable]; simpl.
  { split_and!; try done.
    - split; [done|]. intros (k & ? & _). done.
    - split; [done|]. intros (k & ? & _). done.
    - intros k (? & _). done. }
  destruct (net_upgrade env w r) as [k|] eqn:Hup; simpl.
  2:{ split_and!; try done.
      - split; [done|]. intros (k & _ & ? & _). done.
      - split; [done|]. intros (k & _ & ? & _). done.
      - intros k (_ & ? & _). done. }
  destruct (net_write env (emit (EUpgrade (Some k)) w) k) eqn:Hwr; simpl.
  - split_and!.
    + split; [by exists k | intros _; apply app_singleton_ne].
    + split; [by exists k | intros _; apply app_singleton_ne].
    + intros k' (_ & [= <-] & _). done.
    + intros Hno. exfalso. apply Hno. by exists k.
    + done.
    + intros k' _ [= <-] Hf. congruence.
  - split_and!.
    + split; [done|]. intros (k' & _ & [= <-] & ?). congruence.
    + split; [done|]. intros (k' & _ & [= <-] & ?). congruence.
    + intros k' (_ & [= <-] & ?). congruence.
    + done.
    + done.
    + intros k' _ [= <-] _. done.
Qed.

Lemma registered_iff_auth_upgrade_handshake_witness :
  let s := Sample.server "" [Sample.sub 1] in
  accepted (SampleCmd.extern JNull) SampleAccept.env s SampleAccept.request
    Sample.world0 5 ∧
  webSocketServer.eventConn
    (webSocketServer.event (SampleCmd.extern JNull) SampleAccept.env s
       SampleAccept.request Sample.world0).1
  = [Sample.sub 1; Sample.sub 5].
Proof.
  intros s.
  assert (Hacc : accepted (SampleCmd.extern JNull) SampleAccept.env s
                   SampleAccept.request Sample.world0 5)
    by (repeat split; reflexivity).
  split; [exact Hacc|].
  destruct (registered_iff_auth_upgrade_handshake (SampleCmd.extern JNull)
              SampleAccept.env s SampleAccept.request Sample.world0)
    as (_ & _ & Hreg & _).
  exact (proj1 (Hreg 5 Hacc)).
Defined.

(** ** The reader loops *)

Section Readers.
Context (c : wsConn).

Lemma server_readLoop_effects frames : ∀ w,
  ∃ evs, trace (webSocketServer.readLoop c frames w) = trace w ++ evs ∧
         Forall (reader_effect c frames) evs.
Proof.
  induction frames as [|[ty data|ty] frames IH]; intros w; simpl.
  - exists []. by rewrite app_nil_r.
  - case_decide as Hty.
    + destruct (IH (emit (EGo (GoHandleRequest c data)) w)) as (evs & Htr & Hall).
      exists (EGo (GoHandleRequest c data) :: evs). split.
      { rewrite Htr. simpl. by rewrite <- app_assoc. }
      constructor.
      * simpl. split; [done|]. subst ty. left.
      * eapply Forall_impl; [exact Hall|].
        intros [| | | | |[]| | | | |]; simpl; try done.
        intros [-> Hin]. split; [done|]. by right.
    + destruct (IH w) as (evs & Htr & Hall). exists evs. split; [done|].
      eapply Forall_impl; [exact Hall|].
      intros [| | | | |[]| | | | |]; simpl; try done.
      intros [-> Hin]. split; [done|]. by right.
  - exists []. by rewrite app_nil_r.
Qed.

Lemma client_readLoop_effects frames : ∀ w,
  ∃ evs, trace (websocketClient.readLoop c frames w) = trace w ++ evs ∧
         Forall (reader_effect c frames) evs.
Proof.
  induction frames as [|[ty data|ty] frames IH]; intros w; simpl.
  - exists [ELog Warn]. split; [done|]. by repeat constructor.
  - case_decide as Hty.
    + destruct (IH (emit (EGo (GoHandleRequest c data)) w)) as (evs & Htr & Hall).
      exists (EGo (GoHandleRequest c data) :: evs). split.
      { rewrite Htr. simpl. by rewrite <- app_assoc. }
      constructor.
      * simpl. split; [done|]. subst ty. left.
      * eapply Forall_impl; [exact Hall|].
        intros [| | | | |[]| | | | |]; simpl; try done.
        intros [-> Hin]. split; [done|]. by right.
    + destruct (IH w) as (evs & Htr & Hall). exists evs. split; [done|].
      eapply Forall_impl; [exact Hall|].
      intros [| | | | |[]| | | | |]; simpl; try done.
      intros [-> Hin]. split; [done|]. by right.
  - exists [ELog Warn]. split; [done|]. by repeat constructor.
Qed.
End Readers.

(** C10. A frame whose type is not text changes nothing: the reader loop
    of the forward server and that of the reverse client go on with the
    next frame in the same world, so nothing is dispatched, written or
    closed for it.  Over a whole run of the loop, the only effects are log
    lines and one handler task per text frame received. *)
Theorem non_text_frame_is_skipped (c : wsConn) (ty : Z) (data : string)
    (rest : list Incoming) (w : World) :
  ty ≠ TextMessage →
  webSocketServer.readLoop c (InFrame ty data :: rest) w
    = webSocketServer.readLoop c rest w ∧
  websocketClient.readLoop c (InFrame ty data :: rest) w
    = websocketClient.readLoop c rest w ∧
  (∃ evs, trace (webSocketServer.readLoop c (InFrame ty data :: rest) w)
            = trace w ++ evs ∧ Forall (reader_effect c rest) evs) ∧
  (∃ evs, trace (websocketClient.readLoop c (InFrame ty data :: rest) w)
            = trace w ++ evs ∧ Forall (reader_effect c rest) evs).
Proof.
  intros Hty. simpl. rewrite !decide_False by done.
  split; [done|]. split; [done|]. split.
  - apply server_readLoop_effects.
  - apply client_readLoop_effects.
Qed.

Lemma non_text_frame_is_skipped_witness :
  let c := Sample.sub 4 in
  let rest := [InFrame TextMessage "cmd"] in
  BinaryMessage ≠ TextMessage ∧
  webSocketServer.readLoop c (InFrame BinaryMessage "blob" :: rest) Sample.world0
    = webSocketServer.readLoop c rest Sample.world0 ∧
  websocketClient.readLoop c (InFrame BinaryMessage "blob" :: rest) Sample.world0
    = websocketClient.readLoop c rest Sample.world0.
Proof.
  intros c rest.
  assert (Hne : BinaryMessage ≠ TextMessage) by (intros H; discriminate H).
  split; [exact Hne|].
  destruct (non_text_frame_is_skipped c BinaryMessage "blob" rest
              Sample.world0 Hne) as (Hs & Hc & _).
  split; [exact Hs | exact Hc].
Defined.

(** The sample reader run: only the text frame starts a handler. *)
Example reader_sample :
  trace (webSocketServer.readLoop (Sample.sub 4)
           [InFrame BinaryMessage "blob"; InFrame TextMessage "cmd"]
           Sample.world0)
  = [EGo (GoHandleRequest (Sample.sub 4) "cmd")].
Proof. reflexivity. Qed.

(** ** The reverse client: dialing *)

Section Dial.
Context (X : Extern) (env : Env).
Implicit Types (c : websocketClient.t) (w : World).

Lemma dial_header_role c typ :
  websocketClient.dial_header c typ !! "X-Client-Role" = Some [typ].
Proof.
  unfold websocketClient.dial_header. case_decide.
  - rewrite lookup_insert_ne by done. by rewrite lookup_insert_eq.
  - by rewrite lookup_insert_eq.
Qed.

Lemma connect_unfold fuel typ url conptr c w :
  websocketClient.connect env (S fuel) typ url conptr c w =
    match attempt env c typ url w with
    | None =>
        if decide (websocketClient.reconnectInterval c ≠ 0%Z)
        then websocketClient.connect env fuel typ url conptr c
               (failed_attempt c typ url w)
        else Ok c (emit (ELog Warn)
               (emit (EDial url (websocketClient.dial_header c typ) None)
                  (emit (ELog Info) w)))
    | Some sock =>
        websocketClient.connect env 1 typ url conptr c w
    end.
Proof.
  unfold attempt. simpl.
  destruct (net_dial env (emit (ELog Info) w) url _); done.
Qed.

(** Everything [connect] does belongs to the role it was called for. *)
Lemma connect_effects fuel typ url conptr : ∀ c w,
  ∃ evs,
    trace (world_of (websocketClient.connect env fuel typ url conptr c w))
      = trace w ++ evs ∧
    Forall (role_effect typ url) evs.
Proof.
  induction fuel as [|fuel IH]; intros c w.
  { exists []. simpl. by rewrite app_nil_r. }
  simpl.
  destruct (net_dial env (emit (ELog Info) w) url _) as [sock|] eqn:Hd.
  - unfold WriteMessage.
    set (hdr := websocketClient.dial_header c typ).
    set (hs := FText _).
    set (wr := EWrite sock hs _).
    set (cn := {| conn := sock |}).
    destruct (decide (typ = "Event" ∨ typ = "Universal")) as [Hty|Hty];
      [destruct (net_write env _ sock) eqn:Hw|];
      destruct (decide (typ ≠ "Event")); simpl;
      eexists; (split; [rewrite <- ?app_assoc; simpl; reflexivity|]);
      repeat constructor; simpl; auto; apply dial_header_role.
  - case_decide.
    + destruct (IH c (Sleep (websocketClient.reconnectInterval c)
                       (emit (ELog Warn) (emit (EDial url
                          (websocketClient.dial_header c typ) None)
                          (emit (ELog Info) w))))) as (evs & Htr & Hall).
      eexists. split.
      { rewrite Htr. simpl. rewrite <- !app_assoc. simpl. reflexivity. }
      repeat constructor; simpl; auto using dial_header_role.
    + simpl. eexists. split; [rewrite <- !app_assoc; simpl; reflexivity|].
      repeat constructor; simpl; auto using dial_header_role.
Qed.

(** [connect] writes at most the slot it was given. *)
Lemma connect_slots fuel typ url conptr : ∀ c w c' w',
  websocketClient.connect env fuel typ url conptr c w = Ok c' w' →
  websocketClient.reconnectInterval c' = websocketClient.reconnectInterval c ∧
  ∀ p, conptr ≠ Some p → websocketClient.load p c' = websocketClient.load p c.
Proof.
  induction fuel as [|fuel IH]; intros c w c' w'; [done|].
  simpl. destruct (net_dial env _ url _) as [sock|].
  - intros [= <- _]. destruct conptr as [[]|]; simpl; split; try done;
      intros []; simpl; congruence.
  - case_decide; [apply IH|]. by intros [= <- _].
Qed.

Lemma after_failures_now n c typ url : ∀ w,
  now (after_failures n c typ url w)
  = (now w + Z.of_nat n * Z.max 0 (websocketClient.reconnectInterval c))%Z.
Proof.
  induction n as [|n IH]; intros w; [simpl; lia|].
  cbn [after_failures]. rewrite IH. simpl. lia.
Qed.

Lemma after_failures_trace n c typ url : ∀ w,
  trace (after_failures n c typ url w)
  = trace w ++
    mjoin (replicate n
      [ELog Info; EDial url (websocketClient.dial_header c typ) None;
       ELog Warn; ESleep (websocketClient.reconnectInterval c)]).
Proof.
  induction n as [|n IH]; intros w; simpl; [by rewrite app_nil_r|].
  rewrite IH. simpl. by rewrite <- !app_assoc.
Qed.

(** With retries enabled, [connect] walks through the failed attempts
    and ends in the attempt that succeeds, given fuel for all of them. *)
Lemma connect_retries n typ url conptr c : ∀ w fuel,
  websocketClient.reconnectInterval c ≠ 0%Z →
  (∀ i, i < n → attempt env c typ url (after_failures i c typ url w) = None) →
  is_Some (attempt env c typ url (after_failures n c typ url w)) →
  n < fuel →
  websocketClient.connect env fuel typ url conptr c w
  = websocketClient.connect env 1 typ url conptr c (after_failures n c typ url w).
Proof.
  induction n as [|n IH]; intros w fuel Hen Hfail [k Hok] Hfuel;
    (destruct fuel as [|fuel]; [lia|]); rewrite connect_unfold.
  - cbn [after_failures] in Hok. by rewrite Hok.
  - pose proof (Hfail 0 ltac:(lia)) as H0. cbn [after_failures] in H0.
    rewrite H0, decide_True by done.
    cbn [after_failures]. apply IH; [done| |by exists k|lia].
    intros i Hi. apply (Hfail (S i)). lia.
Qed.
End Dial.

Lemma connect_success (env : Env) (typ url : string) (conptr : option slot)
    (c : websocketClient.t) (w : World) (k : nat) :
  attempt env c typ url w = Some k →
  ∃ c' w' evs,
    websocketClient.connect env 1 typ url conptr c w = Ok c' w' ∧
    trace w' = trace w ++
      [ELog Info; EDial url (websocketClient.dial_header c typ) (Some k)] ++ evs ∧
    count is_dial evs = 0 ∧
    ∀ p, conptr = Some p →
      ∃ cn, websocketClient.load p c' = Some cn ∧ conn cn = k.
Proof.
  unfold attempt. intros Hk. simpl. rewrite Hk. unfold WriteMessage.
  set (hdr := websocketClient.dial_header c typ).
  set (hs := FText _).
  destruct (decide (typ = "Event" ∨ typ = "Universal")) as [Hty|Hty];
    [destruct (net_write env _ k) eqn:Hw|];
    destruct (decide (typ ≠ "Event")); simpl;
    eexists _, _, _;
    (split; [reflexivity|]);
    (split; [simpl; rewrite <- ?app_assoc; simpl; reflexivity|]);
    (split; [reflexivity|]);
    intros p ->;
    exists {| conn := k;
              apiCaller := match websocketClient.limiter c with
                           | Some h => Use h NewCaller
                           | None => NewCaller
                           end |};
    (split; [by destruct p|done]).
Qed.

Lemma client_handshake_format (u t : Z) :
  Sprintf websocketClient.handshake_format [u; t] = client_handshake_json u t.
Proof. reflexivity. Qed.

Lemma connect_success_shape (env : Env) (typ url : string)
    (conptr : option slot) (c : websocketClient.t) (w : World) (k : nat) :
  attempt env c typ url w = Some k →
  ∃ evs,
    websocketClient.connect env 1 typ url conptr c w
      = Ok (match conptr with
            | Some p => websocketClient.store p (wrapped c k) c
            | None => c
            end)
           {| now := now w;
              trace := trace w ++
                [ELog Info; EDial url (websocketClient.dial_header c typ) (Some k)]
                ++ evs |} ∧
    count is_write evs
      = (if decide (typ = "Event" ∨ typ = "Universal") then 1 else 0) ∧
    count is_go evs = (if decide (typ = "Event") then 0 else 1) ∧
    (typ ≠ "Event" → EGo (GoListenAPI typ url (wrapped c k)) ∈ evs) ∧
    none_of is_close evs ∧ none_of is_sleep evs ∧ none_of is_dial evs ∧
    Forall (writes_only k
              (FText (client_handshake_json (Uin (websocketClient.bot c)) (Unix w))))
           evs.
Proof.
  unfold attempt. intros Hk. simpl. rewrite Hk. unfold WriteMessage.
  rewrite client_handshake_format.
  assert (Hwr : {| conn := k;
                   apiCaller := match websocketClient.limiter c with
                                | Some h => Use h NewCaller
                                | None => NewCaller
                                end |} = wrapped c k).
  { unfold wrapped, Use, NewCaller. by destruct (websocketClient.limiter c). }
  rewrite Hwr. clear Hwr.
  set (hdr := websocketClient.dial_header c typ).
  destruct (decide (typ = "Event" ∨ typ = "Universal")) as [Hty|Hty];
    [destruct (net_write env _ k) eqn:Hw|];
    destruct (decide (typ ≠ "Event")) as [Hne|Heq%dec_stable];
    try (exfalso; apply Hty; by left);
    rewrite ?(decide_False (P := typ = "Event")) by done;
    rewrite ?(decide_True (P := typ = "Event")) by done;
    eexists;
    (split; [unfold emit; simpl; rewrite <- ?app_assoc; simpl; reflexivity|]);
    (split; [reflexivity|]); (split; [reflexivity|]);
    (split; [intros ?; try done; by repeat constructor|]);
    split_and!; by repeat constructor.
Qed.

(** The first thing [connect] does is dial. *)
Lemma connect_first_dial (env : Env) (fuel : nat) (typ url : string)
    (conptr : option slot) (c : websocketClient.t) (w : World) :
  ∃ rest,
    trace (world_of (websocketClient.connect env (S fuel) typ url conptr c w))
      = trace w ++
        [ELog Info;
         EDial url (websocketClient.dial_header c typ) (attempt env c typ url w)]
        ++ rest.
Proof.
  rewrite connect_unfold. destruct (attempt env c typ url w) as [k|] eqn:Ha.
  - destruct (connect_success_shape env typ url conptr c w k Ha) as (evs & -> & _).
    by exists evs.
  - case_decide.
    + destruct (connect_effects env fuel typ url conptr c
                  (failed_attempt c typ url w)) as (evs & Htr & _).
      rewrite Htr. unfold failed_attempt. simpl. eexists.
      rewrite <- !app_assoc. simpl. reflexivity.
    + simpl. eexists. rewrite <- !app_assoc. simpl. reflexivity.
Qed.

(** [connect] gets to the first attempt that succeeds: at once when it is
    the first attempt, through the retries otherwise. *)
Lemma connect_reaches (env : Env) (n : nat) (typ url : string)
    (conptr : option slot) (c : websocketClient.t) (w : World) (fuel k : nat) :
  (0 < n → websocketClient.reconnectInterval c ≠ 0%Z) →
  (∀ i, i < n → attempt env c typ url (after_failures i c typ url w) = None) →
  attempt env c typ url (after_failures n c typ url w) = Some k →
  n < fuel →
  websocketClient.connect env fuel typ url conptr c w
  = websocketClient.connect env 1 typ url conptr c (after_failures n c typ url w).
Proof.
  intros Hen Hfail Hok Hfuel. destruct n as [|n].
  - destruct fuel as [|fuel]; [lia|]. rewrite connect_unfold.
    cbn [after_failures] in *. by rewrite Hok.
  - apply connect_retries; [apply Hen; lia|done|by exists k|done].
Qed.

(** C7. A dial that fails while the [reconnectInterval] of the client is
    zero ends [connect] at once: one dial, no sleep, no further attempt, the
    client unchanged.  While it is positive, [connect] sleeps that long
    after every failed dial and dials again: if the first [n] attempts fail
    and the next one yields socket [k], then the [n] failed attempts are
    each followed by a sleep of the interval, the clock has advanced by [n]
    intervals when the successful dial is made, and with fuel for more than
    [n] attempts [connect] returns with the role bound to [k].  The clock of
    the model advances only in sleeps.  [runWSClient] leaves the interval
    of the client at zero when the configured number of milliseconds is
    zero, and sets it to that many milliseconds when the number is positive
    and its product with [time.Millisecond] is below 2^63 nanoseconds.
    Beyond that the product wraps, and a negative interval is retried
    without any delay. *)
Theorem dial_failure_retried_iff_interval (env : Env) (typ url : string)
    (conptr : option slot) (c : websocketClient.t) (w : World) :
  let d := websocketClient.reconnectInterval c in
  let header := websocketClient.dial_header c typ in
  (d = 0%Z → attempt env c typ url w = None →
     ∀ fuel, websocketClient.connect env (S fuel) typ url conptr c w
             = Ok c (emit (ELog Warn)
                       (emit (EDial url header None) (emit (ELog Info) w)))) ∧
  ((0 < d)%Z → ∀ n k,
     (∀ i, i < n → attempt env c typ url (after_failures i c typ url w) = None) →
     attempt env c typ url (after_failures n c typ url w) = Some k →
     now (after_failures n c typ url w) = (now w + Z.of_nat n * d)%Z ∧
     trace (after_failures n c typ url w)
       = trace w ++
         mjoin (replicate n [ELog Info; EDial url header None; ELog Warn; ESleep d]) ∧
     ∀ fuel, n < fuel →
       ∃ c' w' evs,
         websocketClient.connect env fuel typ url conptr c w = Ok c' w' ∧
         trace w' = trace (after_failures n c typ url w)
                      ++ [ELog Info; EDial url header (Some k)] ++ evs ∧
         count is_dial evs = 0 ∧
         ∀ p, conptr = Some p →
           ∃ cn, websocketClient.load p c' = Some cn ∧ conn cn = k) ∧
  ((d < 0)%Z → ∀ n k,
     (∀ i, i < n → attempt env c typ url (after_failures i c typ url w) = None) →
     attempt env c typ url (after_failures n c typ url w) = Some k →
     now (after_failures n c typ url w) = now w ∧
     ∀ fuel, n < fuel →
       ∃ c' w',
         websocketClient.connect env fuel typ url conptr c w = Ok c' w' ∧
         now w' = now w ∧
         count is_dial (trace w') = count is_dial (trace w) + S n) ∧
  (∀ b cf,
     let ms := config.WebsocketReverse.ReconnectInterval cf in
     let c0 := websocketClient.newClient b cf in
     (ms = 0%Z → websocketClient.reconnectInterval c0 = 0%Z) ∧
     ((0 < ms)%Z → (ms * Millisecond < 2 ^ 63)%Z →
        websocketClient.reconnectInterval c0 = (ms * Millisecond)%Z ∧
        (0 < websocketClient.reconnectInterval c0)%Z)).
Proof.
  intros d header. split; [|split; [|split]].
  - intros Hd Hfail fuel. rewrite connect_unfold, Hfail.
    fold d. by rewrite decide_False by (intros ?; done).
  - intros Hd n k Hfail Hok. split; [|split].
    + rewrite after_failures_now. fold d. lia.
    + apply after_failures_trace.
    + intros fuel Hfuel.
      rewrite (connect_retries env n typ url conptr c w fuel);
        [|fold d; lia|done|by exists k|done].
      by apply connect_success.
  - intros Hd n k Hfail Hok.
    assert (Hnow : now (after_failures n c typ url w) = now w).
    { rewrite after_failures_now. fold d. lia. }
    split; [done|]. intros fuel Hfuel.
    rewrite (connect_retries env n typ url conptr c w fuel);
      [|fold d; lia|done|by exists k|done].
    destruct (connect_success_shape env typ url conptr c _ k Hok)
      as (evs & -> & _ & _ & _ & _ & _ & Hnd & _).
    eexists _, _. split; [reflexivity|]. split; [done|].
    cbn [trace]. rewrite after_failures_trace, !count_app.
    rewrite (count_none _ _ Hnd).
    assert (Hrep : ∀ m, count is_dial (mjoin (replicate m
               [ELog Info; EDial url header None; ELog Warn; ESleep d])) = m).
    { induction m as [|m IH]; [done|].
      simpl. rewrite !count_cons, IH. done. }
    fold header d. rewrite Hrep. unfold count. simpl. lia.
  - intros b cf ms c0. subst c0.
    unfold websocketClient.newClient. cbn [websocketClient.reconnectInterval].
    fold ms. split.
    + intros ->. by rewrite decide_False by (intros ?; done).
    + intros Hms Hfit. rewrite decide_True by lia.
      assert (Hp : (2 ^ 63 = 9223372036854775808)%Z) by reflexivity.
      assert (Hq : (2 ^ 64 = 18446744073709551616)%Z) by reflexivity.
      unfold wrap64. rewrite Hp in Hfit. rewrite Hp, Hq.
      unfold Millisecond in *. rewrite Z.mod_small by lia. lia.
Qed.

Lemma dial_failure_retried_iff_interval_witness :
  let c := Sample.client "" (3 * Second) None in
  let url := "ws://peer/ws" in
  websocketClient.connect SampleDial.env_down 4 "API" url None
      (Sample.client "" 0 None) Sample.world0
    = Ok (Sample.client "" 0 None)
         (emit (ELog Warn)
            (emit (EDial url
                     (websocketClient.dial_header (Sample.client "" 0 None) "API")
                     None)
               (emit (ELog Info) Sample.world0))) ∧
  now (after_failures 2 c "Universal" url Sample.world0) = (6 * Second)%Z ∧
  (∃ c' w' evs,
    websocketClient.connect SampleDial.env 3 "Universal" url (Some SlotUniversal)
      c Sample.world0 = Ok c' w' ∧
    trace w' = trace (after_failures 2 c "Universal" url Sample.world0)
                 ++ [ELog Info;
                     EDial url (websocketClient.dial_header c "Universal") (Some 9)]
                 ++ evs ∧
    ∃ cn, websocketClient.load SlotUniversal c' = Some cn ∧ conn cn = 9) ∧
  websocketClient.reconnectInterval
    (websocketClient.newClient {| Uin := 10001 |}
       (SampleDial.reverse_conf url "" "" 3000)) = (3 * Second)%Z.
Proof.
  intros c url. split; [|split; [|split]].
  - exact (proj1 (dial_failure_retried_iff_interval SampleDial.env_down "API" url
                    None (Sample.client "" 0 None) Sample.world0)
             eq_refl eq_refl 3).
  - assert (Hpos : (0 < websocketClient.reconnectInterval c)%Z) by reflexivity.
    assert (Hfail : ∀ i, i < 2 →
              attempt SampleDial.env c "Universal" url
                (after_failures i c "Universal" url Sample.world0) = None).
    { intros [|[|i]] Hi; [reflexivity|reflexivity|lia]. }
    exact (proj1 (proj1 (proj2 (dial_failure_retried_iff_interval SampleDial.env
                                  "Universal" url (Some SlotUniversal) c
                                  Sample.world0))
                    Hpos 2 9 Hfail eq_refl)).
  - assert (Hpos : (0 < websocketClient.reconnectInterval c)%Z) by reflexivity.
    assert (Hfail : ∀ i, i < 2 →
              attempt SampleDial.env c "Universal" url
                (after_failures i c "Universal" url Sample.world0) = None).
    { intros [|[|i]] Hi; [reflexivity|reflexivity|lia]. }
    destruct (proj1 (proj2 (dial_failure_retried_iff_interval SampleDial.env
                              "Universal" url (Some SlotUniversal) c
                              Sample.world0))
                Hpos 2 9 Hfail eq_refl) as (_ & _ & Hconn).
    destruct (Hconn 3 ltac:(lia)) as (c' & w' & evs & Hc & Htr & _ & Hslot).
    exists c', w', evs. split; [exact Hc|]. split; [exact Htr|].
    exact (Hslot SlotUniversal eq_refl).
  - exact (proj1 (proj2 (proj2 (proj2 (proj2
             (dial_failure_retried_iff_interval SampleDial.env "API" url None c
                Sample.world0))) {| Uin := 10001 |}
             (SampleDial.reverse_conf url "" "" 3000))
             ltac:(reflexivity) ltac:(reflexivity))).
Defined.

(** A configured interval above zero does not always lead to a retry
    after that delay.  With 2^58 milliseconds configured the product with
    [time.Millisecond] is 2^64 times 15625, which is 0 in int64: the client
    is set up with interval 0 and its one failed dial is never retried.
    With 9223372036855 milliseconds the product wraps to a negative
    interval: three dials fail one after another while the clock stays at
    0. *)
Lemma configured_interval_wraps :
  let b := {| Uin := 10001 |} in
  let url := "ws://peer/ws" in
  let cf := SampleDial.reverse_conf url "" "" (2 ^ 58) in
  let c0 := websocketClient.newClient b cf in
  let cf' := SampleDial.reverse_conf url "" "" 9223372036855 in
  let c1 := websocketClient.newClient b cf' in
  (0 < config.WebsocketReverse.ReconnectInterval cf)%Z ∧
  websocketClient.reconnectInterval c0 = 0%Z ∧
  (∀ fuel,
     websocketClient.runWSClient SampleDial.env_down (S fuel) b (Some cf)
       Sample.world0
     = Ok (Some c0)
          {| now := 0;
             trace := [EFilterAdd ""; ELog Info;
                       EDial url (websocketClient.dial_header c0 "Universal") None;
                       ELog Warn;
                       EOnEventPush (ClientPush "Universal" url SlotUniversal)] |}) ∧
  (0 < config.WebsocketReverse.ReconnectInterval cf')%Z ∧
  websocketClient.reconnectInterval c1 = (-9223372036854551616)%Z ∧
  (let w' := world_of (websocketClient.runWSClient SampleDial.env_down 3 b
                         (Some cf') Sample.world0) in
   count is_dial (trace w') = 3 ∧ count is_sleep (trace w') = 3 ∧ now w' = 0%Z).
Proof.
  intros b url cf c0 cf' c1.
  assert (H0 : websocketClient.reconnectInterval c0 = 0%Z)
    by (vm_compute; reflexivity).
  split; [reflexivity|]. split; [exact H0|]. split.
  - intros fuel. unfold websocketClient.runWSClient.
    change (config.WebsocketReverse.Disabled cf) with false.
    change (config.WebsocketReverse.Universal cf) with url.
    fold c0. cbn iota. rewrite decide_True by done.
    rewrite connect_unfold.
    change (attempt SampleDial.env_down c0 "Universal" url _) with (@None nat).
    rewrite H0. rewrite decide_False by (intros ?; done). reflexivity.
  - split; [reflexivity|]. split; [vm_compute; reflexivity|].
    vm_compute. done.
Qed.

(** C6. When the configuration names a Universal endpoint, everything
    [runWSClient] does belongs to the Universal role: every dial goes to
    the Universal URL and announces the role Universal, the only reader task
    and the only push handler are those of Universal, whatever the API and
    Event endpoints of the configuration are and however long the dial is
    retried; when it returns, the Event slot of the client is empty.  And
    the Universal role is set up: unless the configuration is disabled, the
    first thing after the filter is registered is a dial of the Universal
    URL; when [runWSClient] returns, it returns the client, and the last
    thing it has done is to register the push handler of Universal; and if
    the first [n] dials fail and the next one yields socket [k], it returns
    with the Universal slot holding the connection on [k], after the
    handshake has been written on [k] and the reader of that connection has
    been started. *)
Theorem universal_supersedes_api_and_event (env : Env) (fuel : nat)
    (b : coolq.CQBot) (cf : config.WebsocketReverse.t) (w : World) :
  config.WebsocketReverse.Universal cf ≠ "" →
  let url := config.WebsocketReverse.Universal cf in
  let c0 := websocketClient.newClient b cf in
  let w0 := emit (EFilterAdd (config.WebsocketReverse.Filter cf)) w in
  let header := websocketClient.dial_header c0 "Universal" in
  let push := EOnEventPush (ClientPush "Universal" url SlotUniversal) in
  let r := websocketClient.runWSClient env fuel b (Some cf) w in
  (∃ evs,
     trace (world_of r) = trace w ++ evs ∧
     Forall (role_effect "Universal" url) evs ∧
     ∀ c w', r = Ok (Some c) w' → websocketClient.event c = None) ∧
  (config.WebsocketReverse.Disabled cf = false →
   (0 < fuel →
      ∃ rest,
        trace (world_of r)
          = trace w ++ [EFilterAdd (config.WebsocketReverse.Filter cf); ELog Info;
                        EDial url header (attempt env c0 "Universal" url w0)]
              ++ rest) ∧
   (∀ c w', r = Ok c w' → is_Some c ∧ last (trace w') = Some push) ∧
   (∀ n k,
      (0 < n → websocketClient.reconnectInterval c0 ≠ 0%Z) →
      (∀ i, i < n →
         attempt env c0 "Universal" url (after_failures i c0 "Universal" url w0)
         = None) →
      attempt env c0 "Universal" url (after_failures n c0 "Universal" url w0)
        = Some k →
      n < fuel →
      let wn := after_failures n c0 "Universal" url w0 in
      ∃ evs,
        r = Ok (Some (websocketClient.store SlotUniversal (wrapped c0 k) c0))
               {| now := now wn;
                  trace := trace wn ++ [ELog Info; EDial url header (Some k)]
                             ++ evs ++ [push] |} ∧
        count is_write evs = 1 ∧
        Forall (writes_only k (FText (client_handshake_json (Uin b) (Unix wn))))
               evs ∧
        EGo (GoListenAPI "Universal" url (wrapped c0 k)) ∈ evs ∧
        count is_go evs = 1 ∧
        none_of is_dial evs ∧ none_of is_close evs)).
Proof.
  intros Hu url c0 w0 header push r. split.
  { subst r. unfold websocketClient.runWSClient.
    destruct (config.WebsocketReverse.Disabled cf).
    { exists []. simpl. rewrite app_nil_r. by split. }
    rewrite decide_True by done.
    fold c0 url.
    change (emit (EFilterAdd (websocketClient.filter c0)) w) with w0.
    destruct (connect_effects env fuel "Universal" url (Some SlotUniversal) c0 w0)
      as (evs & Htr & Hall).
    pose proof (connect_slots env fuel "Universal" url (Some SlotUniversal) c0 w0)
      as Hslots.
    destruct (websocketClient.connect env fuel _ _ _ c0 w0) as [c1 w2|w2|w2];
      simpl in *.
    - eexists. split; [rewrite Htr; rewrite <- !app_assoc; simpl; reflexivity|].
      split.
      + constructor; [done|]. apply Forall_app. split; [done|].
        by repeat constructor.
      + intros c w' [= <- _].
        destruct (Hslots c1 w2 eq_refl) as [_ Hl].
        exact (Hl SlotEvent ltac:(done)).
    - eexists. split; [rewrite Htr; rewrite <- !app_assoc; simpl; reflexivity|].
      split; [by constructor|done].
    - eexists. split; [rewrite Htr; rewrite <- !app_assoc; simpl; reflexivity|].
      split; [by constructor|done]. }
  intros Hen.
  assert (Hr : r = match websocketClient.connect env fuel "Universal" url
                           (Some SlotUniversal) c0 w0 with
                   | Ok c1 w2 => Ok (Some c1) (emit push w2)
                   | Panic w2 => Panic w2
                   | OutOfFuel w2 => OutOfFuel w2
                   end).
  { subst r. unfold websocketClient.runWSClient. rewrite Hen.
    by rewrite decide_True by done. }
  split; [|split].
  - intros Hfuel. destruct fuel as [|fuel]; [lia|].
    destruct (connect_first_dial env fuel "Universal" url (Some SlotUniversal)
                c0 w0) as (rest & Htr).
    rewrite Hr.
    destruct (websocketClient.connect env (S fuel) _ _ _ c0 w0) as [c1 w2|w2|w2];
      simpl in *; rewrite Htr; eexists; rewrite <- !app_assoc; simpl;
      reflexivity.
  - intros c w'. rewrite Hr.
    destruct (websocketClient.connect env fuel _ _ _ c0 w0) as [c1 w2|w2|w2];
      [|done|done].
    intros [= <- <-]. split; [by eexists|]. simpl. apply last_snoc.
  - intros n k Hint Hfail Hok Hfuel wn. subst wn.
    rewrite Hr, (connect_reaches env n "Universal" url (Some SlotUniversal) c0 w0
                   fuel k Hint Hfail Hok Hfuel).
    destruct (connect_success_shape env "Universal" url (Some SlotUniversal) c0
                (after_failures n c0 "Universal" url w0) k Hok)
      as (evs & -> & Hw & Hg & Hin & Hcl & _ & Hd & Hwr).
    exists evs. split.
    { unfold emit. simpl. by rewrite <- !app_assoc. }
    rewrite decide_True in Hw by (by right).
    rewrite decide_False in Hg by done.
    split_and!; try done. by apply Hin.
Qed.

Lemma universal_supersedes_api_and_event_witness :
  let b := {| Uin := 10001 |} in
  let cf := SampleDial.reverse_conf "ws://peer/ws" "ws://peer/api"
              "ws://peer/event" 3000 in
  let c0 := websocketClient.newClient b cf in
  let r := websocketClient.runWSClient SampleDial.env 5 b (Some cf)
             Sample.world0 in
  config.WebsocketReverse.Universal cf ≠ "" ∧
  (∃ evs,
     trace (world_of r) = trace Sample.world0 ++ evs ∧
     Forall (role_effect "Universal" "ws://peer/ws") evs) ∧
  ∃ w', r = Ok (Some (websocketClient.store SlotUniversal (wrapped c0 9) c0)) w' ∧
        now w' = (6 * Second)%Z ∧
        last (trace w')
          = Some (EOnEventPush (ClientPush "Universal" "ws://peer/ws" SlotUniversal)).
Proof.
  intros b cf c0 r.
  assert (Hu : config.WebsocketReverse.Universal cf ≠ "")
    by (intros H; discriminate H).
  split; [exact Hu|].
  destruct (universal_supersedes_api_and_event SampleDial.env 5 b cf
              Sample.world0 Hu) as [(evs & Htr & Hall & _) Hset].
  split; [by exists evs|].
  destruct (Hset eq_refl) as (_ & _ & Hok).
  assert (Hint : 0 < 2 → websocketClient.reconnectInterval c0 ≠ 0%Z).
  { intros _ H. vm_compute in H. discriminate H. }
  assert (Hfail : ∀ i, i < 2 →
            attempt SampleDial.env c0 "Universal" "ws://peer/ws"
              (after_failures i c0 "Universal" "ws://peer/ws"
                 (emit (EFilterAdd "") Sample.world0)) = None).
  { intros [|[|i]] Hi; [vm_compute; reflexivity|vm_compute; reflexivity|lia]. }
  destruct (Hok 2 9 Hint Hfail ltac:(vm_compute; reflexivity) ltac:(lia))
    as (evs' & Hr & _).
  eexists. split; [exact Hr|]. split; [vm_compute; reflexivity|].
  cbn [trace]. rewrite !app_assoc. apply last_snoc.
Defined.

(** The sample run: two failed dials three seconds apart, the third dial
    succeeds, and only the Universal role is set up. *)
Example universal_sample :
  let cf := SampleDial.reverse_conf "ws://peer/ws" "ws://peer/api"
              "ws://peer/event" 3000 in
  count is_dial
    (trace (world_of (websocketClient.runWSClient SampleDial.env 5
                        {| Uin := 10001 |} (Some cf) Sample.world0))) = 3 ∧
  now (world_of (websocketClient.runWSClient SampleDial.env 5
                   {| Uin := 10001 |} (Some cf) Sample.world0))
    = (6 * Second)%Z.
Proof. split; reflexivity. Qed.

(** C8. With reconnection enabled, after the read loop of a connection
    ends in a fault: for the Universal role [listenAPI] only sleeps and
    closes the connection, it starts no [connect]; for the API role it
    sleeps and starts [connect] for the same URL.  The read loop itself
    only starts handler tasks.  The other way a role is connected again is
    the push handler, which calls [connect] after a failed write. *)
Theorem read_fault_reconnects_api_not_universal (X : Extern) (env : Env)
    (c : websocketClient.t) (url : string) (cn : wsConn) (w : World) :
  websocketClient.reconnectInterval c ≠ 0%Z →
  let d := websocketClient.reconnectInterval c in
  let w1 := websocketClient.readLoop cn (net_incoming env (conn cn)) w in
  (∃ evs, trace w1 = trace w ++ evs ∧
          Forall (reader_effect cn (net_incoming env (conn cn))) evs) ∧
  websocketClient.listenAPI env c "Universal" url cn w
    = wsConn.Close cn (Sleep d w1) ∧
  websocketClient.listenAPI env c "API" url cn w
    = wsConn.Close cn (emit (EGo (GoConnect "API" url None)) (Sleep d w1)) ∧
  ∀ fuel typ cp e k,
    rejected X (websocketClient.filter c) e = false →
    websocketClient.load cp c = Some k →
    net_write env (emit (ELog Debug) w) (conn k) = false →
    websocketClient.onBotPushEvent X env fuel typ url cp c e w
      = websocketClient.connect env fuel typ url (Some cp) c
          (Sleep d (wsConn.Close k (emit (ELog Warn)
             (emit (EWrite (conn k) (FText (JSONBytes e)) false)
                (emit (ELog Debug) w))))).
Proof.
  intros Hen d w1. split; [apply client_readLoop_effects|].
  unfold websocketClient.listenAPI. fold w1 d.
  rewrite !(decide_True (P := d ≠ 0%Z)) by done.
  split; [reflexivity|]. split; [reflexivity|].
  intros fuel typ cp e k Hpass Hload Hwr.
  unfold websocketClient.onBotPushEvent, wsConn.WriteText, WriteMessage.
  rewrite Hpass, Hload, Hwr. fold d. by rewrite decide_True by done.
Qed.

Lemma read_fault_reconnects_api_not_universal_witness :
  let c := Sample.client "" (3 * Second) None in
  let cn := Sample.sub 9 in
  let w1 := websocketClient.readLoop cn (net_incoming Sample.env (conn cn))
              Sample.world0 in
  websocketClient.reconnectInterval c ≠ 0%Z ∧
  websocketClient.listenAPI Sample.env c "Universal" "ws://peer/ws" cn Sample.world0
    = wsConn.Close cn (Sleep (3 * Second) w1) ∧
  websocketClient.listenAPI Sample.env c "API" "ws://peer/ws" cn Sample.world0
    = wsConn.Close cn
        (emit (EGo (GoConnect "API" "ws://peer/ws" None)) (Sleep (3 * Second) w1)).
Proof.
  intros c cn w1.
  assert (Hen : websocketClient.reconnectInterval c ≠ 0%Z)
    by (intros H; discriminate H).
  split; [exact Hen|].
  destruct (read_fault_reconnects_api_not_universal Sample.extern Sample.env c
              "ws://peer/ws" cn Sample.world0 Hen) as (_ & Hu & Ha & _).
  split; [exact Hu | exact Ha].
Defined.

(** ** The handshake frame *)

Lemma server_handshake_format (u t : Z) :
  Sprintf webSocketServer.handshake_format [u; t] = server_handshake_json u t.
Proof. reflexivity. Qed.

(** The handlers keep the handshake string of the server. *)
Lemma handshake_kept (X : Extern) (env : Env) (s : webSocketServer.t)
    (r : Request) (e : coolq.Event) (w : World) :
  webSocketServer.handshake (webSocketServer.event X env s r w).1
    = webSocketServer.handshake s ∧
  webSocketServer.handshake (webSocketServer.any X env s r w).1
    = webSocketServer.handshake s ∧
  webSocketServer.handshake (webSocketServer.onBotPushEvent X env s e w).1
    = webSocketServer.handshake s.
Proof.
  rewrite event_cases, any_cases. unfold webSocketServer.onBotPushEvent.
  split_and!.
  - case_decide; [done|]. destruct (net_upgrade env w r) as [k|]; [|done].
    by destruct (net_write env _ k).
  - case_decide; [done|]. destruct (net_upgrade env w r) as [k|]; [|done].
    by destruct (net_write env _ k).
  - destruct (rejected X _ e); [done|].
    by destruct (webSocketServer.pushLoop _ _ _ _ _ _ _) as [[arr j] w'].
Qed.

(** C5.  The handshake of the forward server does not carry the connect
    timestamp of the connection: a server set up at second 100 greets a
    peer that connects on the event endpoint at second 200 with the server
    object whose time field is 100, not 200. *)
Lemma server_handshake_carries_setup_time :
  ∃ s,
    (webSocketServer.runWSServer {| Uin := 10001 |}
       (Some (Sample.server_conf "")) SampleAccept.started).1 = Some s ∧
    trace (webSocketServer.event (SampleCmd.extern JNull) SampleAccept.env s
             SampleAccept.request SampleAccept.connected).2
      = [EUpgrade (Some 5);
         EWrite 5 (FText (server_handshake_json 10001 100)) true;
         ELog Info] ∧
    Unix SampleAccept.connected = 200%Z ∧
    server_handshake_json 10001 100
      ≠ server_handshake_json 10001 (Unix SampleAccept.connected).
Proof.
  eexists. split; [reflexivity|]. split; [reflexivity|]. split; [reflexivity|].
  intros H. discriminate H.
Qed.

(** What the handshake frames are.  The forward server builds its
    handshake once, in [runWSServer]: it is the server object of the
    interface description with the bot's Uin and the time at which the
    server is set up, and that same string is the first frame written to
    every connection accepted on the event and the combined endpoint,
    whenever it connects.  The reverse client builds its handshake in
    [connect] after each successful dial for the roles Event and Universal:
    it is the client object, which is the server object without the
    [_post_method] member, with the bot's Uin and the time of that dial. *)
Theorem handshake_frames (X : Extern) (env : Env) :
  (∀ b cf w0, config.WebsocketServer.Disabled cf = false →
     ∃ s w', webSocketServer.runWSServer b (Some cf) w0 = (Some s, w') ∧
       webSocketServer.handshake s = server_handshake_json (Uin b) (Unix w0)) ∧
  (∀ s r w k, accepted X env s r w k →
     trace (webSocketServer.event X env s r w).2
       = trace w ++ [EUpgrade (Some k);
                     EWrite k (FText (webSocketServer.handshake s)) true;
                     ELog Info] ∧
     (∃ evs, trace (webSocketServer.any X env s r w).2
       = trace w ++ [EUpgrade (Some k);
                     EWrite k (FText (webSocketServer.handshake s)) true;
                     ELog Info] ++ evs) ∧
     webSocketServer.handshake (webSocketServer.event X env s r w).1
       = webSocketServer.handshake s ∧
     webSocketServer.handshake (webSocketServer.any X env s r w).1
       = webSocketServer.handshake s) ∧
  (∀ typ url conptr c w k,
     typ = "Event" ∨ typ = "Universal" →
     attempt env c typ url w = Some k →
     ∃ ok evs,
       trace (world_of (websocketClient.connect env 1 typ url conptr c w))
         = trace w ++
           [ELog Info;
            EDial url (websocketClient.dial_header c typ) (Some k);
            EWrite k (FText (client_handshake_json
                               (Uin (websocketClient.bot c)) (Unix w))) ok]
           ++ evs ∧
       count is_write evs = 0) ∧
  (∀ u t, server_handshake_json u t
          = "{" +:+ quoted "_post_method" +:+ ":2," +:+ lifecycle_fields u t ∧
          client_handshake_json u t = "{" +:+ lifecycle_fields u t).
Proof.
  split_and!.
  - intros b cf w0 Hen. unfold webSocketServer.runWSServer. rewrite Hen.
    eexists _, _. split; [reflexivity|]. simpl.
    by rewrite server_handshake_format.
  - intros s r w k (Hauth & Hup & Hwr).
    pose proof (handshake_kept X env s r {| JSONString := "" |} w) as (He & Ha & _).
    split_and!; [| |exact He|exact Ha].
    + rewrite event_cases, Hauth, Hup, Hwr. simpl.
      by rewrite <- !app_assoc.
    + rewrite any_cases, Hauth, Hup, Hwr.
      rewrite decide_False by (intros ?; done). cbv zeta.
      set (cn := {| conn := k |}).
      unfold webSocketServer.listenAPI, wsConn.Close, sockClose.
      cbn [snd].
      destruct (server_readLoop_effects cn (net_incoming env (conn cn))
                  (emit (ELog Info)
                     (emit (EWrite k (FText (webSocketServer.handshake s)) true)
                        (emit (EUpgrade (Some k)) w)))) as (evs & Htr & _).
      exists (evs ++ [EClose k]). rewrite trace_emit, Htr, !trace_emit.
      rewrite <- !app_assoc. reflexivity.
  - intros typ url conptr c w k Hty Hk. unfold attempt in Hk.
    simpl. rewrite Hk.
    destruct (decide (typ = "Event" ∨ typ = "Universal")) as [_|Hn]; [|done].
    unfold WriteMessage. rewrite client_handshake_format.
    destruct (net_write env _ k); destruct (decide (typ ≠ "Event")); simpl;
      eexists _, _;
      (split; [rewrite <- ?app_assoc; simpl; reflexivity|reflexivity]).
  - done.
Qed.

Lemma handshake_frames_witness :
  (∃ s w', webSocketServer.runWSServer {| Uin := 10001 |}
             (Some (Sample.server_conf "")) SampleAccept.started = (Some s, w') ∧
           webSocketServer.handshake s = server_handshake_json 10001 100) ∧
  (∃ ok evs,
     trace (world_of (websocketClient.connect SampleAccept.env 1 "Event"
                        "ws://peer/event" (Some SlotEvent)
                        (Sample.client "" 0 None) SampleAccept.connected))
       = trace SampleAccept.connected ++
         [ELog Info;
          EDial "ws://peer/event"
            (websocketClient.dial_header (Sample.client "" 0 None) "Event") (Some 9);
          EWrite 9 (FText (client_handshake_json 10001 200)) ok]
         ++ evs ∧
     count is_write evs = 0).
Proof.
  destruct (handshake_frames (SampleCmd.extern JNull) SampleAccept.env)
    as (Hs & _ & Hc & _).
  split.
  - exact (Hs {| Uin := 10001 |} (Sample.server_conf "") SampleAccept.started
              eq_refl).
  - exact (Hc "Event" "ws://peer/event" (Some SlotEvent)
              (Sample.client "" 0 None) SampleAccept.connected 9
              (or_introl eq_refl) eq_refl).
Defined.

(** ** Two writers on one connection *)

Section Serialize.
Import Mutex.
Context (wire : Frame -> list Byte.byte).

Lemma prog_of_remaining (c : caller) :
  prog_of wire c = remaining wire (frame_of c) Waiting.
Proof. by destruct c. Qed.

(** The next action of a writer and the phase it leads to. *)
Lemma remaining_next f ph ins rest :
  remaining wire f ph = ins :: rest →
  wf wire f ph →
  (ph = Waiting ∧ ins = ILock ∧ rest = remaining wire f (Writing 0)) ∨
  (∃ k b, ph = Writing k ∧ wire f !! k = Some b ∧ ins = IEmit b ∧
          rest = remaining wire f (Writing (S k))) ∨
  (ph = Writing (length (wire f)) ∧ ins = IUnlock ∧
   rest = remaining wire f Finished).
Proof.
  destruct ph as [|k|]; simpl; intros Heq Hwf; [| |done].
  - left. by inversion Heq.
  - right. destruct (drop k (wire f)) as [|b tl] eqn:Hd; simpl in Heq.
    + right. inversion Heq. subst.
      apply (f_equal length) in Hd. rewrite length_drop in Hd. simpl in Hd.
      assert (k = length (wire f)) as -> by lia. done.
    + left. inversion Heq. subst. exists k, b.
      assert (Hk : wire f !! k = Some b).
      { pose proof (lookup_drop (wire f) k 0) as H. rewrite Hd in H.
        simpl in H. by rewrite Nat.add_0_r in H. }
      split; [done|]. split; [done|]. split; [done|].
      rewrite (drop_S _ _ _ Hk) in Hd. by inversion Hd.
Qed.

Lemma remaining_nil f ph : remaining wire f ph = [] → ph = Finished.
Proof.
  destruct ph as [|k|]; simpl; [done| |done].
  intros H. by apply app_nil in H as [_ ?].
Qed.

Lemma emitted_S f k b :
  wire f !! k = Some b →
  emitted wire f (Writing (S k)) = emitted wire f (Writing k) ++ [b].
Proof. simpl. apply take_S_r. Qed.

Lemma emitted_full f :
  emitted wire f (Writing (length (wire f))) = emitted wire f Finished.
Proof. simpl. by rewrite firstn_all. Qed.

Lemma inv_init c1 c2 : inv wire (frame_of c1) (frame_of c2) (init wire c1 c2).
Proof.
  exists Waiting, Waiting. unfold init. simpl.
  rewrite !prog_of_remaining. split_and!; try done. by left.
Qed.

Lemma inv_step f1 f2 st st' :
  inv wire f1 f2 st → step st st' → inv wire f1 f2 st'.
Proof.
  intros (ph1 & ph2 & Hpcs & Hwf1 & Hwf2 & Hheld & Hout) Hstep.
  inversion Hstep as [i rest ? Hi Hfree|i b rest ? Hi|i rest ? Hi]; subst;
    rewrite Hpcs in Hi;
    (destruct i as [|[|i]]; simpl in Hi; [| |done]);
    injection Hi as Hi.
  - (* writer 1 locks *)
    destruct (remaining_next _ _ _ _ Hi Hwf1)
      as [(-> & _ & ->)|[(k & b' & _ & _ & [=] & _)|(_ & [=] & _)]].
    simpl in Hheld. rewrite Hheld in Hfree.
    destruct (writing ph2) eqn:Hw2; [done|].
    exists (Writing 0), ph2. rewrite Hpcs. simpl.
    rewrite Hw2. split_and!; try done; try lia.
    left. split; [done|]. destruct Hout as [[_ ->]|[_ ->]]; simpl.
    + by rewrite take_0.
    + by rewrite take_0, app_nil_r.
  - (* writer 2 locks *)
    destruct (remaining_next _ _ _ _ Hi Hwf2)
      as [(-> & _ & ->)|[(k & b' & _ & _ & [=] & _)|(_ & [=] & _)]].
    rewrite Hheld in Hfree.
    destruct (writing ph1) eqn:Hw1; [done|].
    exists ph1, (Writing 0). rewrite Hpcs. simpl. rewrite Hw1.
    split_and!; try done; try lia.
    right. split; [done|]. destruct Hout as [[_ ->]|[_ ->]]; simpl.
    + by rewrite take_0, app_nil_r.
    + by rewrite take_0.
  - (* writer 1 hands a byte to the socket *)
    destruct (remaining_next _ _ _ _ Hi Hwf1)
      as [(_ & [=] & _)|[(k & b' & -> & Hk & [= <-] & ->)|(_ & [=] & _)]].
    exists (Writing (S k)), ph2. rewrite Hpcs. simpl.
    destruct Hout as [[Hw2 Ho]|[? _]]; [|done].
    split_and!; try done; [apply lookup_lt_Some in Hk; lia|].
    left. split; [done|]. rewrite Ho.
    rewrite (take_S_r _ _ _ Hk). simpl. by rewrite app_assoc.
  - (* writer 2 hands a byte to the socket *)
    destruct (remaining_next _ _ _ _ Hi Hwf2)
      as [(_ & [=] & _)|[(k & b' & -> & Hk & [= <-] & ->)|(_ & [=] & _)]].
    exists ph1, (Writing (S k)). rewrite Hpcs. simpl.
    destruct Hout as [[? _]|[Hw1 Ho]]; [done|].
    split_and!; try done; [apply lookup_lt_Some in Hk; lia|].
    right. split; [done|]. rewrite Ho.
    rewrite (take_S_r _ _ _ Hk). simpl. by rewrite app_assoc.
  - (* writer 1 unlocks *)
    destruct (remaining_next _ _ _ _ Hi Hwf1)
      as [(_ & [=] & _)|[(k & b' & _ & _ & [=] & _)|(-> & _ & ->)]].
    exists Finished, ph2. rewrite Hpcs. simpl.
    destruct Hout as [[Hw2 Ho]|[? _]]; [|done].
    rewrite Hw2. split_and!; try done.
    left. split; [done|]. rewrite Ho. simpl. by rewrite firstn_all.
  - (* writer 2 unlocks *)
    destruct (remaining_next _ _ _ _ Hi Hwf2)
      as [(_ & [=] & _)|[(k & b' & _ & _ & [=] & _)|(-> & _ & ->)]].
    exists ph1, Finished. rewrite Hpcs. simpl.
    destruct Hout as [[? _]|[Hw1 Ho]]; [done|].
    rewrite Hw1. split_and!; try done.
    right. split; [done|]. rewrite Ho. simpl. by rewrite firstn_all.
Qed.

Lemma inv_reachable c1 c2 st :
  rtc step (init wire c1 c2) st → inv wire (frame_of c1) (frame_of c2) st.
Proof.
  intros Hrtc.
  eapply (rtc_ind_r (λ st, inv wire (frame_of c1) (frame_of c2) st));
    [apply inv_init| |exact Hrtc].
  intros y z _ Hstep IH. by eapply inv_step.
Qed.

Lemma inv_final_out f1 f2 st :
  inv wire f1 f2 st → final st →
  out st = wire f1 ++ wire f2 ∨ out st = wire f2 ++ wire f1.
Proof.
  intros (ph1 & ph2 & Hpcs & _ & _ & _ & Hout) Hfin.
  unfold final in Hfin. rewrite Hpcs in Hfin.
  apply Forall_cons in Hfin as [H1 Hfin].
  apply Forall_cons in Hfin as [H2 _].
  apply remaining_nil in H1 as ->. apply remaining_nil in H2 as ->.
  simpl in Hout. destruct Hout as [[_ ->]|[_ ->]]; auto.
Qed.

Lemma writer_inside_steps st i f k :
  pcs st !! i = Some (remaining wire f (Writing k)) → ∃ st', step st st'.
Proof.
  simpl. destruct (drop k (wire f)) as [|b tl]; simpl; intros Hi.
  - eexists. by eapply step_unlock.
  - eexists. by eapply step_emit.
Qed.

Lemma writer_waiting_steps st i f :
  pcs st !! i = Some (remaining wire f Waiting) → held st = None →
  ∃ st', step st st'.
Proof. simpl. intros Hi Hfree. eexists. by eapply step_lock. Qed.

Lemma inv_progress f1 f2 st :
  inv wire f1 f2 st → ¬ final st → ∃ st', step st st'.
Proof.
  intros (ph1 & ph2 & Hpcs & _ & _ & Hheld & _) Hnf.
  assert (H0 : pcs st !! 0 = Some (remaining wire f1 ph1)) by by rewrite Hpcs.
  assert (H1 : pcs st !! 1 = Some (remaining wire f2 ph2)) by by rewrite Hpcs.
  destruct ph1 as [|k1|]; [|by eapply writer_inside_steps|].
  - destruct ph2 as [|k2|]; [|by eapply writer_inside_steps|];
      by eapply (writer_waiting_steps st 0).
  - destruct ph2 as [|k2|]; [|by eapply writer_inside_steps|].
    + by eapply (writer_waiting_steps st 1).
    + exfalso. apply Hnf. unfold final. rewrite Hpcs. by repeat constructor.
Qed.

Lemma size_insert (ps : list (list instr)) : ∀ i ins rest,
  ps !! i = Some (ins :: rest) →
  S (length (concat (<[i := rest]> ps))) = length (concat ps).
Proof.
  induction ps as [|p ps IH]; intros [|i] ins rest Hi; simpl in *; try done.
  - injection Hi as ->. simpl. by rewrite !length_app.
  - rewrite !length_app. rewrite <- (IH i ins rest Hi). lia.
Qed.

Lemma step_size st st' : step st st' → S (size st') = size st.
Proof. inversion 1; subst; unfold size; simpl; by eapply size_insert. Qed.
End Serialize.

(** C2. Two tasks write to one connection, each either broadcasting
    through [WriteText] or writing the response of [handleRequest], under
    any interleaving of their atomic actions, on a socket that accepts the
    bytes it is given.  In every state they can reach: if both are done,
    the socket has received the bytes of the two frames one whole frame
    after the other, in one of the two orders; if not, some task can take a
    step, so neither write is lost or stuck; and every step uses up one of
    the finitely many actions, so both do finish. *)
Theorem concurrent_writes_serialize (wire : Frame -> list Byte.byte)
    (c1 c2 : Mutex.caller) (st : Mutex.state) :
  rtc Mutex.step (Mutex.init wire c1 c2) st →
  (Mutex.final st →
     Mutex.out st = wire (Mutex.frame_of c1) ++ wire (Mutex.frame_of c2) ∨
     Mutex.out st = wire (Mutex.frame_of c2) ++ wire (Mutex.frame_of c1)) ∧
  (¬ Mutex.final st → ∃ st', Mutex.step st st') ∧
  (∀ st', Mutex.step st st' → S (Mutex.size st') = Mutex.size st).
Proof.
  intros Hrtc. apply inv_reachable in Hrtc. split_and!.
  - exact (inv_final_out wire _ _ st Hrtc).
  - exact (inv_progress wire _ _ st Hrtc).
  - exact (step_size st).
Qed.

Lemma concurrent_writes_serialize_witness :
  let c1 := Mutex.Broadcast "ev" in
  let c2 := Mutex.Response SampleCmd.api_ok in
  let st := {| Mutex.held := None;
               Mutex.out := SampleAccept.wire (FEncoded SampleCmd.api_ok)
                              ++ SampleAccept.wire (FText "ev");
               Mutex.pcs := [[]; []] |} in
  rtc Mutex.step (Mutex.init SampleAccept.wire c1 c2) st ∧
  (Mutex.final st →
     Mutex.out st = SampleAccept.wire (Mutex.frame_of c1)
                      ++ SampleAccept.wire (Mutex.frame_of c2) ∨
     Mutex.out st = SampleAccept.wire (Mutex.frame_of c2)
                      ++ SampleAccept.wire (Mutex.frame_of c1)).
Proof.
  intros c1 c2 st.
  assert (Hrun : rtc Mutex.step (Mutex.init SampleAccept.wire c1 c2) st).
  { eapply rtc_l; [by eapply (Mutex.step_lock 1)|]. simpl.
    eapply rtc_l; [by eapply (Mutex.step_emit 1)|]. simpl.
    eapply rtc_l; [by eapply (Mutex.step_emit 1)|]. simpl.
    eapply rtc_l; [by eapply (Mutex.step_unlock 1)|]. simpl.
    eapply rtc_l; [by eapply (Mutex.step_lock 0)|]. simpl.
    eapply rtc_l; [by eapply (Mutex.step_emit 0)|]. simpl.
    eapply rtc_l; [by eapply (Mutex.step_emit 0)|]. simpl.
    eapply rtc_l; [by eapply (Mutex.step_unlock 0)|]. simpl.
    apply rtc_refl. }
  split; [exact Hrun|].
  exact (proj1 (concurrent_writes_serialize SampleAccept.wire c1 c2 st Hrun)).
Defined.

(** * Further properties of the gateway *)

Lemma none_of_handler_tasks f c frames :
  (∀ t, f (EGo t) = false) → none_of f (handler_tasks c frames).
Proof.
  intros Hf. unfold none_of, handler_tasks. apply Forall_fmap, Forall_true.
  intros data. apply Hf.
Qed.

Lemma set_eventConn_same (s : webSocketServer.t) :
  webSocketServer.set_eventConn (webSocketServer.eventConn s) s = s.
Proof. by destruct s. Qed.

(** ** The reader of the forward server *)

Lemma server_readLoop_trace c frames : ∀ w,
  webSocketServer.readLoop c frames w
  = {| now := now w; trace := trace w ++ handler_tasks c frames |}.
Proof.
  unfold handler_tasks.
  induction frames as [|[ty data|ty] frames IH]; intros w; simpl.
  - rewrite app_nil_r. by destruct w.
  - case_decide; rewrite IH; simpl; [|done].
    by rewrite <- app_assoc.
  - rewrite app_nil_r. by destruct w.
Qed.

Lemma client_readLoop_trace c frames : ∀ w,
  websocketClient.readLoop c frames w
  = {| now := now w; trace := trace w ++ handler_tasks c frames ++ [ELog Warn] |}.
Proof.
  unfold handler_tasks.
  induction frames as [|[ty data|ty] frames IH]; intros w; simpl.
  - done.
  - case_decide; rewrite IH; simpl; [|done].
    by rewrite <- app_assoc.
  - done.
Qed.

Lemma intact_prefix_cut pre ty post :
  intact_prefix (pre ++ InTruncated ty :: post) = intact_prefix pre.
Proof.
  induction pre as [|[ty' data|ty'] pre IH]; simpl; [done| |done].
  by rewrite IH.
Qed.

(** X1. A run of the reader of the forward server adds to the trace one
    handler task per text frame that arrived, in arrival order, and then
    the close of the socket, and nothing else.  Reading stops at the first
    frame whose body cannot be read: whatever arrives after it is never
    dispatched. *)
Theorem server_reader_dispatches_in_order_then_closes (env : Env) (c : wsConn)
    (w : World) :
  trace (webSocketServer.listenAPI env c w)
    = trace w ++ handler_tasks c (net_incoming env (conn c)) ++ [EClose (conn c)] ∧
  now (webSocketServer.listenAPI env c w) = now w ∧
  ∀ pre ty post w',
    webSocketServer.readLoop c (pre ++ InTruncated ty :: post) w'
    = webSocketServer.readLoop c pre w'.
Proof.
  unfold webSocketServer.listenAPI, wsConn.Close, sockClose.
  rewrite trace_emit, server_readLoop_trace. simpl.
  split; [by rewrite <- app_assoc|]. split; [done|].
  intros pre ty post w'. rewrite !server_readLoop_trace.
  unfold handler_tasks. by rewrite intact_prefix_cut.
Qed.

(** X2. The command endpoint never touches the subscriber set and never
    writes a frame of its own (no handshake): the server is returned
    unchanged, and when the token check and the upgrade succeed all it does
    is run the reader on the new connection, whose caller carries the rate
    limiter exactly when the configuration enables one, and close it. *)
Theorem api_endpoint_only_dispatches (X : Extern) (env : Env)
    (s : webSocketServer.t) (r : Request) (w : World) :
  (webSocketServer.api X env s r w).1 = s ∧
  ∃ evs,
    trace (webSocketServer.api X env s r w).2 = trace w ++ evs ∧
    none_of is_write evs ∧
    ∀ k, checkAuth X r (webSocketServer.token s) = StatusOK →
         net_upgrade env w r = Some k →
      let rl := config.WebsocketServer.RateLimit (webSocketServer.conf s) in
      let cn :=
        {| conn := k;
           apiCaller :=
             {| handlers :=
                  if config.Enabled rl
                  then [rateLimit (config.Frequency rl) (config.Bucket rl)]
                  else [] |} |} in
      evs = [EUpgrade (Some k); ELog Info]
              ++ handler_tasks cn (net_incoming env k) ++ [EClose k].
Proof.
  unfold webSocketServer.api.
  destruct (decide (checkAuth X r (webSocketServer.token s) ≠ StatusOK))
    as [Hne|Heq%dec_stable].
  { split; [done|]. simpl. exists [ELog Warn; EWriteHeader (checkAuth X r (webSocketServer.token s))].
    split; [by rewrite <- app_assoc|]. split; [by repeat constructor|done]. }
  destruct (net_upgrade env w r) as [k|] eqn:Hup.
  2:{ split; [done|]. simpl. exists [EUpgrade None; ELog Warn].
      split; [by rewrite <- app_assoc|]. split; [by repeat constructor|done]. }
  split; [done|]. cbn [snd].
  unfold webSocketServer.listenAPI, wsConn.Close, sockClose.
  rewrite trace_emit, server_readLoop_trace. cbn [trace conn].
  set (cn := {| conn := k |}).
  exists ([EUpgrade (Some k); ELog Info]
            ++ handler_tasks cn (net_incoming env k) ++ [EClose k]).
  split; [by rewrite !trace_emit, <- !app_assoc|]. split.
  - apply Forall_app. split; [by repeat constructor|].
    apply Forall_app. split; [by apply none_of_handler_tasks|by repeat constructor].
  - intros k' _ [= <-]. subst cn. unfold webSocketServer.limited, Use, NewCaller.
    simpl. by destruct (config.Enabled _).
Qed.

(** X3. What the handler of the combined endpoint itself does after a
    successful accept, in order: the upgrade, the handshake write, one log
    line, one handler task per text frame in arrival order, on the
    connection whose caller carries the limiter of the server, and last the
    close of the socket.  The handshake is the only frame the handler
    writes, and it is written before any command is dispatched. *)
Theorem combined_endpoint_handshake_then_reader (X : Extern) (env : Env)
    (s : webSocketServer.t) (r : Request) (w : World) (k : nat) :
  accepted X env s r w k →
  let cn := {| conn := k; apiCaller := webSocketServer.limited s NewCaller |} in
  trace (webSocketServer.any X env s r w).2
    = trace w ++ [EUpgrade (Some k);
                  EWrite k (FText (webSocketServer.handshake s)) true;
                  ELog Info]
        ++ handler_tasks cn (net_incoming env k) ++ [EClose k] ∧
  count is_write (handler_tasks cn (net_incoming env k) ++ [EClose k]) = 0.
Proof.
  intros (Hauth & Hup & Hwr) cn.
  rewrite any_cases, Hauth, Hup, Hwr.
  rewrite decide_False by (intros ?; done). cbv zeta. fold cn.
  split.
  - cbn [snd].
    unfold webSocketServer.listenAPI, wsConn.Close, sockClose.
    rewrite trace_emit, server_readLoop_trace. cbn [trace].
    rewrite !trace_emit, <- !app_assoc. reflexivity.
  - rewrite count_app. rewrite (count_none is_write (handler_tasks _ _)).
    + reflexivity.
    + by apply none_of_handler_tasks.
Qed.

Lemma combined_endpoint_handshake_then_reader_witness :
  let s := Sample.server "" [Sample.sub 1] in
  let r := webSocketServer.any (SampleCmd.extern JNull) SampleAccept.env s
             SampleAccept.request Sample.world0 in
  accepted (SampleCmd.extern JNull) SampleAccept.env s SampleAccept.request
    Sample.world0 5 ∧
  trace r.2 = [EUpgrade (Some 5); EWrite 5 (FText "") true; ELog Info; EClose 5].
Proof.
  intros s r.
  assert (Hacc : accepted (SampleCmd.extern JNull) SampleAccept.env s
                   SampleAccept.request Sample.world0 5)
    by (repeat split; reflexivity).
  split; [exact Hacc|].
  exact (proj1 (combined_endpoint_handshake_then_reader (SampleCmd.extern JNull)
                  SampleAccept.env s SampleAccept.request Sample.world0 5 Hacc)).
Defined.

(** ** More on the broadcast *)

Lemma onBotPushEvent_fanout (X : Extern) (env : Env) (s : webSocketServer.t)
    (e : coolq.Event) (w : World) :
  rejected X (webSocketServer.filter s) e = false →
  webSocketServer.onBotPushEvent X env s e w
  = (webSocketServer.set_eventConn
       (fanout env (JSONBytes e) (webSocketServer.eventConn s) w).1 s,
     (fanout env (JSONBytes e) (webSocketServer.eventConn s) w).2).
Proof.
  intros Hpass. unfold webSocketServer.onBotPushEvent. rewrite Hpass.
  set (cs := webSocketServer.eventConn s).
  destruct (pushLoop_fanout env (JSONBytes e) cs 0 0 cs w eq_refl (le_n 0))
    as (arr' & j' & He & _ & Ht).
  rewrite He. rewrite take_0 in Ht. simpl in Ht. by rewrite Ht.
Qed.

Lemma fanout_all_ok (env : Env) (b : string) (cs : list wsConn) : ∀ w,
  (∀ c w', c ∈ cs → net_write env w' (conn c) = true) →
  fanout env b cs w
  = (cs, {| now := now w; trace := trace w ++ concat (delivery b <$> cs) |}).
Proof.
  induction cs as [|c cs IH]; intros w Hok; simpl.
  - rewrite app_nil_r. by destruct w.
  - unfold wsConn.WriteText, WriteMessage.
    rewrite (Hok c _ ltac:(left)).
    rewrite IH by (intros c' w' Hin; apply Hok; by right). simpl.
    by rewrite <- !app_assoc.
Qed.

Lemma fanout_all_fail (env : Env) (b : string) (cs : list wsConn) : ∀ w,
  (∀ c w', c ∈ cs → net_write env w' (conn c) = false) →
  fanout env b cs w
  = ([], {| now := now w; trace := trace w ++ concat (failure b <$> cs) |}).
Proof.
  induction cs as [|c cs IH]; intros w Hfail; simpl.
  - rewrite app_nil_r. by destruct w.
  - unfold wsConn.WriteText, WriteMessage.
    rewrite (Hfail c _ ltac:(left)).
    rewrite IH by (intros c' w' Hin; apply Hfail; by right).
    unfold wsConn.Close, sockClose. simpl.
    by rewrite <- !app_assoc.
Qed.

(** X4. When every write succeeds, a publish leaves the server exactly as
    it was and adds to the trace, for each subscriber in the order of the
    subscriber set, one debug line and one successful write of the event;
    with no subscriber it does nothing at all. *)
Theorem publish_to_healthy_subscribers (X : Extern) (env : Env)
    (s : webSocketServer.t) (e : coolq.Event) (w : World) :
  rejected X (webSocketServer.filter s) e = false →
  (∀ c w', c ∈ webSocketServer.eventConn s → net_write env w' (conn c) = true) →
  (webSocketServer.onBotPushEvent X env s e w).1 = s ∧
  trace (webSocketServer.onBotPushEvent X env s e w).2
    = trace w ++ concat (delivery (JSONBytes e) <$> webSocketServer.eventConn s) ∧
  (webSocketServer.eventConn s = [] →
     webSocketServer.onBotPushEvent X env s e w = (s, w)).
Proof.
  intros Hpass Hok. rewrite onBotPushEvent_fanout by done.
  rewrite fanout_all_ok by done. simpl.
  split; [apply set_eventConn_same|]. split; [done|].
  intros Hnil. f_equal; [apply set_eventConn_same|].
  rewrite Hnil. simpl. rewrite app_nil_r. by destruct w.
Qed.

Lemma publish_to_healthy_subscribers_witness :
  let s := Sample.server "" [Sample.sub 1; Sample.sub 3] in
  (webSocketServer.onBotPushEvent Sample.extern SampleAccept.env s Sample.ev
     Sample.world0).1 = s ∧
  trace (webSocketServer.onBotPushEvent Sample.extern SampleAccept.env s
           Sample.ev Sample.world0).2
    = [ELog Debug; EWrite 1 (FText "{}") true;
       ELog Debug; EWrite 3 (FText "{}") true].
Proof.
  intros s.
  destruct (publish_to_healthy_subscribers Sample.extern SampleAccept.env s
              Sample.ev Sample.world0 eq_refl (λ _ _ _, eq_refl))
    as (Hs & Htr & _).
  split; [exact Hs|exact Htr].
Defined.

(** X5. When every write fails, a publish closes every subscriber once,
    in order, and leaves the subscriber set empty. *)
Theorem publish_during_outage_drops_everyone (X : Extern) (env : Env)
    (s : webSocketServer.t) (e : coolq.Event) (w : World) :
  rejected X (webSocketServer.filter s) e = false →
  (∀ c w', c ∈ webSocketServer.eventConn s → net_write env w' (conn c) = false) →
  webSocketServer.eventConn (webSocketServer.onBotPushEvent X env s e w).1 = [] ∧
  trace (webSocketServer.onBotPushEvent X env s e w).2
    = trace w ++ concat (failure (JSONBytes e) <$> webSocketServer.eventConn s).
Proof.
  intros Hpass Hfail. rewrite onBotPushEvent_fanout by done.
  by rewrite fanout_all_fail by done.
Qed.

Lemma publish_during_outage_drops_everyone_witness :
  let s := Sample.server "" [Sample.sub 1; Sample.sub 3] in
  webSocketServer.eventConn
    (webSocketServer.onBotPushEvent Sample.extern SampleOutage.env s Sample.ev
       Sample.world0).1 = [] ∧
  trace (webSocketServer.onBotPushEvent Sample.extern SampleOutage.env s
           Sample.ev Sample.world0).2
    = [ELog Debug; EWrite 1 (FText "{}") false; EClose 1;
       ELog Debug; EWrite 3 (FText "{}") false; EClose 3].
Proof.
  intros s.
  exact (publish_during_outage_drops_everyone Sample.extern SampleOutage.env s
           Sample.ev Sample.world0 eq_refl (λ _ _ _, eq_refl)).
Defined.

(** The loop never writes a slot at or beyond the index [j] it returns. *)
Lemma pushLoop_untouched (env : Env) (b : string) (n : nat) :
  ∀ (i j : nat) (arr : list wsConn) (w : World),
  j ≤ i →
  j ≤ (webSocketServer.pushLoop env n i j b arr w).1.2 ≤ j + n ∧
  ∀ p, (webSocketServer.pushLoop env n i j b arr w).1.2 ≤ p →
       (webSocketServer.pushLoop env n i j b arr w).1.1 !! p = arr !! p.
Proof.
  induction n as [|n IH]; intros i j arr w Hji; simpl; [split; [lia|done]|].
  destruct (arr !! i) as [cn|] eqn:Hi; [|split; [simpl; lia|done]].
  unfold wsConn.WriteText, WriteMessage.
  destruct (net_write env _ (conn cn)).
  - set (arr2 := if decide (i ≠ j) then <[j:=cn]> arr else arr).
    destruct (IH (S i) (S j) arr2 (emit (EWrite (conn cn) (FText b) true)
                                     (emit (ELog Debug) w)) ltac:(lia))
      as [Hj Hp].
    split; [lia|]. intros p Hle. rewrite Hp by done.
    unfold arr2. case_decide; [|done].
    apply list_lookup_insert_ne. lia.
  - destruct (IH (S i) j arr (wsConn.Close cn
                 (emit (EWrite (conn cn) (FText b) false) (emit (ELog Debug) w)))
                ltac:(lia)) as [Hj Hp].
    split; [lia|done].
Qed.

(** X6. The compaction is in place: the loop of a publish returns a slice
    of the same length as the one it was given, an index [j] within it, the
    survivors as a subsequence of the old contents in the first [j] slots,
    and every slot from [j] on exactly as it was before, so the entries
    that the new, shorter subscriber set no longer shows are still held by
    the slice. *)
Theorem compaction_is_in_place (env : Env) (b : string) (arr : list wsConn)
    (w : World) :
  let arr' := (webSocketServer.pushLoop env (length arr) 0 0 b arr w).1.1 in
  let j := (webSocketServer.pushLoop env (length arr) 0 0 b arr w).1.2 in
  length arr' = length arr ∧
  j ≤ length arr ∧
  take j arr' `sublist_of` arr ∧
  drop j arr' = drop j arr.
Proof.
  intros arr' j. subst arr' j.
  destruct (pushLoop_fanout env b arr 0 0 arr w eq_refl (le_n 0))
    as (arr' & j' & He & Hlen & Ht).
  pose proof (pushLoop_untouched env b (length arr) 0 0 arr w (le_n 0)) as [Hj Hp].
  rewrite take_0 in Ht. simpl in Ht. rewrite He in *. simpl in *.
  pose proof (fanout_sublist env b arr w) as Hsub. rewrite <- Ht in Hsub.
  split; [done|]. split; [lia|]. split; [done|].
  apply list_eq. intros p. rewrite !lookup_drop. apply Hp. lia.
Qed.

(** The sample broadcast leaves the last slot of the slice as it was. *)
Example compaction_sample :
  (webSocketServer.pushLoop Sample.env 3 0 0 "{}"
     [Sample.sub 1; Sample.sub 2; Sample.sub 3] Sample.world0).1
  = ([Sample.sub 1; Sample.sub 3; Sample.sub 3], 2).
Proof. reflexivity. Qed.

(** X7. The sockets of the subscriber set stay pairwise distinct: if they
    are distinct and the upgrade hands out a socket that no subscriber
    holds, they are distinct after each of the three endpoints and after a
    publish. *)
Theorem subscriber_sockets_stay_distinct (X : Extern) (env : Env)
    (s : webSocketServer.t) (r : Request) (e : coolq.Event) (w : World) :
  NoDup (conn <$> webSocketServer.eventConn s) →
  (∀ k, net_upgrade env w r = Some k → k ∉ conn <$> webSocketServer.eventConn s) →
  NoDup (conn <$> webSocketServer.eventConn (webSocketServer.event X env s r w).1) ∧
  NoDup (conn <$> webSocketServer.eventConn (webSocketServer.any X env s r w).1) ∧
  NoDup (conn <$> webSocketServer.eventConn (webSocketServer.api X env s r w).1) ∧
  NoDup (conn <$> webSocketServer.eventConn
                    (webSocketServer.onBotPushEvent X env s e w).1).
Proof.
  intros Hnd Hfresh.
  assert (Hadd : ∀ k cl, net_upgrade env w r = Some k →
            NoDup (conn <$> webSocketServer.eventConn s
                              ++ [{| conn := k; apiCaller := cl |}])).
  { intros k cl Hk. rewrite fmap_app. apply NoDup_app. split; [done|].
    split; [|by apply NoDup_singleton].
    intros x Hx [->|[]%elem_of_nil]%elem_of_cons. by apply (Hfresh k). }
  split_and!.
  - rewrite event_cases. case_decide; [done|].
    destruct (net_upgrade env w r) as [k|] eqn:Hup; [|done].
    destruct (net_write env _ k); [by apply Hadd|done].
  - rewrite any_cases. case_decide; [done|].
    destruct (net_upgrade env w r) as [k|] eqn:Hup; [|done].
    destruct (net_write env _ k); [by apply Hadd|done].
  - unfold webSocketServer.api. case_decide; [done|].
    by destruct (net_upgrade env w r).
  - unfold webSocketServer.onBotPushEvent.
    destruct (rejected X _ e); [done|].
    destruct (pushLoop_fanout env (JSONBytes e) (webSocketServer.eventConn s)
                0 0 (webSocketServer.eventConn s) w eq_refl (le_n 0))
      as (arr' & j' & He & _ & Ht).
    rewrite He. simpl. rewrite take_0 in Ht. simpl in Ht. rewrite Ht.
    pose proof (fanout_sublist env (JSONBytes e) (webSocketServer.eventConn s) w)
      as Hsub.
    apply (fmap_sublist conn) in Hsub.
    exact (sublist_NoDup _ _ Hnd Hsub).
Qed.

Lemma subscriber_sockets_stay_distinct_witness :
  let s := Sample.server "" [Sample.sub 1; Sample.sub 2] in
  NoDup (conn <$> webSocketServer.eventConn
                    (webSocketServer.event (SampleCmd.extern JNull)
                       SampleAccept.env s SampleAccept.request Sample.world0).1) ∧
  NoDup (conn <$> webSocketServer.eventConn
                    (webSocketServer.onBotPushEvent (SampleCmd.extern JNull)
                       SampleAccept.env s Sample.ev Sample.world0).1).
Proof.
  intros s.
  assert (Hnd : NoDup (conn <$> webSocketServer.eventConn s))
    by (apply (bool_decide_unpack _); vm_compute; exact I).
  assert (Hfresh : ∀ k, net_upgrade SampleAccept.env Sample.world0
                          SampleAccept.request = Some k →
                        k ∉ conn <$> webSocketServer.eventConn s).
  { intros k [= <-]. apply (bool_decide_unpack _). vm_compute. exact I. }
  destruct (subscriber_sockets_stay_distinct (SampleCmd.extern JNull)
              SampleAccept.env s SampleAccept.request Sample.ev Sample.world0
              Hnd Hfresh) as (He & _ & _ & Hp).
  split; [exact He|exact Hp].
Defined.

Lemma fanout_attempts (env : Env) (b : string) (cs : list wsConn) : ∀ w,
  ∃ evs, trace (fanout env b cs w).2 = trace w ++ evs ∧
    ∀ k, count (is_write_to k) evs = occ k cs ∧
         count (is_attempt k b) evs = occ k cs.
Proof.
  induction cs as [|cn cs IH]; intros w; simpl.
  - exists []. by rewrite app_nil_r.
  - unfold wsConn.WriteText, WriteMessage.
    set (w1 := emit (ELog Debug) w).
    destruct (net_write env w1 (conn cn)) eqn:Hok.
    + destruct (IH (emit (EWrite (conn cn) (FText b) true) w1)) as (evs & Htr & Hc).
      destruct (fanout env b cs _) as [kept w3]. simpl in *.
      exists (ELog Debug :: EWrite (conn cn) (FText b) true :: evs).
      split. { rewrite Htr. by rewrite <- !app_assoc. }
      intros k. destruct (Hc k) as (H1 & H2).
      unfold occ in *. rewrite !count_cons. simpl.
      destruct (bool_decide (conn cn = k)); simpl;
        rewrite ?bool_decide_eq_true_2 by done; simpl; lia.
    + destruct (IH (wsConn.Close cn (emit (EWrite (conn cn) (FText b) false) w1)))
        as (evs & Htr & Hc).
      simpl in *.
      exists (ELog Debug :: EWrite (conn cn) (FText b) false :: EClose (conn cn) :: evs).
      split. { rewrite Htr. by rewrite <- !app_assoc. }
      intros k. destruct (Hc k) as (H1 & H2).
      unfold occ in *. rewrite !count_cons. simpl.
      destruct (bool_decide (conn cn = k)); simpl;
        rewrite ?bool_decide_eq_true_2 by done; simpl; lia.
Qed.

Lemma occ_app k cs1 cs2 : occ k (cs1 ++ cs2) = occ k cs1 + occ k cs2.
Proof. unfold occ. by rewrite List.filter_app, length_app. Qed.

(** X8. A connection accepted on the event endpoint on a socket no
    subscriber holds, followed by a publish the filter lets through: the
    handshake is written to the new socket first, and the publish then
    makes exactly one write attempt on that socket, which is the event.
    The new subscriber is served by the very next publish and never sees
    an event before its handshake. *)
Theorem new_subscriber_gets_handshake_then_event (X : Extern) (env : Env)
    (s : webSocketServer.t) (r : Request) (e : coolq.Event) (w : World)
    (k : nat) :
  accepted X env s r w k →
  k ∉ conn <$> webSocketServer.eventConn s →
  rejected X (webSocketServer.filter s) e = false →
  let s1 := (webSocketServer.event X env s r w).1 in
  let w1 := (webSocketServer.event X env s r w).2 in
  let w2 := (webSocketServer.onBotPushEvent X env s1 e w1).2 in
  ∃ evs,
    trace w2 = trace w ++ [EUpgrade (Some k);
                           EWrite k (FText (webSocketServer.handshake s)) true;
                           ELog Info] ++ evs ∧
    count (is_write_to k) evs = 1 ∧
    count (is_attempt k (JSONBytes e)) evs = 1.
Proof.
  intros (Hauth & Hup & Hwr) Hfresh Hpass s1 w1 w2. subst s1 w1 w2.
  rewrite event_cases, Hauth, Hup, Hwr.
  rewrite decide_False by (intros ?; done). cbv zeta. cbn [fst snd].
  rewrite onBotPushEvent_fanout by done. cbn [snd].
  set (cn := {| conn := k; apiCaller := NewCaller |}).
  set (w1 := emit (ELog Info) _).
  destruct (fanout_attempts env (JSONBytes e)
              (webSocketServer.eventConn s ++ [cn]) w1) as (evs & Htr & Hc).
  exists evs. split.
  { cbn [webSocketServer.eventConn webSocketServer.set_eventConn].
    rewrite Htr. unfold w1. rewrite !trace_emit, <- !app_assoc. reflexivity. }
  destruct (Hc k) as [H1 H2]. rewrite H1, H2, occ_app, (occ_notin _ _ Hfresh).
  unfold occ, cn. simpl. by rewrite bool_decide_eq_true_2.
Qed.

Lemma new_subscriber_gets_handshake_then_event_witness :
  let s := Sample.server "" [Sample.sub 1] in
  let X := SampleCmd.extern JNull in
  let r1 := webSocketServer.event X SampleAccept.env s SampleAccept.request
              Sample.world0 in
  ∃ evs,
    trace (webSocketServer.onBotPushEvent X SampleAccept.env r1.1 Sample.ev r1.2).2
      = trace Sample.world0 ++ [EUpgrade (Some 5); EWrite 5 (FText "") true;
                                ELog Info] ++ evs ∧
    count (is_write_to 5) evs = 1 ∧
    count (is_attempt 5 (JSONBytes Sample.ev)) evs = 1.
Proof.
  intros s X r1.
  assert (Hacc : accepted X SampleAccept.env s SampleAccept.request
                   Sample.world0 5) by (repeat split; reflexivity).
  assert (Hfresh : 5 ∉ conn <$> webSocketServer.eventConn s)
    by (apply (bool_decide_unpack _); vm_compute; exact I).
  exact (new_subscriber_gets_handshake_then_event X SampleAccept.env s
           SampleAccept.request Sample.ev Sample.world0 5 Hacc Hfresh eq_refl).
Defined.

(** ** More on the reverse client *)

(** X9. What [connect] does once a dial has succeeded, by role.  It
    writes the handshake, and nothing else, on the new socket exactly for
    the roles Event and Universal; it starts the reader task for every role
    but Event; it never closes the socket, sleeps or dials again, also when
    the handshake write fails; it stores the wrapped connection, whose
    caller carries the limiter of the client if there is one, in the slot
    it was given, and leaves the client unchanged when it was given none,
    as for the API role. *)
Theorem connect_success_by_role (env : Env) (typ url : string)
    (conptr : option slot) (c : websocketClient.t) (w : World) (k : nat) :
  attempt env c typ url w = Some k →
  ∃ evs,
    websocketClient.connect env 1 typ url conptr c w
      = Ok (match conptr with
            | Some p => websocketClient.store p (wrapped c k) c
            | None => c
            end)
           {| now := now w;
              trace := trace w ++
                [ELog Info; EDial url (websocketClient.dial_header c typ) (Some k)]
                ++ evs |} ∧
    count is_write evs
      = (if decide (typ = "Event" ∨ typ = "Universal") then 1 else 0) ∧
    count is_go evs = (if decide (typ = "Event") then 0 else 1) ∧
    (typ ≠ "Event" → EGo (GoListenAPI typ url (wrapped c k)) ∈ evs) ∧
    none_of is_close evs ∧ none_of is_sleep evs ∧ none_of is_dial evs ∧
    Forall (writes_only k
              (FText (client_handshake_json (Uin (websocketClient.bot c)) (Unix w))))
           evs.
Proof. apply connect_success_shape. Qed.

Lemma connect_success_by_role_witness :
  let c := Sample.client "" 0 None in
  ∃ evs,
    websocketClient.connect SampleAccept.env 1 "API" "ws://peer/api" None c
      Sample.world0
      = Ok c {| now := 0;
                trace := [ELog Info;
                          EDial "ws://peer/api"
                            (websocketClient.dial_header c "API") (Some 9)]
                         ++ evs |} ∧
    count is_write evs = 0 ∧ count is_go evs = 1.
Proof.
  intros c.
  destruct (connect_success_by_role SampleAccept.env "API" "ws://peer/api" None
              c Sample.world0 9 eq_refl) as (evs & Hc & Hw & Hg & _).
  exists evs. split; [exact Hc|]. split; [exact Hw|exact Hg].
Defined.

Lemma dial_header_lookups (c : websocketClient.t) (typ : string) :
  let h := websocketClient.dial_header c typ in
  h !! "X-Client-Role" = Some [typ] ∧
  h !! "X-Self-ID" = Some [fmt_d (Uin (websocketClient.bot c))] ∧
  h !! "User-Agent" = Some ["CQHttp/4.15.0"] ∧
  h !! "Authorization"
    = (if decide (websocketClient.token c = "") then None
       else Some ["Token " +:+ websocketClient.token c]).
Proof.
  unfold websocketClient.dial_header.
  destruct (decide (websocketClient.token c ≠ "")) as [Hne|Heq%dec_stable].
  - rewrite decide_False by done.
    rewrite lookup_insert_eq, !(lookup_insert_ne _ "Authorization") by done.
    rewrite lookup_insert_eq, !(lookup_insert_ne _ "X-Client-Role") by done.
    rewrite lookup_insert_eq, !(lookup_insert_ne _ "X-Self-ID") by done.
    by rewrite lookup_insert_eq.
  - rewrite decide_True by done.
    rewrite lookup_insert_eq, !(lookup_insert_ne _ "X-Client-Role") by done.
    rewrite lookup_insert_eq, !(lookup_insert_ne _ "X-Self-ID") by done.
    by rewrite lookup_insert_eq, lookup_insert_ne, lookup_empty.
Qed.

(** X10. Every dial [connect] makes, the first one and every retry,
    goes to the URL it was given and presents the role, the bot's Uin in
    decimal and the user agent; it presents the access token, as
    [Token <token>], exactly when the client has a non-empty one. *)
Theorem every_dial_presents_identity (env : Env) (fuel : nat)
    (typ url : string) (conptr : option slot) (c : websocketClient.t)
    (w : World) :
  ∃ evs,
    trace (world_of (websocketClient.connect env fuel typ url conptr c w))
      = trace w ++ evs ∧
    Forall (presents_identity c typ url) evs.
Proof.
  pose proof (dial_header_lookups c typ) as Hh. cbv zeta in Hh.
  revert w. induction fuel as [|fuel IH]; intros w.
  { exists []. simpl. by rewrite app_nil_r. }
  rewrite connect_unfold.
  destruct (attempt env c typ url w) as [k|] eqn:Hatt.
  - destruct (connect_success_shape env typ url conptr c w k Hatt)
      as (evs & -> & _ & _ & _ & _ & _ & Hnd & _).
    eexists. split; [reflexivity|].
    constructor; [done|]. constructor; [done|].
    eapply Forall_impl; [exact Hnd|]. by intros [].
  - destruct (decide (websocketClient.reconnectInterval c ≠ 0%Z)).
    + destruct (IH (failed_attempt c typ url w)) as (evs & Htr & Hall).
      eexists. split.
      { rewrite Htr. unfold failed_attempt. simpl.
        rewrite <- !app_assoc. simpl. reflexivity. }
      by repeat (constructor; [done|]).
    + eexists. split; [simpl; rewrite <- !app_assoc; simpl; reflexivity|].
      by repeat (constructor; [done|]).
Qed.

(** X11. With reconnection disabled, an event the filter lets through
    makes exactly one write attempt, on the connection in the role's slot;
    if the write fails the connection is closed.  In both cases the client
    is returned as it was: a connection closed this way stays in the slot,
    so every later event is written to it again.  No dial, sleep or task
    is ever started. *)
Theorem push_without_reconnect (X : Extern) (env : Env) (fuel : nat)
    (typ url : string) (cp : slot) (c : websocketClient.t) (e : coolq.Event)
    (w : World) (cn : wsConn) :
  rejected X (websocketClient.filter c) e = false →
  websocketClient.reconnectInterval c = 0%Z →
  websocketClient.load cp c = Some cn →
  let ok := net_write env (emit (ELog Debug) w) (conn cn) in
  websocketClient.onBotPushEvent X env fuel typ url cp c e w
  = Ok c {| now := now w;
            trace := trace w ++
              [ELog Debug; EWrite (conn cn) (FText (JSONBytes e)) ok]
              ++ (if ok then [] else [ELog Warn; EClose (conn cn)]) |}.
Proof.
  intros Hpass Hd Hload ok. subst ok.
  unfold websocketClient.onBotPushEvent, wsConn.WriteText, WriteMessage.
  rewrite Hpass, Hload.
  destruct (net_write env _ (conn cn)).
  - unfold emit. simpl. by rewrite <- !app_assoc.
  - rewrite decide_False by (rewrite Hd; intros ?; done).
    unfold wsConn.Close, sockClose, emit. simpl. by rewrite <- !app_assoc.
Qed.

Lemma push_without_reconnect_witness :
  let c := Sample.client "" 0 (Some (Sample.sub 2)) in
  websocketClient.onBotPushEvent Sample.extern Sample.env 3 "Universal"
    "ws://peer/ws" SlotUniversal c Sample.ev Sample.world0
  = Ok c {| now := 0;
            trace := [ELog Debug; EWrite 2 (FText "{}") false;
                      ELog Warn; EClose 2] |}.
Proof.
  intros c.
  exact (push_without_reconnect Sample.extern Sample.env 3 "Universal"
           "ws://peer/ws" SlotUniversal c Sample.ev Sample.world0 (Sample.sub 2)
           eq_refl eq_refl eq_refl).
Defined.

(** X12. A role whose only dial failed while reconnection is disabled is
    left without a connection, yet [runWSClient] still registers its push
    handler.  The first event the filter lets through then panics in that
    handler, on the nil connection, before anything is written. *)
Theorem abandoned_role_panics_on_first_event (X : Extern) (env : Env)
    (fuel : nat) (b : coolq.CQBot) (cf : config.WebsocketReverse.t) (w : World) :
  config.WebsocketReverse.Disabled cf = false →
  config.WebsocketReverse.Universal cf ≠ "" →
  config.WebsocketReverse.ReconnectInterval cf = 0%Z →
  attempt env (websocketClient.newClient b cf) "Universal"
    (config.WebsocketReverse.Universal cf)
    (emit (EFilterAdd (config.WebsocketReverse.Filter cf)) w) = None →
  ∃ c1 w1,
    websocketClient.runWSClient env (S fuel) b (Some cf) w = Ok (Some c1) w1 ∧
    websocketClient.universal c1 = None ∧
    last (trace w1)
      = Some (EOnEventPush (ClientPush "Universal"
                (config.WebsocketReverse.Universal cf) SlotUniversal)) ∧
    count is_dial (trace w1) = S (count is_dial (trace w)) ∧
    ∀ e w2 fuel',
      rejected X (websocketClient.filter c1) e = false →
      websocketClient.onBotPushEvent X env fuel' "Universal"
        (config.WebsocketReverse.Universal cf) SlotUniversal c1 e w2
      = Panic (emit (ELog Debug) w2).
Proof.
  intros Hen Hu Hri Hatt.
  unfold websocketClient.runWSClient. rewrite Hen, decide_True by done.
  change (websocketClient.filter (websocketClient.newClient b cf))
    with (config.WebsocketReverse.Filter cf).
  rewrite connect_unfold, Hatt.
  rewrite decide_False.
  2:{ unfold websocketClient.newClient. simpl. rewrite Hri.
      rewrite decide_False by (intros ?; done). intros ?; done. }
  eexists _, _. split; [reflexivity|]. split; [done|]. split.
  { rewrite trace_emit. apply last_snoc. }
  split.
  { rewrite !trace_emit, !count_app. unfold count. simpl. lia. }
  intros e w2 fuel' Hpass.
  unfold websocketClient.onBotPushEvent. by rewrite Hpass.
Qed.

Lemma abandoned_role_panics_on_first_event_witness :
  let cf := SampleDial.reverse_conf "ws://peer/ws" "" "" 0 in
  ∃ c1 w1,
    websocketClient.runWSClient SampleDial.env_down 1 {| Uin := 10001 |}
      (Some cf) Sample.world0 = Ok (Some c1) w1 ∧
    websocketClient.onBotPushEvent Sample.extern SampleDial.env_down 1
      "Universal" "ws://peer/ws" SlotUniversal c1 Sample.ev w1
    = Panic (emit (ELog Debug) w1).
Proof.
  intros cf.
  assert (Hu : config.WebsocketReverse.Universal cf ≠ "")
    by (intros H; discriminate H).
  destruct (abandoned_role_panics_on_first_event Sample.extern
              SampleDial.env_down 0 {| Uin := 10001 |} cf Sample.world0
              eq_refl Hu eq_refl eq_refl)
    as (c1 & w1 & Hrun & Hslot & _ & _ & Hpanic).
  exists c1, w1. split; [exact Hrun|].
  apply Hpanic.
  injection Hrun as <- _. reflexivity.
Defined.

(** X13. With reconnection enabled, an event whose write fails closes the
    old connection, sleeps, and dials until a dial succeeds.  When the
    handler returns, the role's slot holds the connection on the new
    socket, and the only frame written on that socket is the handshake: the
    event that failed is not sent again. *)
Theorem failed_push_rebinds_and_drops_event (X : Extern) (env : Env)
    (fuel : nat) (typ url : string) (cp : slot) (c : websocketClient.t)
    (e : coolq.Event) (w : World) (cn : wsConn) (n k : nat) :
  rejected X (websocketClient.filter c) e = false →
  websocketClient.reconnectInterval c ≠ 0%Z →
  websocketClient.load cp c = Some cn →
  net_write env (emit (ELog Debug) w) (conn cn) = false →
  let w0 := Sleep (websocketClient.reconnectInterval c)
              (wsConn.Close cn (emit (ELog Warn)
                 (emit (EWrite (conn cn) (FText (JSONBytes e)) false)
                    (emit (ELog Debug) w)))) in
  let wn := after_failures n c typ url w0 in
  (∀ i, i < n → attempt env c typ url (after_failures i c typ url w0) = None) →
  attempt env c typ url wn = Some k →
  n < fuel →
  ∃ evs,
    websocketClient.onBotPushEvent X env fuel typ url cp c e w
      = Ok (websocketClient.store cp (wrapped c k) c)
           {| now := now wn;
              trace := trace wn ++
                [ELog Info; EDial url (websocketClient.dial_header c typ) (Some k)]
                ++ evs |} ∧
    websocketClient.load cp (websocketClient.store cp (wrapped c k) c)
      = Some (wrapped c k) ∧
    Forall (writes_only k
              (FText (client_handshake_json (Uin (websocketClient.bot c)) (Unix wn))))
           evs ∧
    count is_write evs ≤ 1.
Proof.
  intros Hpass Hen Hload Hwr w0 wn Hfail Hok Hfuel.
  unfold websocketClient.onBotPushEvent, wsConn.WriteText, WriteMessage.
  rewrite Hpass, Hload, Hwr, decide_True by done. fold w0.
  rewrite (connect_retries env n typ url (Some cp) c w0 fuel) by eauto.
  fold wn.
  destruct (connect_success_shape env typ url (Some cp) c wn k Hok)
    as (evs & Hc & Hcw & _ & _ & _ & _ & _ & Hall).
  exists evs. split; [exact Hc|]. split; [by destruct cp|]. split; [done|].
  rewrite Hcw. case_decide; lia.
Qed.

Lemma failed_push_rebinds_and_drops_event_witness :
  let c := Sample.client "" (3 * Second) (Some (Sample.sub 2)) in
  let env := {| net_write := λ _ k, negb (bool_decide (k = 2));
                net_writer := λ _ _, true;
                net_dial := λ _ _ _, Some 9;
                net_upgrade := λ _ _, None;
                net_incoming := λ _, [] |} in
  ∃ w',
    websocketClient.onBotPushEvent Sample.extern env 1 "Universal"
      "ws://peer/ws" SlotUniversal c Sample.ev Sample.world0
    = Ok (websocketClient.store SlotUniversal (wrapped c 9) c) w' ∧
    now w' = (3 * Second)%Z.
Proof.
  intros c env.
  assert (Hen : websocketClient.reconnectInterval c ≠ 0%Z)
    by (intros H; discriminate H).
  assert (Hfail : ∀ i, i < 0 →
            attempt env c "Universal" "ws://peer/ws"
              (after_failures i c "Universal" "ws://peer/ws"
                 (Sleep (websocketClient.reconnectInterval c)
                    (wsConn.Close (Sample.sub 2) (emit (ELog Warn)
                       (emit (EWrite (conn (Sample.sub 2))
                                (FText (JSONBytes Sample.ev)) false)
                          (emit (ELog Debug) Sample.world0)))))) = None)
    by (intros i Hi; lia).
  destruct (failed_push_rebinds_and_drops_event Sample.extern env 1
              "Universal" "ws://peer/ws" SlotUniversal c Sample.ev
              Sample.world0 (Sample.sub 2) 0 9 eq_refl Hen eq_refl eq_refl
              Hfail eq_refl (le_n 1)) as (evs & Hc & _).
  eexists. split; [exact Hc|reflexivity].
Defined.

(** X14. Handling one command always dispatches exactly one call.
    After it, either exactly one frame is written, on the connection the
    command came from, and nothing is closed; or no frame is written and
    that connection, and only it, is closed.  The connection is closed
    exactly when the call panics or [NextWriter] hands out no writer.
    Nothing is dialed, slept or started, and the clock does not move. *)
Theorem command_ends_in_one_response_or_close (X : Extern) (env : Env)
    (c : wsConn) (payload : string) (w : World) :
  let t := TrimSuffix (Str (Get "action" (Parse X payload))) "_async" in
  let params := Get "params" (Parse X payload) in
  ∃ evs,
    wsConn.handleRequest X env c payload w
      = {| now := now w; trace := trace w ++ evs |} ∧
    count is_call evs = 1 ∧
    count is_write evs + count is_close evs = 1 ∧
    count (is_write_to (conn c)) evs = count is_write evs ∧
    count (is_close_of (conn c)) evs = count is_close evs ∧
    none_of is_dial evs ∧ none_of is_sleep evs ∧ none_of is_go evs ∧
    (count is_close evs = 1 ↔
       Call X (emit (ELog Debug) w) (apiCaller c) t params = None ∨
       net_writer env
         (emit (ECall (apiCaller c) t params) (emit (ELog Debug) w)) (conn c)
       = false).
Proof.
  intros t params. unfold wsConn.handleRequest. fold t params.
  destruct (Call X _ _ _ _) as [ret|];
    [destruct (net_writer env _ (conn c)) eqn:Hnw|].
  - unfold WriteMessage, emit. simpl. eexists. split.
    { rewrite <- !app_assoc. simpl. reflexivity. }
    unfold count. simpl. rewrite bool_decide_eq_true_2 by done. simpl.
    split_and!; try done; try by repeat constructor.
    all: split; [done|]; by intros [?|?].
  - unfold wsConn.Close, sockClose, emit. simpl. eexists. split.
    { rewrite <- !app_assoc. simpl. reflexivity. }
    unfold count. simpl. rewrite bool_decide_eq_true_2 by done. simpl.
    split_and!; try done; try by repeat constructor.
    all: split; [by right|done].
  - unfold wsConn.Close, sockClose, emit. simpl. eexists. split.
    { rewrite <- !app_assoc. simpl. reflexivity. }
    unfold count. simpl. rewrite bool_decide_eq_true_2 by done. simpl.
    split_and!; try done; try by repeat constructor.
    all: split; [by left|done].
Qed.

(** Two commands on a socket whose peer is gone: the response of the
    first is lost, the second finds no writer and the connection is
    closed. *)
Example commands_on_broken_socket :
  let X := SampleCmd.extern SampleCmd.send_msg_async in
  let c := Sample.sub 4 in
  let call := ECall NewCaller "send_msg"
                (Some (JObject [("message", JString "hi")])) in
  trace (wsConn.handleRequest X SampleEcho.env_broken c "frame"
           (wsConn.handleRequest X SampleEcho.env_broken c "frame" Sample.world0))
  = [ELog Debug; call;
     EWrite 4 (FEncoded (<["echo" := AString "x1"]> SampleCmd.api_ok)) false;
     ELog Debug; call; ELog Print; EClose 4].
Proof. reflexivity. Qed.

(** What [connect] adds to the trace: effects of its role, the dial
    first. *)
Lemma connect_summary (env : Env) (fuel : nat) (typ url : string)
    (conptr : option slot) (c : websocketClient.t) (w : World) :
  ∃ evs,
    trace (world_of (websocketClient.connect env fuel typ url conptr c w))
      = trace w ++ evs ∧
    Forall (role_effect typ url) evs ∧
    (0 < fuel →
       ∃ rest, evs = [ELog Info;
                      EDial url (websocketClient.dial_header c typ)
                            (attempt env c typ url w)] ++ rest).
Proof.
  destruct (connect_effects env fuel typ url conptr c w) as (evs & Htr & Hall).
  exists evs. split; [done|]. split; [done|].
  intros Hfuel. destruct fuel as [|fuel]; [lia|].
  destruct (connect_first_dial env fuel typ url conptr c w) as (rest & Hfirst).
  exists rest. rewrite Htr in Hfirst. by apply app_inv_head in Hfirst.
Qed.

(** Without a slot to write, [connect] returns the client it was given. *)
Lemma connect_None_client (env : Env) (fuel : nat) (typ url : string)
    (c : websocketClient.t) : ∀ w c' w',
  websocketClient.connect env fuel typ url None c w = Ok c' w' → c' = c.
Proof.
  induction fuel as [|fuel IH]; intros w c' w'; [done|].
  simpl. destruct (net_dial env _ url _) as [sock|].
  - by intros [= <- _].
  - case_decide; [apply IH|]. by intros [= <- _].
Qed.

(** The API role on a dial that succeeds: no handshake, the reader. *)
Lemma connect_api_success (env : Env) (url : string) (c : websocketClient.t)
    (w : World) (k : nat) :
  attempt env c "API" url w = Some k →
  websocketClient.connect env 1 "API" url None c w
  = Ok c {| now := now w;
            trace := trace w ++
              [ELog Info; EDial url (websocketClient.dial_header c "API") (Some k);
               ELog Info; EGo (GoListenAPI "API" url (wrapped c k))] |}.
Proof.
  intros Hk.
  destruct (connect_success_shape env "API" url None c w k Hk)
    as (evs & Hc & Hw & Hg & Hin & _).
  rewrite Hc. f_equal. f_equal. f_equal.
  revert Hc. unfold attempt in Hk. simpl. rewrite Hk.
  assert (Hwr : {| conn := k;
                   apiCaller := match websocketClient.limiter c with
                                | Some h => Use h NewCaller
                                | None => NewCaller
                                end |} = wrapped c k).
  { unfold wrapped, Use, NewCaller. by destruct (websocketClient.limiter c). }
  rewrite Hwr. unfold emit. simpl. intros [= Htr].
  rewrite <- !app_assoc in Htr. simpl in Htr.
  apply app_inv_head in Htr. by injection Htr as <-.
Qed.

(** The Event role as [runWSClient] sets it up after the API role. *)
Lemma event_phase (env : Env) (fuel : nat) (ev : string)
    (c0 : websocketClient.t) (w2 : World) :
  let push := EOnEventPush (ClientPush "Event" ev SlotEvent) in
  let rE :=
    if decide (ev ≠ "") then
      match websocketClient.connect env fuel "Event" ev (Some SlotEvent) c0 w2 with
      | Ok c2 w3 => Ok (Some c2) (emit push w3)
      | Panic w3 => Panic w3
      | OutOfFuel w3 => OutOfFuel w3
      end
    else Ok (Some c0) w2 in
  ∃ evsE,
    trace (world_of rE) = trace w2 ++ evsE ∧
    Forall (role_effect "Event" ev) evsE ∧
    (ev = "" → evsE = []) ∧
    (ev ≠ "" → ∀ c w', rE = Ok c w' →
       ∃ res mid,
         evsE = [ELog Info; EDial ev (websocketClient.dial_header c0 "Event") res]
                  ++ mid ++ [push]) ∧
    ∀ c w', rE = Ok (Some c) w' →
      websocketClient.universal c = websocketClient.universal c0 ∧
      (ev = "" → websocketClient.event c = websocketClient.event c0).
Proof.
  intros push rE. subst rE.
  destruct (decide (ev ≠ "")) as [He|He%dec_stable].
  - destruct (connect_summary env fuel "Event" ev (Some SlotEvent) c0 w2)
      as (evs & Htr & Hall & Hfirst).
    pose proof (connect_slots env fuel "Event" ev (Some SlotEvent) c0 w2)
      as Hslots.
    destruct (websocketClient.connect env fuel "Event" ev _ c0 w2)
      as [c2 w3|w3|w3] eqn:Hc; simpl in Htr.
    + exists (evs ++ [push]). simpl. rewrite Htr, <- app_assoc.
      split; [done|]. split.
      { apply Forall_app. split; [done|]. by repeat constructor. }
      split; [done|]. split.
      * intros _ c w' _.
        assert (Hfuel : 0 < fuel) by (destruct fuel; [done|lia]).
        destruct (Hfirst Hfuel) as (rest & ->).
        eexists _, rest. by rewrite <- !app_assoc.
      * intros c w' [= <- _]. destruct (Hslots c2 w3 eq_refl) as [_ Hl].
        split; [|done]. exact (Hl SlotUniversal ltac:(done)).
    + exists evs. simpl. split_and!; done.
    + exists evs. simpl. split_and!; done.
  - exists []. simpl. rewrite app_nil_r. split_and!; try done.
    by intros c w' [= <- _].
Qed.

(** X15. Without a Universal endpoint, [runWSClient] sets up the API
    role first and the Event role after it, each only if its endpoint is
    configured, and nothing else: after the filter is registered the trace
    grows by the effects of the API role followed by those of the Event
    role.  The API role starts with a dial of the API URL; the Event role,
    when [runWSClient] returns, has started with a dial of the Event URL
    and ended with the registration of the push handler of Event.  When
    it returns, the Universal slot is empty; the API connection is held by
    no slot, so events are never pushed to it.  When both endpoints are
    reachable at the first attempt, the API connection gets its reader and
    no handshake, the Event connection its handshake and no reader, and
    the Event slot holds the Event connection. *)
Theorem api_then_event_without_universal (env : Env) (fuel : nat)
    (b : coolq.CQBot) (cf : config.WebsocketReverse.t) (w : World) :
  config.WebsocketReverse.Disabled cf = false →
  config.WebsocketReverse.Universal cf = "" →
  let api := config.WebsocketReverse.API cf in
  let ev := config.WebsocketReverse.Event cf in
  let c0 := websocketClient.newClient b cf in
  let w0 := emit (EFilterAdd (config.WebsocketReverse.Filter cf)) w in
  let push := EOnEventPush (ClientPush "Event" ev SlotEvent) in
  let r := websocketClient.runWSClient env fuel b (Some cf) w in
  (∃ evsA evsE,
     trace (world_of r)
       = trace w ++ [EFilterAdd (config.WebsocketReverse.Filter cf)]
           ++ evsA ++ evsE ∧
     Forall (role_effect "API" api) evsA ∧
     Forall (role_effect "Event" ev) evsE ∧
     (api = "" → evsA = []) ∧
     (ev = "" → evsE = []) ∧
     (api ≠ "" → 0 < fuel →
        ∃ rest,
          evsA = [ELog Info;
                  EDial api (websocketClient.dial_header c0 "API")
                        (attempt env c0 "API" api w0)] ++ rest) ∧
     (ev ≠ "" → ∀ c w', r = Ok c w' →
        ∃ res mid,
          evsE = [ELog Info; EDial ev (websocketClient.dial_header c0 "Event") res]
                   ++ mid ++ [push]) ∧
     ∀ c w', r = Ok (Some c) w' →
       websocketClient.universal c = None ∧
       (ev = "" → websocketClient.event c = None)) ∧
  (api ≠ "" → ev ≠ "" → 0 < fuel → ∀ kA kE,
     attempt env c0 "API" api w0 = Some kA →
     let wA := {| now := now w;
                  trace := trace w0 ++
                    [ELog Info;
                     EDial api (websocketClient.dial_header c0 "API") (Some kA);
                     ELog Info; EGo (GoListenAPI "API" api (wrapped c0 kA))] |} in
     attempt env c0 "Event" ev wA = Some kE →
     ∃ evs,
       r = Ok (Some (websocketClient.store SlotEvent (wrapped c0 kE) c0))
              {| now := now w;
                 trace := trace wA ++
                   [ELog Info;
                    EDial ev (websocketClient.dial_header c0 "Event") (Some kE)]
                   ++ evs ++ [push] |} ∧
       count is_write evs = 1 ∧
       Forall (writes_only kE (FText (client_handshake_json (Uin b) (Unix w)))) evs ∧
       none_of is_go evs ∧ none_of is_dial evs ∧ none_of is_close evs).
Proof.
  intros Hen Hu api ev c0 w0 push r.
  assert (Hr : r =
    match (if decide (api ≠ "")
           then websocketClient.connect env fuel "API" api None c0 w0
           else Ok c0 w0) with
    | Ok c1 w2 =>
        if decide (ev ≠ "") then
          match websocketClient.connect env fuel "Event" ev (Some SlotEvent) c1 w2
          with
          | Ok c2 w3 => Ok (Some c2) (emit push w3)
          | Panic w3 => Panic w3
          | OutOfFuel w3 => OutOfFuel w3
          end
        else Ok (Some c1) w2
    | Panic w2 => Panic w2
    | OutOfFuel w2 => OutOfFuel w2
    end).
  { subst r. unfold websocketClient.runWSClient. rewrite Hen, Hu.
    by rewrite decide_False by (intros ?; done). }
  split.
  - assert (HA : ∃ evsA,
      trace (world_of (if decide (api ≠ "")
                       then websocketClient.connect env fuel "API" api None c0 w0
                       else Ok c0 w0)) = trace w0 ++ evsA ∧
      Forall (role_effect "API" api) evsA ∧
      (api = "" → evsA = []) ∧
      (api ≠ "" → 0 < fuel →
         ∃ rest,
           evsA = [ELog Info;
                   EDial api (websocketClient.dial_header c0 "API")
                         (attempt env c0 "API" api w0)] ++ rest) ∧
      ∀ c1 w2, (if decide (api ≠ "")
                then websocketClient.connect env fuel "API" api None c0 w0
                else Ok c0 w0) = Ok c1 w2 → c1 = c0).
    { destruct (decide (api ≠ "")) as [Ha|Ha%dec_stable].
      - destruct (connect_summary env fuel "API" api None c0 w0)
          as (evs & Htr & Hall & Hfirst).
        exists evs. split_and!; try done.
        apply connect_None_client.
      - exists []. simpl. rewrite app_nil_r. split_and!; try done.
        by intros c1 w2 [= <- _]. }
    destruct HA as (evsA & HtrA & HallA & HnilA & HfirstA & HsameA).
    rewrite Hr.
    destruct (if decide (api ≠ "") then _ else _) as [c1 w2|w2|w2];
      simpl in HtrA.
    2,3: (exists evsA, []; rewrite app_nil_r; simpl; rewrite HtrA;
          unfold w0; rewrite ?trace_emit, <- ?app_assoc; simpl;
          split_and!; done).
    rewrite (HsameA c1 w2 eq_refl).
    destruct (event_phase env fuel ev c0 w2)
      as (evsE & HtrE & HallE & HnilE & HshapeE & HslotE).
    fold push in HtrE, HshapeE, HslotE.
    exists evsA, evsE. rewrite HtrE, HtrA. unfold w0.
    rewrite ?trace_emit, <- ?app_assoc. simpl.
    split_and!; done.
  - intros Ha He Hfuel kA kE HkA wA HkE.
    destruct fuel as [|fuel]; [lia|].
    rewrite Hr, decide_True by done.
    rewrite connect_unfold, HkA, (connect_api_success env api c0 w0 kA HkA).
    cbv beta match. rewrite decide_True by done.
    change {| now := now w0; trace := trace w0 ++ _ |} with wA.
    rewrite connect_unfold, HkE.
    destruct (connect_success_shape env "Event" ev (Some SlotEvent) c0 wA kE HkE)
      as (evs & -> & Hw & Hg & _ & Hcl & _ & Hd & Hwr).
    exists evs. split.
    { unfold emit. simpl. by rewrite <- !app_assoc. }
    rewrite decide_True in Hw by (by left).
    rewrite decide_True in Hg by done.
    split_and!; try done.
    clear -Hg. unfold none_of, count in *.
    induction evs as [|e evs IH]; [done|]. simpl in Hg.
    destruct (is_go e) eqn:Hgo; [done|]. constructor; [done|]. by apply IH.
Qed.

Lemma api_then_event_without_universal_witness :
  let b := {| Uin := 10001 |} in
  let cf := SampleDial.reverse_conf "" "ws://peer/api" "ws://peer/event" 0 in
  let c0 := websocketClient.newClient b cf in
  let r := websocketClient.runWSClient SampleAccept.env 1 b (Some cf)
             Sample.world0 in
  (∃ evsA evsE,
     trace (world_of r) = trace Sample.world0 ++ [EFilterAdd ""] ++ evsA ++ evsE ∧
     Forall (role_effect "API" "ws://peer/api") evsA ∧
     Forall (role_effect "Event" "ws://peer/event") evsE) ∧
  ∃ w', r = Ok (Some (websocketClient.store SlotEvent (wrapped c0 9) c0)) w'.
Proof.
  intros b cf c0 r.
  destruct (api_then_event_without_universal SampleAccept.env 1 b cf
              Sample.world0 eq_refl eq_refl)
    as [(evsA & evsE & Htr & HA & HE & _) Hboth].
  split.
  - exists evsA, evsE. split; [exact Htr|]. split; [exact HA|exact HE].
  - destruct (Hboth ltac:(intros H; discriminate H) ltac:(intros H; discriminate H)
                ltac:(lia) 9 9 eq_refl eq_refl) as (evs & Hr & _).
    eexists. exact Hr.
Defined.

Lemma connect_never_reachable (env : Env) (typ url : string)
    (conptr : option slot) (c : websocketClient.t) :
  websocketClient.reconnectInterval c ≠ 0%Z →
  (∀ w' h, net_dial env w' url h = None) →
  ∀ fuel w, ∃ w' evs,
    websocketClient.connect env fuel typ url conptr c w = OutOfFuel w' ∧
    trace w' = trace w ++ evs ∧
    count is_dial evs = fuel ∧
    count is_sleep evs = fuel ∧
    Forall (role_effect typ url) evs.
Proof.
  intros Hen Hdown. induction fuel as [|fuel IH]; intros w.
  { exists w, []. simpl. by rewrite app_nil_r. }
  rewrite connect_unfold. unfold attempt. rewrite Hdown, decide_True by done.
  destruct (IH (failed_attempt c typ url w)) as (w' & evs & Hc & Htr & Hd & Hs & Hall).
  exists w', ([ELog Info; EDial url (websocketClient.dial_header c typ) None;
               ELog Warn; ESleep (websocketClient.reconnectInterval c)] ++ evs).
  split; [done|]. split.
  { rewrite Htr. unfold failed_attempt. simpl. by rewrite <- !app_assoc. }
  rewrite !count_app, Hd, Hs. split; [done|]. split; [done|].
  apply Forall_app. split; [|done].
  repeat constructor; simpl; auto using dial_header_role.
Qed.

(** X16. With reconnection enabled and an API endpoint that cannot be
    reached, [runWSClient] never gets past the API role: for every bound on
    the attempts it is still dialing the API endpoint, one dial and one
    sleep per attempt, and it has neither dialed the Event endpoint nor
    registered a push handler. *)
Theorem unreachable_api_starves_event (env : Env) (b : coolq.CQBot)
    (cf : config.WebsocketReverse.t) (w : World) (fuel : nat) :
  config.WebsocketReverse.Disabled cf = false →
  config.WebsocketReverse.Universal cf = "" →
  config.WebsocketReverse.API cf ≠ "" →
  websocketClient.reconnectInterval (websocketClient.newClient b cf) ≠ 0%Z →
  (∀ w' h, net_dial env w' (config.WebsocketReverse.API cf) h = None) →
  ∃ w' evs,
    websocketClient.runWSClient env fuel b (Some cf) w = OutOfFuel w' ∧
    trace w' = trace w ++ [EFilterAdd (config.WebsocketReverse.Filter cf)] ++ evs ∧
    count is_dial evs = fuel ∧
    count is_sleep evs = fuel ∧
    Forall (role_effect "API" (config.WebsocketReverse.API cf)) evs.
Proof.
  intros Hen Hu Ha Hri Hdown. unfold websocketClient.runWSClient.
  rewrite Hen, Hu. rewrite decide_False by (intros ?; done).
  rewrite decide_True by done.
  change (websocketClient.filter (websocketClient.newClient b cf))
    with (config.WebsocketReverse.Filter cf).
  destruct (connect_never_reachable env "API" (config.WebsocketReverse.API cf)
              None (websocketClient.newClient b cf) Hri Hdown fuel
              (emit (EFilterAdd (config.WebsocketReverse.Filter cf)) w))
    as (w' & evs & Hc & Htr & Hd & Hs & Hall).
  rewrite Hc. exists w', evs. split; [done|].
  split; [by rewrite Htr, trace_emit, <- app_assoc|done].
Qed.

Lemma unreachable_api_starves_event_witness :
  let cf := SampleDial.reverse_conf "" "ws://peer/api" "ws://peer/event" 3000 in
  ∃ w' evs,
    websocketClient.runWSClient SampleDial.env_down 7 {| Uin := 10001 |}
      (Some cf) Sample.world0 = OutOfFuel w' ∧
    trace w' = trace Sample.world0 ++ [EFilterAdd ""] ++ evs ∧
    count is_dial evs = 7 ∧
    Forall (role_effect "API" "ws://peer/api") evs.
Proof.
  intros cf.
  assert (Ha : config.WebsocketReverse.API cf ≠ "") by (intros H; discriminate H).
  assert (Hri : websocketClient.reconnectInterval
                  (websocketClient.newClient {| Uin := 10001 |} cf) ≠ 0%Z)
    by (intros H; discriminate H).
  destruct (unreachable_api_starves_event SampleDial.env_down {| Uin := 10001 |}
              cf Sample.world0 7 eq_refl eq_refl Ha Hri (λ _ _, eq_refl))
    as (w' & evs & Hc & Htr & Hd & _ & Hall).
  exists w', evs. split; [exact Hc|]. split; [exact Htr|].
  split; [exact Hd|exact Hall].
Defined.

(** X17. A run of the reader of the reverse client adds to the trace one
    handler task per text frame in arrival order and a warning when reading
    fails; then, only if reconnection is enabled, a sleep of the interval
    and, only for the API role, the task that connects again; and last the
    close of the socket.  The old socket is thus closed only after the
    sleep, and after the new [connect] has been started.  With reconnection
    disabled nothing happens between the warning and the close, for every
    role. *)
Theorem client_reader_trace (env : Env) (c : websocketClient.t)
    (typ url : string) (cn : wsConn) (w : World) :
  let d := websocketClient.reconnectInterval c in
  trace (websocketClient.listenAPI env c typ url cn w)
    = trace w ++ handler_tasks cn (net_incoming env (conn cn)) ++ [ELog Warn]
        ++ (if decide (d ≠ 0%Z)
            then ESleep d ::
                 (if decide (typ = "API") then [EGo (GoConnect typ url None)] else [])
            else [])
        ++ [EClose (conn cn)] ∧
  now (websocketClient.listenAPI env c typ url cn w)
    = (now w + (if decide (d ≠ 0%Z) then Z.max 0 d else 0))%Z.
Proof.
  intros d. unfold websocketClient.listenAPI, wsConn.Close, sockClose. fold d.
  rewrite client_readLoop_trace.
  destruct (decide (d ≠ 0%Z)); [destruct (decide (typ = "API"))|];
    unfold emit, Sleep; simpl; rewrite <- ?app_assoc; simpl;
    (split; [reflexivity|lia]).
Qed.

(** ** Global message ids *)

Section Bits32.
Local Open Scope Z_scope.

Lemma lxor_bound32 a b :
  0 ≤ a < 2 ^ 32 → 0 ≤ b < 2 ^ 32 → 0 ≤ Z.lxor a b < 2 ^ 32.
Proof.
  intros [Ha Ha'] [Hb Hb'].
  assert (Hnn : 0 ≤ Z.lxor a b) by (apply Z.lxor_nonneg; tauto).
  split; [done|].
  destruct (Z.eq_dec (Z.lxor a b) 0) as [->|Hne]; [done|].
  apply Z.log2_lt_pow2; [lia|].
  pose proof (Z.log2_lxor a b Ha Hb) as Hl.
  assert (Z.log2 a < 32).
  { destruct (Z.eq_dec a 0) as [->|?]; [done|]. apply Z.log2_lt_pow2; lia. }
  assert (Z.log2 b < 32).
  { destruct (Z.eq_dec b 0) as [->|?]; [done|]. apply Z.log2_lt_pow2; lia. }
  lia.
Qed.

Lemma land_bound32 a b : 0 ≤ a < 2 ^ 32 → 0 ≤ b → 0 ≤ Z.land a b < 2 ^ 32.
Proof.
  intros [Ha Ha'] Hb.
  assert (Hnn : 0 ≤ Z.land a b) by (apply Z.land_nonneg; tauto).
  split; [done|].
  destruct (Z.eq_dec (Z.land a b) 0) as [->|Hne]; [done|].
  apply Z.log2_lt_pow2; [lia|].
  pose proof (Z.log2_land a b Ha Hb) as Hl.
  assert (Z.log2 a < 32).
  { destruct (Z.eq_dec a 0) as [->|?]; [done|]. apply Z.log2_lt_pow2; lia. }
  lia.
Qed.

Lemma shiftr_bound32 a n : 0 ≤ a < 2 ^ 32 → 0 ≤ n → 0 ≤ Z.shiftr a n < 2 ^ 32.
Proof.
  intros [Ha Ha'] Hn. split; [by apply Z.shiftr_nonneg|].
  rewrite Z.shiftr_div_pow2 by done.
  assert (0 < 2 ^ n) by (apply Z.pow_pos_nonneg; lia).
  assert (a / 2 ^ n ≤ a) by (apply Z.div_le_upper_bound; nia).
  lia.
Qed.

Lemma shift_bound32 crc : 0 ≤ crc < 2 ^ 32 → 0 ≤ crc32.shift crc < 2 ^ 32.
Proof.
  intros H. unfold crc32.shift. destruct (Z.testbit crc 0).
  - apply lxor_bound32; [by apply shiftr_bound32|done].
  - by apply shiftr_bound32.
Qed.

Lemma table_bound32 i : 0 ≤ i < 2 ^ 32 → 0 ≤ crc32.table i < 2 ^ 32.
Proof.
  intros H. unfold crc32.table.
  do 8 (rewrite Nat.iter_succ; apply shift_bound32). done.
Qed.

Lemma byte_bound32 v : 0 ≤ crc32.byte v < 2 ^ 32.
Proof.
  unfold crc32.byte. pose proof (Byte.to_N_bounded v) as H.
  split; [lia|]. apply N2Z.inj_le in H. simpl in H. lia.
Qed.

Lemma next_bound32 crc v : 0 ≤ crc < 2 ^ 32 → 0 ≤ crc32.next crc v < 2 ^ 32.
Proof.
  intros H. unfold crc32.next.
  apply lxor_bound32; [|by apply shiftr_bound32].
  apply table_bound32, lxor_bound32; [by apply land_bound32|apply byte_bound32].
Qed.

Lemma ChecksumIEEE_bound data : 0 ≤ crc32.ChecksumIEEE data < 2 ^ 32.
Proof.
  unfold crc32.ChecksumIEEE, crc32.update, crc32.not32.
  apply lxor_bound32; [|done].
  assert (H0 : 0 ≤ Z.lxor 0 0xffffffff < 2 ^ 32) by done.
  revert H0. generalize (Z.lxor 0 0xffffffff).
  induction data as [|v data IH]; intros crc Hc; simpl; [done|].
  apply IH, next_bound32, Hc.
Qed.

Lemma int32_mod z : 0 ≤ z < 2 ^ 32 → db.int32 z mod 2 ^ 32 = z.
Proof.
  intros Hz. unfold db.int32.
  destruct (Z_lt_dec z (2 ^ 31)).
  - rewrite (Z.mod_small (z + 2 ^ 31)) by lia.
    replace (z + 2 ^ 31 - 2 ^ 31) with z by lia. apply Z.mod_small. lia.
  - replace (z + 2 ^ 31) with (z - 2 ^ 31 + 1 * 2 ^ 32) by lia.
    rewrite Z.mod_add by lia. rewrite (Z.mod_small (z - 2 ^ 31)) by lia.
    replace (z - 2 ^ 31 - 2 ^ 31) with (z + (-1) * 2 ^ 32) by lia.
    rewrite Z.mod_add by lia. apply Z.mod_small. lia.
Qed.
End Bits32.

Lemma no_dash_uint d : no_dash (NilEmpty.string_of_uint d).
Proof. induction d; simpl; (split; [by intros [=]|done]) || done. Qed.

Lemma no_dash_uint0 d : no_dash (NilZero.string_of_uint d).
Proof.
  destruct d; try apply no_dash_uint. simpl. split; [by intros [=]|done].
Qed.

Lemma no_dash_split d1 : ∀ d2 r1 r2,
  no_dash d1 → no_dash d2 →
  d1 +:+ String "-" r1 = d2 +:+ String "-" r2 → d1 = d2 ∧ r1 = r2.
Proof.
  induction d1 as [|ch d1 IH]; intros [|ch2 d2] r1 r2 H1 H2 Heq; simpl in *.
  - by injection Heq as ->.
  - injection Heq as <- _. by destruct H2.
  - injection Heq as -> _. by destruct H1.
  - injection Heq as -> Heq. destruct H1 as [_ H1], H2 as [_ H2].
    destruct (IH d2 r1 r2 H1 H2 Heq) as [-> ->]. done.
Qed.

Lemma fmt_d_inj a b : fmt_d a = fmt_d b → a = b.
Proof.
  unfold fmt_d. intros H.
  assert (Hnn : ∀ z, Z.to_int z ≠ Decimal.Pos Decimal.Nil ∧
                     Z.to_int z ≠ Decimal.Neg Decimal.Nil).
  { intros [|p|p]; simpl; split; try (by intros [=]);
      intros [= Hp]; by apply DecimalPos.Unsigned.to_uint_nonnil in Hp. }
  apply (f_equal NilZero.int_of_string) in H.
  rewrite !NilZero.isi in H by apply Hnn.
  injection H as H. apply (f_equal Z.of_int) in H.
  by rewrite !DecimalZ.of_to in H.
Qed.

(** [fmt_d] is an optional dash and then a non-empty string without one. *)
Lemma fmt_d_shape z :
  ∃ body, body ≠ "" ∧ no_dash body ∧
    (fmt_d z = body ∨ fmt_d z = String "-" body).
Proof.
  assert (Hne : ∀ d, NilZero.string_of_uint d ≠ "") by (by intros []).
  unfold fmt_d. destruct (Z.to_int z) as [d|d]; simpl.
  - exists (NilZero.string_of_uint d).
    split; [apply Hne|]. split; [apply no_dash_uint0|by left].
  - exists (NilZero.string_of_uint d).
    split; [apply Hne|]. split; [apply no_dash_uint0|by right].
Qed.

Lemma append_empty_r (s : string) : s +:+ "" = s.
Proof.
  induction s as [|ch s IH]; [done|].
  change (String ch (s +:+ "") = String ch s). by rewrite IH.
Qed.

Lemma key_unfold code msgID :
  db.key code msgID = fmt_d code +:+ String "-" (fmt_d msgID).
Proof.
  unfold db.key.
  change (Sprintf "%d-%d" [code; msgID])
    with (fmt_d code +:+ String "-" (fmt_d msgID +:+ "")).
  by rewrite append_empty_r.
Qed.

Lemma key_inj code msgID code' msgID' :
  db.key code msgID = db.key code' msgID' → code = code' ∧ msgID = msgID'.
Proof.
  rewrite !key_unfold. intros Heq.
  destruct (fmt_d_shape code) as (b1 & Hn1 & Hb1 & Hs1).
  destruct (fmt_d_shape code') as (b2 & Hn2 & Hb2 & Hs2).
  assert (Hboth : fmt_d code = fmt_d code' ∧ fmt_d msgID = fmt_d msgID').
  { destruct Hs1 as [E1|E1], Hs2 as [E2|E2]; rewrite E1, E2 in Heq |- *.
    - by apply no_dash_split.
    - exfalso. destruct b1 as [|ch b1]; [done|]. simpl in Heq.
      injection Heq as -> _. by destruct Hb1.
    - exfalso. destruct b2 as [|ch b2]; [done|]. simpl in Heq.
      injection Heq as <- _. by destruct Hb2.
    - simpl in Heq. injection Heq as Heq.
      destruct (no_dash_split _ _ _ _ Hb1 Hb2 Heq) as [-> ->]. done. }
  destruct Hboth as [H1 H2]. split; by apply fmt_d_inj.
Qed.

(** X18. The key of a message, the two numbers in decimal joined by a
    dash, determines the pair: different pairs have different keys.  The
    global id is the CRC-32 of the key read as an int32, which loses no
    bit, so two messages share a global id exactly when the checksums of
    their keys collide; it lies in the int32 range. *)
Theorem global_id_is_checksum_of_injective_key (code msgID code' msgID' : Z) :
  (db.key code msgID = db.key code' msgID' ↔ code = code' ∧ msgID = msgID') ∧
  (db.ToGlobalID code msgID mod 2 ^ 32
     = crc32.ChecksumIEEE (list_byte_of_string (db.key code msgID)))%Z ∧
  (- 2 ^ 31 ≤ db.ToGlobalID code msgID < 2 ^ 31)%Z ∧
  (db.ToGlobalID code msgID = db.ToGlobalID code' msgID' ↔
     crc32.ChecksumIEEE (list_byte_of_string (db.key code msgID))
     = crc32.ChecksumIEEE (list_byte_of_string (db.key code' msgID'))).
Proof.
  split; [|split; [|split]].
  - split; [apply key_inj|by intros [-> ->]].
  - apply int32_mod, ChecksumIEEE_bound.
  - unfold db.ToGlobalID, db.int32.
    pose proof (Z.mod_pos_bound
      (crc32.ChecksumIEEE (list_byte_of_string (db.key code msgID)) + 2 ^ 31)
      (2 ^ 32) ltac:(done)). lia.
  - unfold db.ToGlobalID. split; [|by intros ->].
    intros H. apply (f_equal (λ z, z mod 2 ^ 32)%Z) in H.
    by rewrite !int32_mod in H by apply ChecksumIEEE_bound.
Qed.

(** The check value of CRC-32 and two sample keys. *)
Example checksum_sample :
  crc32.ChecksumIEEE (list_byte_of_string "123456789") = 0xcbf43926%Z ∧
  db.key (-5) (-3) = "-5--3" ∧ db.key 12345 0 = "12345-0".
Proof. by vm_compute. Qed.

(** ** The action that is dispatched *)

Lemma append_cons (a : ascii) (s t : string) :
  String a s +:+ t = String a (s +:+ t).
Proof. reflexivity. Qed.

Lemma substring_split (s : string) : ∀ n,
  n ≤ String.length s →
  substring 0 n s +:+ substring n (String.length s - n) s = s.
Proof.
  induction s as [|a s IH]; intros [|n] Hn; simpl in Hn; try lia.
  - done.
  - change (substring 0 (String.length (String a s)) (String a s) = String a s).
    apply substring_whole.
  - change (String a (substring 0 n s)
              +:+ substring n (String.length s - n) s = String a s).
    rewrite append_cons, IH by lia. done.
Qed.

Lemma HasSuffix_split (s suffix : string) :
  HasSuffix s suffix = true → s = TrimSuffix s suffix +:+ suffix.
Proof.
  intros H. unfold TrimSuffix. rewrite H. unfold HasSuffix in H.
  apply andb_true_iff in H as [Hlen Hsub].
  apply Nat.leb_le in Hlen. apply bool_decide_eq_true in Hsub.
  transitivity (substring 0 (String.length s - String.length suffix) s
                  +:+ substring (String.length s - String.length suffix)
                        (String.length suffix) s); [|by rewrite Hsub].
  set (n := String.length s - String.length suffix).
  assert (Hn : String.length suffix = String.length s - n) by (unfold n; lia).
  rewrite Hn. symmetry. apply substring_split. unfold n. lia.
Qed.

(** X19. The action a command is dispatched under is the action it
    carries with one trailing [_async] taken off when there is one, and is
    exactly the action it carries otherwise; the params are passed on as
    they are.  A command without an action, or whose action is not a
    string, or a payload that is no object at all, is dispatched under the
    empty action. *)
Theorem dispatched_action_characterised (X : Extern) (env : Env) (c : wsConn)
    (payload : string) (w : World) :
  let j := Parse X payload in
  let action := Str (Get "action" j) in
  ∃ t evs,
    trace (wsConn.handleRequest X env c payload w)
      = trace w ++ ELog Debug :: ECall (apiCaller c) t (Get "params" j) :: evs ∧
    none_of is_call evs ∧
    (action = t +:+ "_async" ∨ (action = t ∧ HasSuffix action "_async" = false)) ∧
    ((∀ s, Get "action" j ≠ Some (JString s)) → t = "") ∧
    ((∀ kvs, j ≠ JObject kvs) → t = "" ∧ Get "params" j = None).
Proof.
  intros j action.
  exists (TrimSuffix action "_async").
  assert (Htr : ∃ evs,
    trace (wsConn.handleRequest X env c payload w)
      = trace w ++ ELog Debug
          :: ECall (apiCaller c) (TrimSuffix action "_async") (Get "params" j)
          :: evs ∧ none_of is_call evs).
  { unfold wsConn.handleRequest. fold j action.
    destruct (Call X _ _ _ _) as [ret|];
      [destruct (net_writer env _ (conn c))|].
    - unfold WriteMessage. simpl. eexists. split.
      { rewrite <- !app_assoc. simpl. reflexivity. }
      by repeat constructor.
    - unfold wsConn.Close, sockClose. simpl. eexists. split.
      { rewrite <- !app_assoc. simpl. reflexivity. }
      by repeat constructor.
    - unfold wsConn.Close, sockClose. simpl. eexists. split.
      { rewrite <- !app_assoc. simpl. reflexivity. }
      by repeat constructor. }
  destruct Htr as (evs & Htr & Hnone). exists evs.
  split; [done|]. split; [done|]. split; [|split].
  - destruct (HasSuffix action "_async") eqn:Hs.
    + left. by apply HasSuffix_split.
    + right. unfold TrimSuffix. by rewrite Hs.
  - intros Hno. unfold action, Str.
    destruct (Get "action" j) as [[]|]; try done. by destruct (Hno s).
  - intros Hno. unfold action. destruct j; try done. by destruct (Hno kvs).
Qed.

(** ** The profiling server *)

(** X20. [runPprof] itself never exits the process: with a configuration
    that does not decode it only logs a warning, with a disabled one it
    does nothing, and otherwise it mounts the five profiling routes and
    starts one server task for [host:port].  That task exits the process,
    with status 1 and after a sleep of five seconds, exactly when
    [ListenAndServe] returns an error other than [ErrServerClosed]; in every
    other case it neither sleeps nor exits. *)
Theorem pprof_exits_only_on_listen_failure (node : option pprof.PprofServer)
    (addr : string) (err : option pprof.ServeError) (tr : list pprof.Effect) :
  (∃ evs,
     pprof.runPprof node tr = tr ++ evs ∧
     List.filter pprof.is_exit evs = [] ∧
     (List.filter pprof.is_go evs
        = match node with
          | Some conf =>
              if pprof.Disabled conf then []
              else [pprof.Go (pprof.Host conf +:+ ":" +:+ fmt_d (pprof.Port conf))]
          | None => []
          end) ∧
     length (List.filter pprof.is_route evs)
       = (if bool_decide (List.filter pprof.is_go evs = []) then 0 else 5)) ∧
  ((pprof.serve addr err tr).2 = true ↔ ∃ msg, err = Some (pprof.ErrOther msg)) ∧
  ∃ evs,
    (pprof.serve addr err tr).1
      = tr ++ [pprof.Log pprof.Info; pprof.Log pprof.Warn;
               pprof.ListenAndServe addr err] ++ evs ∧
    (if (pprof.serve addr err tr).2
     then ∃ pre, evs = pre ++ [pprof.Sleep (5 * Second); pprof.Exit 1] ∧
                 List.filter pprof.is_exit pre = []
     else evs = []).
Proof.
  split; [|split].
  - unfold pprof.runPprof. destruct node as [conf|].
    + destruct (pprof.Disabled conf).
      * exists []. by rewrite app_nil_r.
      * eexists. split; [reflexivity|]. done.
    + exists [pprof.Log pprof.Warn]. done.
  - unfold pprof.serve. destruct err as [[|msg]|]; simpl.
    + split; [done|]. by intros [? [=]].
    + split; [by exists msg|done].
    + split; [done|]. by intros [? [=]].
  - unfold pprof.serve. destruct err as [[|msg]|]; simpl.
    + by exists [].
    + eexists. split; [by rewrite <- app_assoc|].
      by exists [pprof.Log pprof.Error; pprof.Log pprof.Info; pprof.Log pprof.Warn].
    + by exists [].
Qed.

(** ** Order of delivery *)

(** X21. Two publishes in a row to subscribers whose writes succeed: the
    trace has every delivery of the first event before every delivery of
    the second, each pass in subscriber order, so each subscriber receives
    the two events in the order they were published; the server is
    unchanged. *)
Theorem events_are_delivered_in_publish_order (X : Extern) (env : Env)
    (s : webSocketServer.t) (e1 e2 : coolq.Event) (w : World) :
  rejected X (webSocketServer.filter s) e1 = false →
  rejected X (webSocketServer.filter s) e2 = false →
  (∀ c w', c ∈ webSocketServer.eventConn s → net_write env w' (conn c) = true) →
  let r1 := webSocketServer.onBotPushEvent X env s e1 w in
  let r2 := webSocketServer.onBotPushEvent X env r1.1 e2 r1.2 in
  r2.1 = s ∧
  trace r2.2
    = trace w
        ++ concat (delivery (JSONBytes e1) <$> webSocketServer.eventConn s)
        ++ concat (delivery (JSONBytes e2) <$> webSocketServer.eventConn s).
Proof.
  intros Hp1 Hp2 Hok r1 r2. subst r1 r2.
  rewrite (onBotPushEvent_fanout X env s e1 w Hp1).
  rewrite fanout_all_ok by done. cbn [fst snd].
  rewrite set_eventConn_same.
  rewrite (onBotPushEvent_fanout X env s e2 _ Hp2).
  rewrite fanout_all_ok by done. cbn [fst snd trace].
  split; [apply set_eventConn_same|by rewrite <- app_assoc].
Qed.

Lemma events_are_delivered_in_publish_order_witness :
  let s := Sample.server "" [Sample.sub 1; Sample.sub 3] in
  let e2 := {| JSONString := "[]" |} in
  let r1 := webSocketServer.onBotPushEvent Sample.extern SampleAccept.env s
              Sample.ev Sample.world0 in
  trace (webSocketServer.onBotPushEvent Sample.extern SampleAccept.env r1.1
           e2 r1.2).2
  = [ELog Debug; EWrite 1 (FText "{}") true;
     ELog Debug; EWrite 3 (FText "{}") true;
     ELog Debug; EWrite 1 (FText "[]") true;
     ELog Debug; EWrite 3 (FText "[]") true].
Proof.
  intros s e2 r1.
  exact (proj2 (events_are_delivered_in_publish_order Sample.extern
                  SampleAccept.env s Sample.ev e2 Sample.world0 eq_refl eq_refl
                  (λ _ _ _, eq_refl))).
Defined.

(** ** Both orders of two writers *)

Section BothOrders.
Import Mutex.
Context (wire : Frame -> list Byte.byte).

(** A task inside its critical section can hand all its bytes to the socket. *)
Lemma emit_run (bytes : list Byte.byte) : ∀ (st : state) (i : nat) rest,
  pcs st !! i = Some (map IEmit bytes ++ rest) →
  rtc step st {| held := held st; out := out st ++ bytes;
                 pcs := <[i := rest]> (pcs st) |}.
Proof.
  induction bytes as [|b bytes IH]; intros st i rest Hi; simpl in Hi.
  - rewrite app_nil_r, list_insert_id by done. destruct st. apply rtc_refl.
  - eapply rtc_l; [by eapply step_emit|].
    assert (Hlt : i < length (pcs st)) by by eapply lookup_lt_Some.
    specialize (IH {| held := held st; out := out st ++ [b];
                      pcs := <[i := map IEmit bytes ++ rest]> (pcs st) |} i rest).
    simpl in IH. rewrite list_lookup_insert_eq, list_insert_insert_eq in IH by done.
    rewrite <- app_assoc in IH. by apply IH.
Qed.

(** A waiting task can run to its end when the mutex is free. *)
Lemma writer_run (st : state) (i : nat) (f : Frame) :
  pcs st !! i = Some (remaining wire f Waiting) → held st = None →
  rtc step st {| held := None; out := out st ++ wire f;
                 pcs := <[i := []]> (pcs st) |}.
Proof.
  intros Hi Hfree. simpl in Hi.
  assert (Hlt : i < length (pcs st)) by by eapply lookup_lt_Some.
  eapply rtc_l; [by eapply step_lock|].
  eapply rtc_trans.
  { apply (emit_run (wire f) _ i [IUnlock]). simpl.
    by rewrite list_lookup_insert_eq. }
  simpl. rewrite list_insert_insert_eq.
  eapply rtc_l; [eapply (step_unlock i []); simpl;
                 by rewrite list_lookup_insert_eq|].
  simpl. rewrite list_insert_insert_eq. apply rtc_refl.
Qed.

Lemma run_in_order c1 c2 :
  rtc step (init wire c1 c2)
    {| held := None; out := wire (frame_of c1) ++ wire (frame_of c2);
       pcs := [[]; []] |} ∧
  rtc step (init wire c1 c2)
    {| held := None; out := wire (frame_of c2) ++ wire (frame_of c1);
       pcs := [[]; []] |}.
Proof.
  unfold init. rewrite !prog_of_remaining. split.
  - pose proof (writer_run
      {| held := None; out := [];
         pcs := [remaining wire (frame_of c1) Waiting;
                 remaining wire (frame_of c2) Waiting] |}
      0 (frame_of c1) eq_refl eq_refl) as H1.
    pose proof (writer_run
      {| held := None; out := wire (frame_of c1);
         pcs := [[]; remaining wire (frame_of c2) Waiting] |}
      1 (frame_of c2) eq_refl eq_refl) as H2.
    exact (rtc_trans _ _ _ H1 H2).
  - pose proof (writer_run
      {| held := None; out := [];
         pcs := [remaining wire (frame_of c1) Waiting;
                 remaining wire (frame_of c2) Waiting] |}
      1 (frame_of c2) eq_refl eq_refl) as H1.
    pose proof (writer_run
      {| held := None; out := wire (frame_of c2);
         pcs := [remaining wire (frame_of c1) Waiting; []] |}
      0 (frame_of c1) eq_refl eq_refl) as H2.
    exact (rtc_trans _ _ _ H1 H2).
Qed.
End BothOrders.

(** X22. The lock serializes two writers but does not order them: from
    the state in which both are about to write, there is a complete run in
    which the frame of the first reaches the socket before the frame of the
    second, and one in which it is the other way round.  No order between
    a broadcast and a response, or between two responses, is fixed. *)
Theorem either_writer_can_go_first (wire : Frame -> list Byte.byte)
    (c1 c2 : Mutex.caller) :
  (∃ st, rtc Mutex.step (Mutex.init wire c1 c2) st ∧ Mutex.final st ∧
         Mutex.out st = wire (Mutex.frame_of c1) ++ wire (Mutex.frame_of c2)) ∧
  (∃ st, rtc Mutex.step (Mutex.init wire c1 c2) st ∧ Mutex.final st ∧
         Mutex.out st = wire (Mutex.frame_of c2) ++ wire (Mutex.frame_of c1)).
Proof.
  destruct (run_in_order wire c1 c2) as [H12 H21].
  split.
  - eexists. split; [exact H12|]. split; [|done].
    unfold Mutex.final. simpl. by repeat apply Forall_cons_2; try apply Forall_nil.
  - eexists. split; [exact H21|]. split; [|done].
    unfold Mutex.final. simpl. by repeat apply Forall_cons_2; try apply Forall_nil.
Qed.
